(** * A shallow embedding of [vector.h]: [RawMemory<T>] and [Vector<T>]

    The element type [T] is abstract.  Storage is a heap of blocks, each a
    list of slots that are either raw (no live object) or hold a live [T].
    [Vector] objects live in an object store and are addressed by location,
    so that [this], [other] and [rhs] may alias as they do in the source.
    Every member function is a computation in a state monad whose outcome is
    a normal return, a propagating exception, or undefined behaviour (which
    includes a failed [assert]).  Each element-level operation is recorded in
    an event log, in program order.

    Modelling decisions:
    - [size_t] is [nat] and [Allocate n] obtains a block of [n] slots: the
      model is the code on a machine whose [size_t] and memory are
      unbounded.  The source computes the request [n * sizeof(T)] in
      [size_t], where it wraps, and hands it to [operator new], which may
      throw [std::bad_alloc].  [Allocate_size_t] is the allocation with the
      product computed modulo 2^64; it is [Allocate] whenever the product is
      [representable] ([Allocate_exact]).  A request computed from the number
      of live elements (growth, copy) is representable on any machine that
      holds those elements; a request chosen by the caller ([Vector(n)],
      [RawMemory(n)], [Reserve], [Resize]) need not be, and past the bound
      the code records a capacity larger than the block it obtained.  The
      theorems that say such a call succeeds therefore carry
      [representable] as a hypothesis.  That [operator new] serves a
      representable request is assumed throughout: [std::bad_alloc] is left
      to the environment.
    - Only the constructor selected by the arguments of [EmplaceBack] /
      [Emplace] may throw ([construct] returns [None]); the copy and move
      operations and value-initialisation of [T] do not.
    - The memory discipline is strict: an object is constructed only in a raw
      slot, and read, assigned to or destroyed only where one is alive;
      anything else, like an address outside its block, is undefined
      behaviour. *)

From stdpp Require Import gmap list.
From Stdlib Require Import Lia.

(** ** The element type *)

Class Element (T : Type) := {
  Args : Type;                            (* what a constructor of T is called with *)
  construct : Args → option T;            (* T(args...); None: the constructor throws *)
  value_initialized : T;                  (* T() *)
  moved_from : T → T;                     (* the state a move leaves in its source *)
  is_nothrow_move_constructible : bool;   (* std::is_nothrow_move_constructible_v<T> *)
  is_copy_constructible : bool;           (* std::is_copy_constructible_v<T> *)
  sizeof_T : nat;                         (* sizeof(T), at least 1 *)
}.

(** Two element types used to run the model on concrete inputs: an
    [int]-like type (carried by [nat]) whose moves leave the source
    unchanged, and a type (carried by [Z]) whose move empties its source to
    [0], whose move constructor may throw, and whose constructor throws on
    the argument [0]. *)

#[local] Instance int_element : Element nat := {|
  Args := nat;
  construct := Some;
  value_initialized := 0;
  moved_from := id;
  is_nothrow_move_constructible := true;
  is_copy_constructible := true;
  sizeof_T := 4;
|}.

#[local] Instance throwing_element : Element Z := {|
  Args := Z;
  construct := λ a, if Z.eqb a 0 then None else Some a;
  value_initialized := 0%Z;
  moved_from := λ _, 0%Z;
  is_nothrow_move_constructible := false;
  is_copy_constructible := true;
  sizeof_T := 8;
|}.

(** ** Addresses *)

(** A [T*]: the block it points into ([None] for a pointer derived from
    [nullptr]) and the element offset inside that block. *)
Record ptr := Ptr { blk : option nat; off : nat }.

#[global] Instance ptr_eq_dec : EqDecision ptr.
Proof. solve_decision. Defined.

Definition nullptr : ptr := Ptr None 0.

(* p + n *)
Definition ptr_plus (p : ptr) (n : nat) : ptr := Ptr (blk p) (off p + n).

(* p - n; None when the result would lie before the block *)
Definition ptr_minus (p : ptr) (n : nat) : option ptr :=
  if decide (n ≤ off p) then Some (Ptr (blk p) (off p - n)) else None.

(* std::distance(first, last) converted to size_t; None when [last] is not
   reachable from [first] *)
Definition ptr_distance (first last : ptr) : option nat :=
  if decide (blk first = blk last ∧ off first ≤ off last)
  then Some (off last - off first) else None.

(** ** The two classes' data members *)

Record RawMemory := mkRawMemory { buffer_ : ptr; capacity_ : nat }.
Record Vector := mkVector { data_ : RawMemory; size_ : nat }.

Section Model.
Context {T : Type} `{ET : Element T}.

(** ** Storage, events and the state *)

Inductive slot := Raw | Obj (x : T).

(* The object a reference parameter is bound to. *)
Inductive operand :=
  | Outside (x : T)     (* an object outside every buffer, holding x *)
  | Inside (p : ptr).   (* the object stored at p *)

(* The argument pack [Args&&... args] of EmplaceBack / Emplace. *)
Inductive arg :=
  | Make (a : Args)        (* arbitrary constructor arguments *)
  | CopyOf (o : operand)   (* a const T&  : selects the copy constructor *)
  | MoveOf (o : operand).  (* a T&&       : selects the move constructor *)

Inductive place := Local | At (p : ptr).

Inductive event :=
  | EvAllocate (b n : nat)
  | EvDeallocate (b : nat)
  | EvConstruct (a : arg) (dst : place)
  | EvValueConstruct (dst : ptr)
  | EvCopyConstruct (src dst : ptr)
  | EvMoveConstruct (src dst : ptr)
  | EvCopyAssign (src dst : ptr)
  | EvMoveAssign (src : place) (dst : ptr)
  | EvDestroy (p : place)
  | EvSetSize (this n : nat).

Record state := State {
  heap : gmap nat (list slot);
  vecs : gmap nat Vector;
  log : list event;
}.

Definition set_heap (h : gmap nat (list slot)) (s : state) : state :=
  State h (vecs s) (log s).
Definition set_vecs (v : gmap nat Vector) (s : state) : state :=
  State (heap s) v (log s).
Definition add_log (e : list event) (s : state) : state :=
  State (heap s) (vecs s) (log s ++ e).

Definition empty_state : state := State ∅ ∅ [].

(** ** The monad *)

Inductive outcome (A : Type) :=
  | Ok (a : A) (s : state)
  | Throw (s : state)
  | UB.
Arguments Ok {A} a s.
Arguments Throw {A} s.
Arguments UB {A}.

Definition M (A : Type) : Type := state → outcome A.

#[export] Instance M_ret : MRet M := λ A a s, Ok a s.
#[export] Instance M_bind : MBind M := λ A B f m s,
  match m s with
  | Ok a s' => f a s'
  | Throw s' => Throw s'
  | UB => UB
  end.

Definition throw {A} : M A := λ s, Throw s.
Definition undefined {A} : M A := λ _, UB.
Definition assert (b : bool) : M unit := if b then mret tt else undefined.
Definition lift {A} (o : option A) : M A :=
  match o with Some a => mret a | None => undefined end.
Definition emit (e : event) : M unit := λ s, Ok tt (add_log [e] s).

(* Runs [cleanup] when [m] exits by an exception: the destructor of a local
   object during stack unwinding. *)
Definition unwinding {A} (cleanup : M unit) (m : M A) : M A := λ s,
  match m s with
  | Throw s' =>
      match cleanup s' with
      | Ok _ s'' => Throw s''
      | Throw _ => UB          (* std::terminate *)
      | UB => UB
      end
  | r => r
  end.

(** ** Element-level primitives *)

Definition read_slot (p : ptr) (s : state) : option slot :=
  match blk p with
  | Some b => match heap s !! b with Some l => l !! off p | None => None end
  | None => None
  end.

Definition write_slot (p : ptr) (x : slot) (s : state) : state :=
  match blk p with
  | Some b =>
      match heap s !! b with
      | Some l => set_heap (<[b := <[off p := x]> l]> (heap s)) s
      | None => s
      end
  | None => s
  end.

(* read the live object at p *)
Definition load (p : ptr) : M T := λ s,
  match read_slot p s with Some (Obj x) => Ok x s | _ => UB end.

(* overwrite the value of the live object at p *)
Definition store (p : ptr) (x : T) : M unit := λ s,
  match read_slot p s with
  | Some (Obj _) => Ok tt (write_slot p (Obj x) s)
  | _ => UB
  end.

(* begin the lifetime of an object in the raw slot at p *)
Definition emplace (p : ptr) (x : T) : M unit := λ s,
  match read_slot p s with
  | Some Raw => Ok tt (write_slot p (Obj x) s)
  | _ => UB
  end.

(* std::destroy_at(p) *)
Definition destroy_at (p : ptr) : M unit := λ s,
  match read_slot p s with
  | Some (Obj _) => Ok tt (add_log [EvDestroy (At p)] (write_slot p Raw s))
  | _ => UB
  end.

(* the value the constructor selected by the arguments produces *)
Definition eval_arg (a : arg) : M T :=
  match a with
  | Make args => match construct args with Some x => mret x | None => throw end
  | CopyOf (Outside x) => mret x
  | CopyOf (Inside p) => load p
  | MoveOf (Outside x) => mret x
  | MoveOf (Inside p) => x ← load p; store p (moved_from x);; mret x
  end.

(* new (p) T(std::forward<Args>(args)...) *)
Definition construct_at (p : ptr) (a : arg) : M unit :=
  x ← eval_arg a; emplace p x;; emit (EvConstruct a (At p)).

Definition value_construct_at (p : ptr) : M unit :=
  emplace p value_initialized;; emit (EvValueConstruct p).

Definition copy_construct (src dst : ptr) : M unit :=
  x ← load src; emplace dst x;; emit (EvCopyConstruct src dst).

Definition move_construct (src dst : ptr) : M unit :=
  x ← load src; emplace dst x;; store src (moved_from x);;
  emit (EvMoveConstruct src dst).

(* copy assignment: the object at dst takes the value of the one at src *)
Definition copy_assign (src dst : ptr) : M unit :=
  x ← load src; store dst x;; emit (EvCopyAssign src dst).

(* move assignment from the object at src into the one at dst *)
Definition move_assign (src dst : ptr) : M unit :=
  x ← load src; store dst x;; store src (moved_from x);;
  emit (EvMoveAssign (At src) dst).

(** ** The standard algorithms the source calls *)

Fixpoint uninitialized_value_construct_n (p : ptr) (n : nat) : M unit :=
  match n with
  | 0 => mret tt
  | S k => value_construct_at p;; uninitialized_value_construct_n (ptr_plus p 1) k
  end.

Fixpoint uninitialized_copy_n (src : ptr) (n : nat) (dst : ptr) : M unit :=
  match n with
  | 0 => mret tt
  | S k => copy_construct src dst;;
           uninitialized_copy_n (ptr_plus src 1) k (ptr_plus dst 1)
  end.

Fixpoint uninitialized_move_n (src : ptr) (n : nat) (dst : ptr) : M unit :=
  match n with
  | 0 => mret tt
  | S k => move_construct src dst;;
           uninitialized_move_n (ptr_plus src 1) k (ptr_plus dst 1)
  end.

Fixpoint destroy_n (p : ptr) (n : nat) : M unit :=
  match n with
  | 0 => mret tt
  | S k => destroy_at p;; destroy_n (ptr_plus p 1) k
  end.

Fixpoint copy_n (src : ptr) (n : nat) (dst : ptr) : M unit :=
  match n with
  | 0 => mret tt
  | S k => copy_assign src dst;; copy_n (ptr_plus src 1) k (ptr_plus dst 1)
  end.

(* the loop of std::move(first, last, d_first), front to back *)
Fixpoint move_n (src : ptr) (n : nat) (dst : ptr) : M unit :=
  match n with
  | 0 => mret tt
  | S k => move_assign src dst;; move_n (ptr_plus src 1) k (ptr_plus dst 1)
  end.

(* std::move(first, last, d_first) *)
Definition std_move (first last d_first : ptr) : M unit :=
  n ← lift (ptr_distance first last); move_n first n d_first.

(* the loop of std::move_backward: back to front, both ends decremented
   before each move assignment *)
Fixpoint move_backward_n (first : ptr) (n : nat) (d_last : ptr) : M unit :=
  match n with
  | 0 => mret tt
  | S k => d ← lift (ptr_minus d_last 1);
           move_assign (ptr_plus first k) d;;
           move_backward_n first k d
  end.

(* std::move_backward(first, last, d_last) *)
Definition std_move_backward (first last d_last : ptr) : M unit :=
  n ← lift (ptr_distance first last); move_backward_n first n d_last.

(** ** RawMemory *)

(* static T* Allocate(size_t n), the byte count being taken in unbounded
   arithmetic: n slots are obtained *)
Definition Allocate (n : nat) : M ptr := λ s,
  if decide (n ≠ 0) then
    let b := fresh (dom (heap s)) in
    Ok (Ptr (Some b) 0)
       (add_log [EvAllocate b n] (set_heap (<[b := replicate n Raw]> (heap s)) s))
  else Ok nullptr s.

(* SIZE_MAX of the 64-bit target *)
Definition SIZE_MAX : Z := 2 ^ 64 - 1.

(* the byte count n * sizeof(T) of a request for n elements does not wrap *)
Definition representable (n : nat) : Prop :=
  (Z.of_nat n * Z.of_nat sizeof_T ≤ SIZE_MAX)%Z.

(* static T* Allocate(size_t n) with the byte count computed in size_t, as
   the source does: operator new is handed n * sizeof(T) modulo 2^64, and the
   block has room for as many elements as fit in that many bytes *)
Definition Allocate_size_t (n : nat) : M ptr := λ s,
  if decide (n ≠ 0) then
    let bytes := ((Z.of_nat n * Z.of_nat sizeof_T) `mod` (SIZE_MAX + 1))%Z in
    let slots := Z.to_nat (bytes `div` Z.of_nat sizeof_T)%Z in
    let b := fresh (dom (heap s)) in
    Ok (Ptr (Some b) 0)
       (add_log [EvAllocate b slots]
          (set_heap (<[b := replicate slots Raw]> (heap s)) s))
  else Ok nullptr s.

(* static void Deallocate(T* buf): operator delete, a no-op on nullptr *)
Definition Deallocate (buf : ptr) : M unit := λ s,
  match blk buf with
  | None => if decide (buf = nullptr) then Ok tt s else UB
  | Some b =>
      match heap s !! b with
      | Some _ =>
          if decide (off buf = 0)
          then Ok tt (add_log [EvDeallocate b] (set_heap (delete b (heap s)) s))
          else UB
      | None => UB
      end
  end.

(* RawMemory() = default *)
Definition RawMemory_default : RawMemory := mkRawMemory nullptr 0.

(* explicit RawMemory(size_t capacity) *)
Definition RawMemory_new (capacity : nat) : M RawMemory :=
  buf ← Allocate capacity; mret (mkRawMemory buf capacity).

(* void Swap(RawMemory& other): the pair is (this, other) afterwards *)
Definition RawMemory_Swap (this other : RawMemory) : RawMemory * RawMemory :=
  (mkRawMemory (buffer_ other) (capacity_ other),
   mkRawMemory (buffer_ this) (capacity_ this)).

(* RawMemory(RawMemory&& other): the members take their default
   initialisers, then Swap(other) *)
Definition RawMemory_move_ctor (other : RawMemory) : RawMemory * RawMemory :=
  RawMemory_Swap RawMemory_default other.

(* ~RawMemory() *)
Definition RawMemory_dtor (this : RawMemory) : M unit :=
  Deallocate (buffer_ this).

(* RawMemory& operator=(RawMemory&& rhs) for two distinct objects, which the
   two values stand for; the pair is (this, rhs) afterwards *)
Definition RawMemory_move_assign (this rhs : RawMemory)
  : M (RawMemory * RawMemory) :=
  (if decide (buffer_ this ≠ nullptr) then Deallocate (buffer_ this)
   else mret tt);;
  let this := mkRawMemory nullptr (capacity_ this) in
  mret (RawMemory_Swap this rhs).

(* RawMemory& operator=(RawMemory&& rhs) with rhs the object itself: the
   buffer is released and nulled, and the Swap exchanges each member with
   itself *)
Definition RawMemory_move_assign_self (this : RawMemory) : M RawMemory :=
  (if decide (buffer_ this ≠ nullptr) then Deallocate (buffer_ this)
   else mret tt);;
  let this := mkRawMemory nullptr (capacity_ this) in
  mret (fst (RawMemory_Swap this this)).

(* T* operator+(size_t offset) *)
Definition RawMemory_plus (this : RawMemory) (offset : nat) : M ptr :=
  assert (bool_decide (offset ≤ capacity_ this));;
  mret (ptr_plus (buffer_ this) offset).

(* T& operator[](size_t index): the address of the element referred to *)
Definition RawMemory_index (this : RawMemory) (index : nat) : M ptr :=
  assert (bool_decide (index < capacity_ this));;
  mret (ptr_plus (buffer_ this) index).

Definition GetAddress (this : RawMemory) : ptr := buffer_ this.
Definition RawMemory_Capacity (this : RawMemory) : nat := capacity_ this.

(** ** Vector *)

(* access to the members of the object at location [this] *)
Definition get_vec (this : nat) : M Vector := λ s, lift (vecs s !! this) s.
Definition put_vec (this : nat) (v : Vector) : M unit := λ s,
  Ok tt (set_vecs (<[this := v]> (vecs s)) s).
Definition set_data (this : nat) (d : RawMemory) : M unit :=
  v ← get_vec this; put_vec this (mkVector d (size_ v)).
Definition set_size (this : nat) (n : nat) : M unit :=
  v ← get_vec this; put_vec this (mkVector (data_ v) n);;
  emit (EvSetSize this n).
(* storage for a new Vector object with the given member initialisers *)
Definition new_vec (v : Vector) : M nat := λ s,
  let l := fresh (dom (vecs s)) in Ok l (set_vecs (<[l := v]> (vecs s)) s).
Definition free_vec (this : nat) : M unit := λ s,
  Ok tt (set_vecs (delete this (vecs s)) s).

(* iterator begin() / const_iterator begin() const / cbegin() *)
Definition begin_ (this : nat) : M ptr :=
  v ← get_vec this; mret (GetAddress (data_ v)).
(* iterator end() / const_iterator end() const / cend() *)
Definition end_ (this : nat) : M ptr :=
  v ← get_vec this; mret (ptr_plus (GetAddress (data_ v)) (size_ v)).
Definition cbegin (this : nat) : M ptr := begin_ this.
Definition cend (this : nat) : M ptr := end_ this.

(* iterator operator+(size_t n) *)
Definition Vector_plus (this : nat) (n : nat) : M ptr :=
  v ← get_vec this; mret (ptr_plus (GetAddress (data_ v)) (size_ v)).

(* size_t Capacity() const / size_t Size() const *)
Definition Capacity (this : nat) : M nat :=
  v ← get_vec this; mret (RawMemory_Capacity (data_ v)).
Definition Size (this : nat) : M nat :=
  v ← get_vec this; mret (size_ v).

(* T& operator[](size_t index) *)
Definition Vector_index (this : nat) (index : nat) : M ptr :=
  v ← get_vec this;
  assert (bool_decide (index < size_ v));;
  RawMemory_index (data_ v) index.

(* void Swap(Vector& other) *)
Definition Swap (this other : nat) : M unit :=
  v ← get_vec this; o ← get_vec other;
  let '(d, od) := RawMemory_Swap (data_ v) (data_ o) in
  set_data this d;; set_data other od;;
  v ← get_vec this; o ← get_vec other;
  set_size this (size_ o);; set_size other (size_ v).

(* Vector() = default *)
Definition Vector_default : M nat := new_vec (mkVector RawMemory_default 0).

(* Vector(size_t n) *)
Definition Vector_n (n : nat) : M nat :=
  d ← RawMemory_new n;
  this ← new_vec (mkVector d n);
  uninitialized_value_construct_n (GetAddress d) n;;
  mret this.

(* Vector(const Vector& other) *)
Definition Vector_copy (other : nat) : M nat :=
  o ← get_vec other;
  d ← RawMemory_new (size_ o);
  this ← new_vec (mkVector d (size_ o));
  uninitialized_copy_n (GetAddress (data_ o)) (size_ o) (GetAddress d);;
  mret this.

(* Vector(Vector&& other) *)
Definition Vector_move (other : nat) : M nat :=
  this ← new_vec (mkVector RawMemory_default 0);
  Swap this other;;
  mret this.

(* ~Vector(), followed by the destructor of the member data_ *)
Definition Vector_dtor (this : nat) : M unit :=
  v ← get_vec this;
  destroy_n (GetAddress (data_ v)) (size_ v);;
  RawMemory_dtor (data_ v);;
  free_vec this.

(* void TransferDataToNewHeap(iterator src, size_t size, iterator dst) *)
Definition TransferDataToNewHeap (src : ptr) (size : nat) (dst : ptr) : M unit :=
  if is_nothrow_move_constructible || negb is_copy_constructible
  then uninitialized_move_n src size dst
  else uninitialized_copy_n src size dst.

(* void Reserve(size_t new_capacity) *)
Definition Reserve (this : nat) (new_capacity : nat) : M unit :=
  v ← get_vec this;
  if bool_decide (new_capacity ≤ RawMemory_Capacity (data_ v)) then mret tt
  else
    new_data ← RawMemory_new new_capacity;
    TransferDataToNewHeap (GetAddress (data_ v)) (size_ v) (GetAddress new_data);;
    destroy_n (GetAddress (data_ v)) (size_ v);;
    let '(d, new_data) := RawMemory_Swap (data_ v) new_data in
    set_data this d;;
    RawMemory_dtor new_data.

(* void Resize(size_t new_size) *)
Definition Resize (this : nat) (new_size : nat) : M unit :=
  v ← get_vec this;
  (if bool_decide (size_ v < new_size) then
     (if bool_decide (RawMemory_Capacity (data_ v) < new_size)
      then Reserve this new_size else mret tt);;
     v' ← get_vec this;
     uninitialized_value_construct_n
       (ptr_plus (GetAddress (data_ v')) (size_ v')) (new_size - size_ v')
   else
     destroy_n (ptr_plus (GetAddress (data_ v)) new_size) (size_ v - new_size));;
  set_size this new_size.

(* template <typename... Args> T& EmplaceBack(Args&&... args) *)
Definition EmplaceBack (this : nat) (a : arg) : M ptr :=
  v ← get_vec this;
  (if bool_decide (size_ v = RawMemory_Capacity (data_ v)) then
     new_data ← RawMemory_new (if bool_decide (size_ v = 0) then 1 else size_ v * 2);
     unwinding (RawMemory_dtor new_data)
       (construct_at (ptr_plus (GetAddress new_data) (size_ v)) a;;
        TransferDataToNewHeap (GetAddress (data_ v)) (size_ v) (GetAddress new_data);;
        destroy_n (GetAddress (data_ v)) (size_ v));;
     let '(d, new_data) := RawMemory_Swap (data_ v) new_data in
     set_data this d;;
     RawMemory_dtor new_data
   else
     construct_at (ptr_plus (GetAddress (data_ v)) (size_ v)) a);;
  (* return data_[size_++] *)
  v ← get_vec this;
  set_size this (S (size_ v));;
  RawMemory_index (data_ v) (size_ v).

(* void PushBack(const T& value) *)
Definition PushBack (this : nat) (value : operand) : M unit :=
  EmplaceBack this (CopyOf value);; mret tt.
(* void PushBack(T&& value) *)
Definition PushBack_move (this : nat) (value : operand) : M unit :=
  EmplaceBack this (MoveOf value);; mret tt.

(* void PopBack() *)
Definition PopBack (this : nat) : M unit :=
  v ← get_vec this;
  assert (bool_decide (0 < size_ v));;
  p ← lift (ptr_minus (ptr_plus (GetAddress (data_ v)) (size_ v)) 1);
  destroy_at p;;
  set_size this (size_ v - 1).

(* template <typename... Args> iterator Emplace(const_iterator pos, Args&&... args) *)
Definition Emplace (this : nat) (pos : ptr) (a : arg) : M ptr :=
  first ← cbegin this;
  pos_count ← lift (ptr_distance first pos);
  last ← cend this;
  v ← get_vec this;
  (if bool_decide (last = pos) then
     EmplaceBack this a;; mret tt
   else if bool_decide (size_ v = RawMemory_Capacity (data_ v)) then
     new_data ← RawMemory_new (if bool_decide (size_ v = 0) then 1 else size_ v * 2);
     unwinding (RawMemory_dtor new_data)
       (construct_at (ptr_plus (GetAddress new_data) pos_count) a;;
        TransferDataToNewHeap (GetAddress (data_ v)) pos_count (GetAddress new_data);;
        dist_to_end ← lift (ptr_distance pos last);
        TransferDataToNewHeap (ptr_plus (GetAddress (data_ v)) pos_count) dist_to_end
          (ptr_plus (ptr_plus (GetAddress new_data) pos_count) 1);;
        destroy_n (GetAddress (data_ v)) (size_ v));;
     let '(d, new_data) := RawMemory_Swap (data_ v) new_data in
     set_data this d;;
     set_size this (S (size_ v));;
     RawMemory_dtor new_data
   else
     tmp ← eval_arg a;
     emit (EvConstruct a Local);;
     last1 ← lift (ptr_minus last 1);
     uninitialized_move_n last1 1 last;;
     std_move_backward (ptr_plus first pos_count) last1 last;;
     store (ptr_plus (GetAddress (data_ v)) pos_count) tmp;;
     emit (EvMoveAssign Local (ptr_plus (GetAddress (data_ v)) pos_count));;
     set_size this (S (size_ v));;
     emit (EvDestroy Local));;
  first ← begin_ this;
  mret (ptr_plus first pos_count).

(* iterator Insert(const_iterator pos, const T& value) *)
Definition Insert (this : nat) (pos : ptr) (value : operand) : M ptr :=
  Emplace this pos (CopyOf value).
(* iterator Insert(const_iterator pos, T&& value) *)
Definition Insert_move (this : nat) (pos : ptr) (value : operand) : M ptr :=
  Emplace this pos (MoveOf value).

(* iterator Erase(const_iterator pos) *)
Definition Erase (this : nat) (pos : ptr) : M ptr :=
  last ← cend this;
  if bool_decide (last = pos) then
    PopBack this;; end_ this
  else
    first ← cbegin this;
    pos_count ← lift (ptr_distance first pos);
    last ← end_ this;
    std_move (ptr_plus (ptr_plus first pos_count) 1) last (ptr_plus first pos_count);;
    PopBack this;;
    first ← begin_ this;
    mret (ptr_plus first pos_count).

(* Vector& operator=(const Vector& rhs) *)
Definition Vector_assign (this rhs : nat) : M unit :=
  if bool_decide (this ≠ rhs) then
    v ← get_vec this; r ← get_vec rhs;
    if bool_decide (RawMemory_Capacity (data_ v) < size_ r) then
      rhs_copy ← Vector_copy rhs;
      Swap this rhs_copy;;
      Vector_dtor rhs_copy
    else
      copy_n (GetAddress (data_ r)) (size_ v `min` size_ r) (GetAddress (data_ v));;
      (if bool_decide (size_ r < size_ v) then
         destroy_n (ptr_plus (GetAddress (data_ v)) (size_ r)) (size_ v - size_ r)
       else
         uninitialized_copy_n (ptr_plus (GetAddress (data_ r)) (size_ v))
           (size_ r - size_ v) (ptr_plus (GetAddress (data_ v)) (size_ v)));;
      set_size this (size_ r)
  else mret tt.

(* Vector& operator=(Vector&& rhs) *)
Definition Vector_move_assign (this rhs : nat) : M unit := Swap this rhs.

(* forward traversal from begin() to end(), reading every element *)
Fixpoint read_n (p : ptr) (n : nat) : M (list T) :=
  match n with
  | 0 => mret []
  | S k => x ← load p; xs ← read_n (ptr_plus p 1) k; mret (x :: xs)
  end.
Definition traverse (this : nat) : M (list T) :=
  first ← begin_ this; last ← end_ this;
  n ← lift (ptr_distance first last);
  read_n first n.

(** ** Specification vocabulary *)

(* the buffer [buf] is exactly the block [l] ([nullptr] owns no slot) *)
Definition block_is (h : gmap nat (list slot)) (buf : ptr) (l : list slot) : Prop :=
  match blk buf with
  | Some b => off buf = 0 ∧ h !! b = Some l
  | None => buf = nullptr ∧ l = []
  end.

(* the Vector at [this] owns the buffer [buf] of [cap] slots, of which the
   first [length xs] hold the live elements [xs] and the others are raw *)
Definition vector_is (s : state) (this : nat) (xs : list T) (cap : nat) (buf : ptr)
  : Prop :=
  vecs s !! this = Some (mkVector (mkRawMemory buf cap) (length xs)) ∧
  length xs ≤ cap ∧
  block_is (heap s) buf (map Obj xs ++ replicate (cap - length xs) Raw).

(* the constructor selected by the argument reads the value [x] and does
   not modify the storage: anything but a move from an object in storage *)
Definition arg_yields (s : state) (a : arg) (x : T) : Prop :=
  match a with
  | Make args => construct args = Some x
  | CopyOf (Outside y) | MoveOf (Outside y) => y = x
  | CopyOf (Inside p) => read_slot p s = Some (Obj x)
  | MoveOf (Inside p) => False
  end.

(* the events of releasing the buffer at [buf] *)
Definition dealloc_events (buf : ptr) : list event :=
  match blk buf with Some b => [EvDeallocate b] | None => [] end.

(* the capacity EmplaceBack and Emplace grow a full buffer of n slots to *)
Definition grown (n : nat) : nat := if bool_decide (n = 0) then 1 else n * 2.

(* the element transfer chosen by TransferDataToNewHeap, as an event *)
Definition transfer_event (src dst : ptr) : event :=
  if is_nothrow_move_constructible || negb is_copy_constructible
  then EvMoveConstruct src dst else EvCopyConstruct src dst.
(* what a transfer leaves in the source slot *)
Definition transferred_from (x : T) : T :=
  if is_nothrow_move_constructible || negb is_copy_constructible
  then moved_from x else x.

(* events of a loop over n consecutive slots starting at p *)
Definition events_at (f : ptr → event) (p : ptr) (n : nat) : list event :=
  map (λ i, f (ptr_plus p i)) (seq 0 n).
(* events of a loop over n consecutive slot pairs starting at (src, dst) *)
Definition events_at2 (f : ptr → ptr → event) (src : ptr) (n : nat) (dst : ptr)
  : list event :=
  map (λ i, f (ptr_plus src i) (ptr_plus dst i)) (seq 0 n).

Definition destroy_event (p : ptr) : event := EvDestroy (At p).

(* the events of EmplaceBack on a vector of n elements in the buffer [buf] of
   [cap] slots; [nb] is the block a reallocation obtains *)
Definition EmplaceBack_events (this : nat) (buf : ptr) (n cap nb : nat) (a : arg)
  : list event :=
  if bool_decide (n = cap) then
    [EvAllocate nb (grown n); EvConstruct a (At (Ptr (Some nb) n))]
    ++ events_at2 transfer_event buf n (Ptr (Some nb) 0)
    ++ events_at destroy_event buf n
    ++ dealloc_events buf
    ++ [EvSetSize this (S n)]
  else [EvConstruct a (At (ptr_plus buf n)); EvSetSize this (S n)].

(* the events of Emplace at offset p *)
Definition Emplace_events (this : nat) (buf : ptr) (n cap nb p : nat) (a : arg)
  : list event :=
  if bool_decide (p = n) then EmplaceBack_events this buf n cap nb a
  else if bool_decide (n = cap) then
    [EvAllocate nb (grown n); EvConstruct a (At (Ptr (Some nb) p))]
    ++ events_at2 transfer_event buf p (Ptr (Some nb) 0)
    ++ events_at2 transfer_event (ptr_plus buf p) (n - p) (Ptr (Some nb) (p + 1))
    ++ events_at destroy_event buf n
    ++ [EvSetSize this (S n)]
    ++ dealloc_events buf
  else
    [EvConstruct a Local;
     EvMoveConstruct (ptr_plus buf (n - 1)) (ptr_plus buf n)]
    ++ map (λ k, EvMoveAssign (At (ptr_plus buf (p + k))) (ptr_plus buf (p + k + 1)))
         (rev (seq 0 (n - 1 - p)))
    ++ [EvMoveAssign Local (ptr_plus buf p); EvSetSize this (S n); EvDestroy Local].

(* the events of Erase at offset p < n *)
Definition Erase_events (this : nat) (buf : ptr) (n p : nat) : list event :=
  events_at2 (λ src dst, EvMoveAssign (At src) dst)
    (ptr_plus buf (p + 1)) (n - p - 1) (ptr_plus buf p)
  ++ [EvDestroy (At (ptr_plus buf (n - 1))); EvSetSize this (n - 1)].

(* the events of Reserve(new_capacity) *)
Definition Reserve_events (buf : ptr) (n cap nb new_capacity : nat) : list event :=
  if bool_decide (new_capacity ≤ cap) then []
  else [EvAllocate nb new_capacity]
       ++ events_at2 transfer_event buf n (Ptr (Some nb) 0)
       ++ events_at destroy_event buf n
       ++ dealloc_events buf.

(* the buffer after Reserve(new_capacity) or Resize(new_capacity) *)
Definition buffer_reserved (s : state) (buf : ptr) (cap new_capacity : nat) : ptr :=
  if bool_decide (new_capacity ≤ cap) then buf
  else Ptr (Some (fresh (dom (heap s)))) 0.


(* capacity and buffer after EmplaceBack / Emplace on n elements in [cap]
   slots at [buf], in the state s *)
Definition capacity_after (n cap : nat) : nat :=
  if bool_decide (n = cap) then grown n else cap.
Definition buffer_after (s : state) (buf : ptr) (n cap : nat) : ptr :=
  if bool_decide (n = cap) then Ptr (Some (fresh (dom (heap s)))) 0 else buf.

(* what a one-slot shift to the left of [xs] leaves in the slot it vacates
   last, the slot before [xs] having held [y] and now holding the head *)
Definition left_vacated (y : T) (xs : list T) : T :=
  match last xs with Some z => moved_from z | None => y end.
(* what a one-slot shift to the right of [ys] leaves in the slot it vacates
   last, the slot after [ys] having held [w] *)
Definition right_vacated (w : T) (ys : list T) : T :=
  match ys with [] => w | y :: _ => moved_from y end.

(** ** Sequences of operations and their reference semantics *)

(* push_back(x), insert(begin() + p, x), erase(begin() + p) *)
Inductive op :=
  | OpPushBack (x : T)
  | OpInsert (p : nat) (x : T)
  | OpErase (p : nat).

Definition run_op (this : nat) (o : op) : M unit :=
  match o with
  | OpPushBack x => PushBack this (Outside x)
  | OpInsert p x =>
      first ← begin_ this; Insert this (ptr_plus first p) (Outside x);; mret tt
  | OpErase p =>
      first ← begin_ this; Erase this (ptr_plus first p);; mret tt
  end.

Fixpoint run_ops (this : nat) (os : list op) : M unit :=
  match os with
  | [] => mret tt
  | o :: os => run_op this o;; run_ops this os
  end.

(* the reference list: append, insert-at, remove-at *)
Definition ref_op (l : list T) (o : op) : list T :=
  match o with
  | OpPushBack x => l ++ [x]
  | OpInsert p x => take p l ++ x :: drop p l
  | OpErase p => take p l ++ drop (S p) l
  end.

Definition ref_ops (l : list T) (os : list op) : list T := fold_left ref_op os l.

(* offsets are valid: insert anywhere in [0, length], erase in [0, length) *)
Definition valid_op (l : list T) (o : op) : bool :=
  match o with
  | OpPushBack _ => true
  | OpInsert p _ => p <=? length l
  | OpErase p => p <? length l
  end.

Fixpoint valid_ops (l : list T) (os : list op) : bool :=
  match os with
  | [] => true
  | o :: os => valid_op l o && valid_ops (ref_op l o) os
  end.

(* c is the least power of two that is at least k *)
Definition least_pow2_ge (c k : nat) : Prop :=
  (∃ j, c = 2 ^ j) ∧ k ≤ c ∧ ∀ j, k ≤ 2 ^ j → c ≤ 2 ^ j.

(* the invariant of the doubling growth: the capacity c of k pushed elements
   is 0 before the first push_back, and afterwards a power of two whose half
   is below k *)
Definition doubling_inv (k c : nat) : Prop :=
  (k = 0 ∧ c = 0) ∨ (∃ j, c = 2 ^ j ∧ k ≤ c ∧ c < 2 * k).

(** ** The calls that may reallocate *)

Inductive realloc_call :=
  | CallReserve (new_capacity : nat)
  | CallEmplaceBack (a : arg)
  | CallEmplace (p : nat) (a : arg).

Definition run_realloc_call (this : nat) (c : realloc_call) : M unit :=
  match c with
  | CallReserve new_capacity => Reserve this new_capacity
  | CallEmplaceBack a => EmplaceBack this a;; mret tt
  | CallEmplace p a => first ← begin_ this; Emplace this (ptr_plus first p) a;; mret tt
  end.

(* the call takes its reallocating path on n elements in cap slots *)
Definition reallocates (n cap : nat) (c : realloc_call) : bool :=
  match c with
  | CallReserve new_capacity => cap <? new_capacity
  | CallEmplaceBack _ => n =? cap
  | CallEmplace p _ => (p <=? n) && (n =? cap)
  end.

(* the call has read its argument: evaluating the argument of the
   constructor gives x and the state s0 (which is s unless the argument is
   moved from an object in storage); Reserve has no argument *)
Definition call_arg_evaluates (s : state) (c : realloc_call) (x : T) (s0 : state)
  : Prop :=
  match c with
  | CallReserve _ => s0 = s
  | CallEmplaceBack a | CallEmplace _ a => eval_arg a s = Ok x s0
  end.

(* the request of a Reserve is chosen by the caller *)
Definition call_representable (c : realloc_call) : Prop :=
  match c with
  | CallReserve new_capacity => representable new_capacity
  | _ => True
  end.

(* the elements, the capacity and the events of a reallocating call on the
   elements xs, the new element being x *)
Definition elements_after (c : realloc_call) (xs : list T) (x : T) : list T :=
  match c with
  | CallReserve _ => xs
  | CallEmplaceBack _ => xs ++ [x]
  | CallEmplace p _ => take p xs ++ x :: drop p xs
  end.
Definition realloc_capacity (n : nat) (c : realloc_call) : nat :=
  match c with
  | CallReserve new_capacity => new_capacity
  | _ => grown n
  end.
Definition realloc_events (this : nat) (buf : ptr) (n cap nb : nat)
    (c : realloc_call) : list event :=
  match c with
  | CallReserve new_capacity => Reserve_events buf n cap nb new_capacity
  | CallEmplaceBack a => EmplaceBack_events this buf n cap nb a
  | CallEmplace p a => Emplace_events this buf n cap nb p a
  end.

(* the offset in the new buffer of the element at offset i of the old one *)
Definition new_offset (c : realloc_call) (i : nat) : nat :=
  match c with
  | CallEmplace p _ => if i <? p then i else S i
  | _ => i
  end.

(* the element transfers among the events: (moved?, source, destination) *)
Fixpoint transfers (evs : list event) : list (bool * ptr * ptr) :=
  match evs with
  | [] => []
  | EvMoveConstruct src dst :: evs => (true, src, dst) :: transfers evs
  | EvCopyConstruct src dst :: evs => (false, src, dst) :: transfers evs
  | _ :: evs => transfers evs
  end.

(** ** The public operations and the class invariant *)

Inductive call :=
  | CallVector                                        (* Vector() *)
  | CallVectorN (n : nat)                             (* Vector(n) *)
  | CallVectorCopy (other : nat)                      (* Vector(const Vector&) *)
  | CallVectorMove (other : nat)                      (* Vector(Vector&&) *)
  | CallAssign (this rhs : nat)                       (* operator=(const Vector&) *)
  | CallMoveAssign (this rhs : nat)                   (* operator=(Vector&&) *)
  | CallReserveOn (this n : nat)
  | CallResize (this n : nat)
  | CallEmplaceBackOn (this : nat) (a : arg)
  | CallPushBack (this : nat) (value : operand)
  | CallPushBackMove (this : nat) (value : operand)
  | CallPopBack (this : nat)
  | CallEmplaceOn (this : nat) (pos : ptr) (a : arg)
  | CallInsert (this : nat) (pos : ptr) (value : operand)
  | CallInsertMove (this : nat) (pos : ptr) (value : operand)
  | CallErase (this : nat) (pos : ptr)
  | CallSwap (this other : nat).

Definition exec (c : call) : M unit :=
  match c with
  | CallVector => Vector_default;; mret tt
  | CallVectorN n => Vector_n n;; mret tt
  | CallVectorCopy other => Vector_copy other;; mret tt
  | CallVectorMove other => Vector_move other;; mret tt
  | CallAssign this rhs => Vector_assign this rhs
  | CallMoveAssign this rhs => Vector_move_assign this rhs
  | CallReserveOn this n => Reserve this n
  | CallResize this n => Resize this n
  | CallEmplaceBackOn this a => EmplaceBack this a;; mret tt
  | CallPushBack this value => PushBack this value
  | CallPushBackMove this value => PushBack_move this value
  | CallPopBack this => PopBack this
  | CallEmplaceOn this pos a => Emplace this pos a;; mret tt
  | CallInsert this pos value => Insert this pos value;; mret tt
  | CallInsertMove this pos value => Insert_move this pos value;; mret tt
  | CallErase this pos => Erase this pos;; mret tt
  | CallSwap this other => Swap this other
  end.

(* length <= capacity, for every Vector object of the store *)
Definition length_le_capacity (V : gmap nat Vector) : Prop :=
  map_Forall (λ _ v, size_ v ≤ capacity_ (data_ v)) V.

(* the computation leaves the object store alone *)
Definition keeps_vecs {A} (m : M A) : Prop :=
  ∀ s, match m s with
       | Ok _ s' | Throw s' => vecs s' = vecs s
       | UB => True
       end.

(* every normal result of the computation satisfies R *)
Definition returns {A} (m : M A) (R : A → Prop) : Prop :=
  ∀ s a s', m s = Ok a s' → R a.

(* from the object store V0, a normal return with result a leaves an object
   store satisfying Q a, and an exception leaves one satisfying the
   invariant *)
Definition vstep {A} (V0 : gmap nat Vector) (m : M A)
    (Q : A → gmap nat Vector → Prop) : Prop :=
  ∀ s, vecs s = V0 →
       match m s with
       | Ok a s' => Q a (vecs s')
       | Throw s' => length_le_capacity (vecs s')
       | UB => True
       end.

(** ** Ownership with a frame *)

(* [vector_is], and moreover the heap is exactly the vector's block on top of
   the frame [h0] and the object store exactly the vector's members on top
   of the frame [V0] *)
Definition owns (s : state) (this : nat) (xs : list T) (cap : nat) (buf : ptr)
    (h0 : gmap nat (list slot)) (V0 : gmap nat Vector) : Prop :=
  vecs s = <[this := mkVector (mkRawMemory buf cap) (length xs)]> V0 ∧
  length xs ≤ cap ∧
  match blk buf with
  | Some b =>
      off buf = 0 ∧ h0 !! b = None ∧
      heap s = <[b := map Obj xs ++ replicate (cap - length xs) Raw]> h0
  | None => buf = nullptr ∧ cap = 0 ∧ heap s = h0
  end.

(* the heap without the block of [buf] *)
Definition heap_without (h : gmap nat (list slot)) (buf : ptr)
  : gmap nat (list slot) :=
  match blk buf with Some b => delete b h | None => h end.

(* two buffers do not share a block *)
Definition disjoint_buffers (buf1 buf2 : ptr) : Prop :=
  match blk buf1, blk buf2 with
  | Some b1, Some b2 => b1 ≠ b2
  | _, _ => True
  end.

(* the buffer RawMemory(n) obtains in the state s, and the event of it *)
Definition buffer_new (s : state) (n : nat) : ptr :=
  if decide (n = 0) then nullptr else Ptr (Some (fresh (dom (heap s)))) 0.
Definition alloc_events (s : state) (n : nat) : list event :=
  if decide (n = 0) then [] else [EvAllocate (fresh (dom (heap s))) n].

(* capacity and buffer of the destination after the copy assignment of n
   elements to a vector with [cap] slots at [buf], in the state s *)
Definition assigned_capacity (cap n : nat) : nat :=
  if bool_decide (cap < n) then n else cap.
Definition assigned_buffer (s : state) (buf : ptr) (cap n : nat) : ptr :=
  if bool_decide (cap < n) then Ptr (Some (fresh (dom (heap s)))) 0 else buf.

(* the buffer of a RawMemory is null or the start of a block of the heap *)
Definition buffer_owned (h : gmap nat (list slot)) (d : RawMemory) : Prop :=
  match blk (buffer_ d) with
  | Some b => off (buffer_ d) = 0 ∧ is_Some (h !! b)
  | None => buffer_ d = nullptr
  end.

(** * Proofs *)

(** ** The monad *)

Lemma bind_Ok {A B} (m : M A) (f : A → M B) s a s' :
  m s = Ok a s' → (m ≫= f) s = f a s'.
Proof. intros H. unfold mbind, M_bind. by rewrite H. Qed.

Lemma bind_Throw {A B} (m : M A) (f : A → M B) s s' :
  m s = Throw s' → (m ≫= f) s = Throw s'.
Proof. intros H. unfold mbind, M_bind. by rewrite H. Qed.

Lemma bind_ret {A B} (a : A) (f : A → M B) s : (mret a ≫= f) s = f a s.
Proof. done. Qed.

Lemma bind_assoc {A B C} (m : M A) (f : A → M B) (g : B → M C) s :
  ((m ≫= f) ≫= g) s = (m ≫= (λ x, f x ≫= g)) s.
Proof. unfold mbind, M_bind. by destruct (m s). Qed.

Lemma bind_lift_Some {A B} (o : option A) (f : A → M B) s a :
  o = Some a → (lift o ≫= f) s = f a s.
Proof. by intros ->. Qed.

Lemma bind_emit {B} e (f : unit → M B) h v l :
  (emit e ≫= f) (State h v l) = f tt (State h v (l ++ [e])).
Proof. done. Qed.

Lemma bind_assert_true {B} b (f : unit → M B) s :
  b = true → (assert b ≫= f) s = f tt s.
Proof. by intros ->. Qed.

(** ** Addresses and event lists *)

Lemma ptr_plus_plus p n m : ptr_plus (ptr_plus p n) m = ptr_plus p (n + m).
Proof. unfold ptr_plus. simpl. f_equal. lia. Qed.

Lemma ptr_plus_0 p : ptr_plus p 0 = p.
Proof. destruct p. unfold ptr_plus. simpl. f_equal. lia. Qed.

Lemma events_at_S f p n :
  events_at f p (S n) = f p :: events_at f (ptr_plus p 1) n.
Proof.
  unfold events_at. simpl. rewrite ptr_plus_0. f_equal.
  rewrite <- seq_shift, map_map. apply map_ext. intros i.
  by rewrite ptr_plus_plus.
Qed.

Lemma events_at2_S f p n q :
  events_at2 f p (S n) q
  = f p q :: events_at2 f (ptr_plus p 1) n (ptr_plus q 1).
Proof.
  unfold events_at2. simpl. rewrite !ptr_plus_0. f_equal.
  rewrite <- seq_shift, map_map. apply map_ext. intros i.
  by rewrite !ptr_plus_plus.
Qed.

(** ** Single slots *)

Lemma insert_middle {X} (pre post : list X) (x y : X) :
  <[length pre := x]> (pre ++ y :: post) = pre ++ x :: post.
Proof.
  rewrite insert_app_r_alt by lia. by replace (length pre - length pre) with 0 by lia.
Qed.

Section cell.
Context (h : gmap nat (list slot)) (v : gmap nat Vector) (l : list event).
Context (b o : nat) (pre post : list slot) (Ho : o = length pre).

Lemma load_Ok x :
  h !! b = Some (pre ++ Obj x :: post) →
  load (Ptr (Some b) o) (State h v l) = Ok x (State h v l).
Proof.
  intros Hb. unfold load, read_slot. simpl. rewrite Hb, Ho.
  by rewrite list_lookup_middle.
Qed.

Lemma store_Ok x y :
  h !! b = Some (pre ++ Obj y :: post) →
  store (Ptr (Some b) o) x (State h v l)
  = Ok tt (State (<[b := pre ++ Obj x :: post]> h) v l).
Proof.
  intros Hb. unfold store, read_slot, write_slot. simpl. rewrite Hb, Ho.
  rewrite list_lookup_middle by done. unfold set_heap. simpl.
  by rewrite insert_middle.
Qed.

Lemma emplace_Ok x :
  h !! b = Some (pre ++ Raw :: post) →
  emplace (Ptr (Some b) o) x (State h v l)
  = Ok tt (State (<[b := pre ++ Obj x :: post]> h) v l).
Proof.
  intros Hb. unfold emplace, read_slot, write_slot. simpl. rewrite Hb, Ho.
  rewrite list_lookup_middle by done. unfold set_heap. simpl.
  by rewrite insert_middle.
Qed.

Lemma destroy_at_Ok y :
  h !! b = Some (pre ++ Obj y :: post) →
  destroy_at (Ptr (Some b) o) (State h v l)
  = Ok tt (State (<[b := pre ++ Raw :: post]> h) v
             (l ++ [EvDestroy (At (Ptr (Some b) o))])).
Proof.
  intros Hb. unfold destroy_at, read_slot, write_slot. simpl. rewrite Hb, Ho.
  rewrite list_lookup_middle by done. unfold set_heap, add_log. simpl.
  by rewrite insert_middle.
Qed.

End cell.

(** ** Loops over one block *)

Ltac list_eq :=
  repeat (progress (rewrite ?map_app, <- ?app_assoc; simpl));
  rewrite ?app_nil_r; reflexivity.
Ltac len :=
  repeat (rewrite ?length_app, ?length_map, ?length_replicate; simpl); lia.

Lemma uninitialized_value_construct_n_Ok n : ∀ h v l b o pre post,
  o = length pre →
  h !! b = Some (pre ++ replicate n Raw ++ post) →
  uninitialized_value_construct_n (Ptr (Some b) o) n (State h v l)
  = Ok tt (State (<[b := pre ++ replicate n (Obj value_initialized) ++ post]> h) v
             (l ++ events_at EvValueConstruct (Ptr (Some b) o) n)).
Proof.
  induction n as [|n IH]; intros h v l b o pre post Ho Hb.
  - simpl. unfold events_at. simpl. rewrite app_nil_r. by rewrite insert_id.
  - simpl in *. unfold value_construct_at.
    erewrite bind_Ok; [|erewrite bind_Ok; [|by eapply emplace_Ok]; apply bind_emit].
    unfold ptr_plus; simpl.
    erewrite (IH _ _ _ b (o + 1) (pre ++ [Obj value_initialized]) post);
      [|len|rewrite lookup_insert_eq; f_equal; list_eq].
    rewrite insert_insert_eq, events_at_S. do 2 f_equal; list_eq.
Qed.

Lemma destroy_n_Ok xs : ∀ h v l b o pre post,
  o = length pre →
  h !! b = Some (pre ++ map Obj xs ++ post) →
  destroy_n (Ptr (Some b) o) (length xs) (State h v l)
  = Ok tt (State (<[b := pre ++ replicate (length xs) Raw ++ post]> h) v
             (l ++ events_at destroy_event (Ptr (Some b) o) (length xs))).
Proof.
  induction xs as [|x xs IH]; intros h v l b o pre post Ho Hb.
  - simpl. unfold events_at. simpl. rewrite app_nil_r. by rewrite insert_id.
  - simpl in *. erewrite bind_Ok; [|by eapply destroy_at_Ok].
    unfold ptr_plus; simpl.
    erewrite (IH _ _ _ b (o + 1) (pre ++ [Raw]) post);
      [|len|rewrite lookup_insert_eq; f_equal; list_eq].
    rewrite insert_insert_eq, events_at_S. do 2 f_equal; list_eq.
Qed.

Lemma read_n_Ok xs : ∀ h v l b o pre post,
  o = length pre →
  h !! b = Some (pre ++ map Obj xs ++ post) →
  read_n (Ptr (Some b) o) (length xs) (State h v l) = Ok xs (State h v l).
Proof.
  induction xs as [|x xs IH]; intros h v l b o pre post Ho Hb; [done|].
  simpl in *. erewrite bind_Ok; [|by eapply load_Ok].
  unfold ptr_plus; simpl.
  erewrite bind_Ok; [done|].
  eapply (IH _ _ _ b (o + 1) (pre ++ [Obj x]) post); [len|].
  rewrite Hb. f_equal. list_eq.
Qed.

(** ** Loops from one block into another *)

(* equality of heaps built from inserts and deletes, key by key *)
Ltac heap_eq :=
  apply map_eq; intros ?;
  repeat (rewrite lookup_insert || rewrite lookup_delete);
  repeat case_decide; subst; try congruence.

Lemma insert2_collapse (h : gmap nat (list slot)) bs bd s1 s2 d1 d2 :
  bs ≠ bd →
  <[bs := s2]> (<[bd := d2]> (<[bs := s1]> (<[bd := d1]> h)))
  = <[bs := s2]> (<[bd := d2]> h).
Proof.
  intros Hne. apply map_eq. intros i.
  rewrite !lookup_insert. repeat case_decide; congruence.
Qed.

Lemma uninitialized_copy_n_Ok xs : ∀ h v l bs os spre spost bd od dpre dpost,
  bs ≠ bd → os = length spre → od = length dpre →
  h !! bs = Some (spre ++ map Obj xs ++ spost) →
  h !! bd = Some (dpre ++ replicate (length xs) Raw ++ dpost) →
  uninitialized_copy_n (Ptr (Some bs) os) (length xs) (Ptr (Some bd) od) (State h v l)
  = Ok tt (State (<[bd := dpre ++ map Obj xs ++ dpost]> h) v
             (l ++ events_at2 EvCopyConstruct (Ptr (Some bs) os) (length xs)
                     (Ptr (Some bd) od))).
Proof.
  induction xs as [|x xs IH];
    intros h v l bs os spre spost bd od dpre dpost Hne Hos Hod Hs Hd.
  - simpl. unfold events_at2. simpl. rewrite app_nil_r. by rewrite insert_id.
  - simpl in *. unfold copy_construct.
    erewrite bind_Ok;
      [|erewrite bind_Ok; [|by eapply load_Ok];
        erewrite bind_Ok; [|by eapply emplace_Ok]; apply bind_emit].
    unfold ptr_plus; simpl.
    erewrite (IH _ _ _ bs (os + 1) (spre ++ [Obj x]) spost
                bd (od + 1) (dpre ++ [Obj x]) dpost);
      [|done|len|len
       |rewrite lookup_insert_ne by done; rewrite Hs; f_equal; list_eq
       |rewrite lookup_insert_eq; f_equal; list_eq].
    rewrite insert_insert_eq, events_at2_S. do 2 f_equal; list_eq.
Qed.

Lemma uninitialized_move_n_Ok xs : ∀ h v l bs os spre spost bd od dpre dpost,
  bs ≠ bd → os = length spre → od = length dpre →
  h !! bs = Some (spre ++ map Obj xs ++ spost) →
  h !! bd = Some (dpre ++ replicate (length xs) Raw ++ dpost) →
  uninitialized_move_n (Ptr (Some bs) os) (length xs) (Ptr (Some bd) od) (State h v l)
  = Ok tt (State (<[bs := spre ++ map Obj (map moved_from xs) ++ spost]>
                    (<[bd := dpre ++ map Obj xs ++ dpost]> h)) v
             (l ++ events_at2 EvMoveConstruct (Ptr (Some bs) os) (length xs)
                     (Ptr (Some bd) od))).
Proof.
  induction xs as [|x xs IH];
    intros h v l bs os spre spost bd od dpre dpost Hne Hos Hod Hs Hd.
  - simpl. unfold events_at2. simpl. rewrite app_nil_r.
    rewrite (insert_id h bd) by done. by rewrite insert_id.
  - simpl in *. unfold move_construct.
    erewrite bind_Ok;
      [|erewrite bind_Ok; [|by eapply load_Ok];
        erewrite bind_Ok; [|by eapply emplace_Ok];
        erewrite bind_Ok;
          [|eapply store_Ok; [done|by rewrite lookup_insert_ne by done]];
        apply bind_emit].
    unfold ptr_plus; simpl.
    erewrite (IH _ _ _ bs (os + 1) (spre ++ [Obj (moved_from x)]) spost
                bd (od + 1) (dpre ++ [Obj x]) dpost);
      [|done|len|len
       |rewrite lookup_insert_eq; f_equal; list_eq
       |rewrite lookup_insert_ne, lookup_insert_eq by done; f_equal; list_eq].
    rewrite insert2_collapse by done. rewrite events_at2_S.
    do 2 f_equal; list_eq.
Qed.

Lemma TransferDataToNewHeap_Ok xs h v l bs os spre spost bd od dpre dpost :
  bs ≠ bd → os = length spre → od = length dpre →
  h !! bs = Some (spre ++ map Obj xs ++ spost) →
  h !! bd = Some (dpre ++ replicate (length xs) Raw ++ dpost) →
  TransferDataToNewHeap (Ptr (Some bs) os) (length xs) (Ptr (Some bd) od) (State h v l)
  = Ok tt (State (<[bs := spre ++ map Obj (map transferred_from xs) ++ spost]>
                    (<[bd := dpre ++ map Obj xs ++ dpost]> h)) v
             (l ++ events_at2 transfer_event (Ptr (Some bs) os) (length xs)
                     (Ptr (Some bd) od))).
Proof.
  intros Hne Hos Hod Hs Hd.
  unfold TransferDataToNewHeap, transferred_from, transfer_event.
  destruct (is_nothrow_move_constructible || negb is_copy_constructible).
  - by apply uninitialized_move_n_Ok.
  - erewrite uninitialized_copy_n_Ok by done. do 2 f_equal.
    rewrite map_id. symmetry. apply insert_id.
    by rewrite lookup_insert_ne.
Qed.

(** ** Shifts inside one block *)

Lemma left_vacated_cons y x xs :
  left_vacated y (x :: xs) = left_vacated (moved_from x) xs.
Proof. unfold left_vacated. rewrite last_cons. by destruct (last xs). Qed.

Lemma right_vacated_snoc w ys y :
  right_vacated w (ys ++ [y]) = right_vacated (moved_from y) ys.
Proof. by destruct ys. Qed.

Lemma ptr_minus_1 bk n : ptr_minus (Ptr bk (n + 1)) 1 = Some (Ptr bk n).
Proof.
  unfold ptr_minus. simpl. rewrite decide_True by lia. do 2 f_equal. lia.
Qed.

Lemma move_assign_Ok h v l b os od spre spost dpre dpost x y :
  os = length spre → od = length dpre →
  h !! b = Some (spre ++ Obj x :: spost) →
  spre ++ Obj x :: spost = dpre ++ Obj y :: dpost →
  ∀ spre' spost', dpre ++ Obj x :: dpost = spre' ++ Obj x :: spost' →
  os = length spre' →
  move_assign (Ptr (Some b) os) (Ptr (Some b) od) (State h v l)
  = Ok tt (State (<[b := spre' ++ Obj (moved_from x) :: spost']> h) v
             (l ++ [EvMoveAssign (At (Ptr (Some b) os)) (Ptr (Some b) od)])).
Proof.
  intros Hos Hod Hb Heq spre' spost' Heq' Hos'. unfold move_assign.
  erewrite bind_Ok; [|by eapply (load_Ok _ _ _ _ _ spre spost)].
  erewrite bind_Ok; [|eapply (store_Ok _ _ _ _ _ dpre dpost); [done|by rewrite <- Heq]].
  erewrite bind_Ok;
    [|eapply (store_Ok _ _ _ _ _ spre' spost'); [done|by rewrite lookup_insert_eq, Heq']].
  rewrite insert_insert_eq. apply bind_emit.
Qed.

Lemma move_n_Ok xs : ∀ h v l b o pre y post,
  o = length pre →
  h !! b = Some (pre ++ Obj y :: map Obj xs ++ post) →
  move_n (Ptr (Some b) (o + 1)) (length xs) (Ptr (Some b) o) (State h v l)
  = Ok tt (State (<[b := pre ++ map Obj xs ++ Obj (left_vacated y xs) :: post]> h) v
             (l ++ events_at2 (λ s d, EvMoveAssign (At s) d)
                     (Ptr (Some b) (o + 1)) (length xs) (Ptr (Some b) o))).
Proof.
  induction xs as [|x xs IH]; intros h v l b o pre y post Ho Hb.
  - simpl. unfold events_at2. simpl. rewrite app_nil_r. by rewrite insert_id.
  - simpl in *.
    erewrite bind_Ok;
      [|eapply (move_assign_Ok _ _ _ _ _ _ (pre ++ [Obj y]) (map Obj xs ++ post)
                  pre (Obj x :: map Obj xs ++ post) x y);
        [len|done|rewrite Hb; f_equal; list_eq|list_eq| |];
        [instantiate (1 := map Obj xs ++ post);
         instantiate (1 := pre ++ [Obj x]); list_eq|len]].
    unfold ptr_plus; simpl.
    erewrite (IH _ _ _ b (o + 1) (pre ++ [Obj x]) (moved_from x) post);
      [|len|rewrite lookup_insert_eq; f_equal; list_eq].
    rewrite insert_insert_eq, events_at2_S, left_vacated_cons.
    do 2 f_equal; list_eq.
Qed.

Lemma move_backward_n_Ok ys : ∀ h v l b o pre w post,
  o = length pre →
  h !! b = Some (pre ++ map Obj ys ++ Obj w :: post) →
  move_backward_n (Ptr (Some b) o) (length ys) (Ptr (Some b) (o + length ys + 1))
    (State h v l)
  = Ok tt (State (<[b := pre ++ Obj (right_vacated w ys) :: map Obj ys ++ post]> h) v
             (l ++ map (λ k, EvMoveAssign (At (Ptr (Some b) (o + k)))
                               (Ptr (Some b) (o + k + 1)))
                     (rev (seq 0 (length ys))))).
Proof.
  induction ys as [|y ys IH] using rev_ind; intros h v l b o pre w post Ho Hb.
  - simpl. rewrite app_nil_r. by rewrite insert_id.
  - rewrite length_app. simpl length.
    rewrite seq_app, rev_app_distr, map_app, right_vacated_snoc.
    rewrite !map_app in *. simpl in Hb. simpl map.
    replace (length ys + 1) with (S (length ys)) by lia.
    cbn [move_backward_n].
    rewrite (bind_lift_Some _ _ _ (Ptr (Some b) (o + length ys + 1)));
      [|rewrite <- ptr_minus_1; do 2 f_equal; lia].
    unfold ptr_plus; simpl.
    erewrite bind_Ok;
      [|eapply (move_assign_Ok _ _ _ _ _ _ (pre ++ map Obj ys) (Obj w :: post)
                  (pre ++ map Obj ys ++ [Obj y]) post y w);
        [len|len|rewrite Hb; f_equal; list_eq|list_eq| |];
        [instantiate (1 := Obj y :: post);
         instantiate (1 := pre ++ map Obj ys); list_eq|len]].
    erewrite (IH _ _ _ b o pre (moved_from y) (Obj y :: post));
      [|done|rewrite lookup_insert_eq; f_equal; list_eq].
    rewrite insert_insert_eq. do 2 f_equal; list_eq.
Qed.

(** ** Allocation, object store and argument evaluation *)

Lemma fresh_heap (h : gmap nat (list slot)) : h !! fresh (dom h) = None.
Proof. apply not_elem_of_dom, is_fresh. Qed.

Lemma Allocate_Ok n h v l :
  n ≠ 0 →
  Allocate n (State h v l)
  = Ok (Ptr (Some (fresh (dom h))) 0)
       (State (<[fresh (dom h) := replicate n Raw]> h) v
          (l ++ [EvAllocate (fresh (dom h)) n])).
Proof. intros Hn. unfold Allocate. by rewrite decide_True. Qed.

(* the allocation with the byte count computed in size_t is the one of the
   model as long as the byte count does not wrap *)
Lemma Allocate_exact n s :
  0 < sizeof_T → representable n → Allocate_size_t n s = Allocate n s.
Proof.
  unfold representable, Allocate_size_t, Allocate. intros Hpos Hfit.
  case_decide; [|done]. simpl.
  rewrite Z.mod_small by lia. rewrite Z.div_mul by lia. by rewrite Nat2Z.id.
Qed.

Lemma RawMemory_new_Ok n h v l :
  n ≠ 0 →
  RawMemory_new n (State h v l)
  = Ok (mkRawMemory (Ptr (Some (fresh (dom h))) 0) n)
       (State (<[fresh (dom h) := replicate n Raw]> h) v
          (l ++ [EvAllocate (fresh (dom h)) n])).
Proof.
  intros Hn. unfold RawMemory_new. erewrite bind_Ok; [|by apply Allocate_Ok]. done.
Qed.

Lemma Deallocate_Ok b bl h v l :
  h !! b = Some bl →
  Deallocate (Ptr (Some b) 0) (State h v l)
  = Ok tt (State (delete b h) v (l ++ [EvDeallocate b])).
Proof. intros Hb. unfold Deallocate. simpl. by rewrite Hb. Qed.

Lemma Deallocate_null s : Deallocate nullptr s = Ok tt s.
Proof. done. Qed.

Lemma unwinding_Ok {A} c (m : M A) s a s' :
  m s = Ok a s' → unwinding c m s = Ok a s'.
Proof. intros H. unfold unwinding. by rewrite H. Qed.

Lemma get_vec_Ok this x h v l :
  v !! this = Some x → get_vec this (State h v l) = Ok x (State h v l).
Proof. intros H. unfold get_vec. simpl. by rewrite H. Qed.

Lemma set_data_Ok this x d h v l :
  v !! this = Some x →
  set_data this d (State h v l)
  = Ok tt (State h (<[this := mkVector d (size_ x)]> v) l).
Proof.
  intros H. unfold set_data. erewrite bind_Ok; [|by apply get_vec_Ok]. done.
Qed.

Lemma set_size_Ok this x n h v l :
  v !! this = Some x →
  set_size this n (State h v l)
  = Ok tt (State h (<[this := mkVector (data_ x) n]> v) (l ++ [EvSetSize this n])).
Proof.
  intros H. unfold set_size. erewrite bind_Ok; [|by apply get_vec_Ok]. done.
Qed.

Lemma begin_Ok this x h v l :
  v !! this = Some x →
  begin_ this (State h v l) = Ok (buffer_ (data_ x)) (State h v l).
Proof.
  intros H. unfold begin_. erewrite bind_Ok; [|by apply get_vec_Ok]. done.
Qed.

Lemma end_Ok this x h v l :
  v !! this = Some x →
  end_ this (State h v l)
  = Ok (ptr_plus (buffer_ (data_ x)) (size_ x)) (State h v l).
Proof.
  intros H. unfold end_. erewrite bind_Ok; [|by apply get_vec_Ok]. done.
Qed.

Lemma eval_arg_Ok s a x : arg_yields s a x → eval_arg a s = Ok x s.
Proof.
  destruct a as [args|[y|p]|[y|p]]; simpl; intros H; try done.
  - by rewrite H.
  - by subst.
  - unfold load. by rewrite H.
  - by subst.
Qed.

Lemma arg_yields_fresh h v l a x nb nblk v' l' :
  h !! nb = None →
  arg_yields (State h v l) a x →
  arg_yields (State (<[nb := nblk]> h) v' l') a x.
Proof.
  intros Hnb. destruct a as [args|[y|p]|[y|p]]; simpl; try done.
  unfold read_slot. simpl. destruct (blk p) as [b|]; [|done].
  destruct (decide (b = nb)) as [->|Hne]; [by rewrite Hnb|].
  by rewrite lookup_insert_ne.
Qed.

Lemma construct_at_Ok h v l b o pre post a x :
  o = length pre →
  arg_yields (State h v l) a x →
  h !! b = Some (pre ++ Raw :: post) →
  construct_at (Ptr (Some b) o) a (State h v l)
  = Ok tt (State (<[b := pre ++ Obj x :: post]> h) v
             (l ++ [EvConstruct a (At (Ptr (Some b) o))])).
Proof.
  intros Ho Ha Hb. unfold construct_at.
  erewrite bind_Ok; [|by apply eval_arg_Ok].
  erewrite bind_Ok; [|by eapply emplace_Ok]. done.
Qed.

(* the shape to which the representation of a vector reduces *)
Lemma vector_is_inv h v l this xs cap buf :
  vector_is (State h v l) this xs cap buf →
  v !! this = Some (mkVector (mkRawMemory buf cap) (length xs)) ∧
  length xs ≤ cap ∧
  ((∃ b, buf = Ptr (Some b) 0 ∧
         h !! b = Some (map Obj xs ++ replicate (cap - length xs) Raw)) ∨
   (buf = nullptr ∧ xs = [] ∧ cap = 0)).
Proof.
  intros (Hv & Hle & Hblk). split; [done|]. split; [done|].
  unfold block_is in Hblk. simpl in Hblk. destruct buf as [[b|] o]; simpl in *.
  - destruct Hblk as [-> Hb]. left. by exists b.
  - destruct Hblk as [-> Hnil]. right. split; [done|].
    apply app_eq_nil in Hnil as [Hxs Hrep]. apply map_eq_nil in Hxs. subst.
    split; [done|]. simpl in Hrep. by destruct cap.
Qed.

(** ** EmplaceBack *)

Lemma map_replicate {X Y} (f : X → Y) n x :
  map f (replicate n x) = replicate n (f x).
Proof. induction n as [|n IH]; simpl; [done|by rewrite IH]. Qed.

Lemma replicate_split {X} (x : X) n k :
  k ≤ n → replicate n x = replicate k x ++ replicate (n - k) x.
Proof. intros H. rewrite <- replicate_add. f_equal. lia. Qed.

Lemma replicate_cons_minus {X} (x : X) n k :
  k < n → replicate (n - k) x = x :: replicate (n - S k) x.
Proof. intros H. replace (n - k) with (S (n - S k)) by lia. done. Qed.

Lemma EmplaceBack_fast h v l this xs cap b a x :
  v !! this = Some (mkVector (mkRawMemory (Ptr (Some b) 0) cap) (length xs)) →
  length xs < cap →
  h !! b = Some (map Obj xs ++ replicate (cap - length xs) Raw) →
  arg_yields (State h v l) a x →
  EmplaceBack this a (State h v l)
  = Ok (Ptr (Some b) (length xs))
       (State (<[b := map Obj (xs ++ [x]) ++ replicate (cap - S (length xs)) Raw]> h)
              (<[this := mkVector (mkRawMemory (Ptr (Some b) 0) cap) (S (length xs))]> v)
              (l ++ [EvConstruct a (At (Ptr (Some b) (length xs)));
                     EvSetSize this (S (length xs))])).
Proof.
  intros Hv Hlt Hb Ha. unfold EmplaceBack.
  erewrite bind_Ok; [|by apply get_vec_Ok]. simpl.
  rewrite bool_decide_eq_false_2 by lia.
  rewrite (replicate_cons_minus _ cap) in Hb by done.
  erewrite bind_Ok;
    [|eapply (construct_at_Ok _ _ _ _ _ (map Obj xs)); [len|done|done]].
  erewrite bind_Ok; [|by apply get_vec_Ok]. simpl.
  erewrite bind_Ok; [|by eapply set_size_Ok]. simpl.
  unfold RawMemory_index. simpl. rewrite bind_assert_true by by apply bool_decide_eq_true_2.
  unfold mret, M_ret, ptr_plus. simpl. do 2 f_equal; [|list_eq].
  f_equal. rewrite map_app. list_eq.
Qed.

Lemma grown_gt n : n < grown n.
Proof. unfold grown. case_bool_decide; lia. Qed.

Lemma EmplaceBack_grow h v l this xs b a x :
  v !! this = Some (mkVector (mkRawMemory (Ptr (Some b) 0) (length xs)) (length xs)) →
  h !! b = Some (map Obj xs) →
  arg_yields (State h v l) a x →
  EmplaceBack this a (State h v l)
  = Ok (Ptr (Some (fresh (dom h))) (length xs))
       (State (<[fresh (dom h) :=
                   map Obj (xs ++ [x])
                   ++ replicate (grown (length xs) - S (length xs)) Raw]> (delete b h))
              (<[this := mkVector (mkRawMemory (Ptr (Some (fresh (dom h))) 0)
                                     (grown (length xs))) (S (length xs))]> v)
              (l ++ [EvAllocate (fresh (dom h)) (grown (length xs));
                     EvConstruct a (At (Ptr (Some (fresh (dom h))) (length xs)))]
                 ++ events_at2 transfer_event (Ptr (Some b) 0) (length xs)
                      (Ptr (Some (fresh (dom h))) 0)
                 ++ events_at destroy_event (Ptr (Some b) 0) (length xs)
                 ++ [EvDeallocate b; EvSetSize this (S (length xs))])).
Proof.
  intros Hv Hb Ha. pose proof (fresh_heap h) as Hnb.
  pose proof (grown_gt (length xs)) as Hg.
  set (nb := fresh (dom h)) in *.
  assert (b ≠ nb) as Hne by (intros ->; congruence).
  unfold EmplaceBack.
  erewrite bind_Ok; [|by apply get_vec_Ok]. simpl.
  rewrite bool_decide_eq_true_2 by done. fold (grown (length xs)).
  erewrite bind_Ok; [|erewrite bind_Ok; [|apply RawMemory_new_Ok; lia]].
  2: {
    fold nb. erewrite bind_Ok; [|apply unwinding_Ok].
    2: {
      simpl.
      erewrite bind_Ok;
        [|eapply (construct_at_Ok _ _ _ _ _ (replicate (length xs) Raw)
                    (replicate (grown (length xs) - S (length xs)) Raw));
          [len|by eapply arg_yields_fresh|]].
      2: { rewrite lookup_insert_eq. f_equal.
           rewrite (replicate_split _ _ (length xs)) by lia. f_equal.
           by apply replicate_cons_minus. }
      erewrite bind_Ok;
        [|eapply (TransferDataToNewHeap_Ok xs _ _ _ b 0 [] [] nb 0 []);
          [done|done|done| |]].
      2: { rewrite lookup_insert_ne by done. rewrite lookup_insert_ne by done.
           rewrite Hb. f_equal. list_eq. }
      2: { rewrite lookup_insert_eq. simpl. reflexivity. }
      simpl.
      rewrite <- (length_map transferred_from xs) at 1.
      eapply (destroy_n_Ok _ _ _ _ b 0 [] []); [done|].
      by rewrite lookup_insert_eq. }
    simpl.
    erewrite bind_Ok; [|by eapply set_data_Ok]. simpl.
    unfold RawMemory_dtor. simpl.
    eapply Deallocate_Ok. by rewrite lookup_insert_eq. }
  erewrite bind_Ok; [|apply get_vec_Ok; by rewrite lookup_insert_eq]. simpl.
  erewrite bind_Ok; [|eapply set_size_Ok; by rewrite lookup_insert_eq]. simpl.
  unfold RawMemory_index. simpl.
  rewrite bind_assert_true by (apply bool_decide_eq_true_2; lia).
  unfold mret, M_ret, ptr_plus. simpl. f_equal. f_equal.
  - rewrite !insert_insert_eq, delete_insert_eq, delete_insert_ne by done.
    f_equal. rewrite map_app. list_eq.
  - by rewrite insert_insert_eq.
  - rewrite length_map. list_eq.
Qed.

Lemma TransferDataToNewHeap_0 p q s : TransferDataToNewHeap p 0 q s = Ok tt s.
Proof.
  unfold TransferDataToNewHeap.
  by destruct (is_nothrow_move_constructible || negb is_copy_constructible).
Qed.

Lemma EmplaceBack_null h v l this a x :
  v !! this = Some (mkVector (mkRawMemory nullptr 0) 0) →
  arg_yields (State h v l) a x →
  EmplaceBack this a (State h v l)
  = Ok (Ptr (Some (fresh (dom h))) 0)
       (State (<[fresh (dom h) := [Obj x]]> h)
              (<[this := mkVector (mkRawMemory (Ptr (Some (fresh (dom h))) 0) 1) 1]> v)
              (l ++ [EvAllocate (fresh (dom h)) 1;
                     EvConstruct a (At (Ptr (Some (fresh (dom h))) 0));
                     EvSetSize this 1])).
Proof.
  intros Hv Ha. pose proof (fresh_heap h) as Hnb.
  set (nb := fresh (dom h)) in *.
  unfold EmplaceBack.
  erewrite bind_Ok; [|by apply get_vec_Ok]. simpl.
  erewrite bind_Ok; [|erewrite bind_Ok; [|apply RawMemory_new_Ok; lia]].
  2: {
    fold nb. erewrite bind_Ok; [|apply unwinding_Ok].
    2: {
      simpl.
      erewrite bind_Ok;
        [|eapply (construct_at_Ok _ _ _ _ _ [] []);
          [done|by eapply arg_yields_fresh|by rewrite lookup_insert_eq]].
      erewrite bind_Ok; [|apply TransferDataToNewHeap_0].
      reflexivity. }
    simpl.
    erewrite bind_Ok; [|by eapply set_data_Ok]. simpl.
    unfold RawMemory_dtor. simpl. apply Deallocate_null. }
  erewrite bind_Ok; [|apply get_vec_Ok; by rewrite lookup_insert_eq]. simpl.
  erewrite bind_Ok; [|eapply set_size_Ok; by rewrite lookup_insert_eq]. simpl.
  unfold RawMemory_index. simpl.
  unfold mret, M_ret, ptr_plus. simpl. f_equal. f_equal.
  - by rewrite !insert_insert_eq.
  - by rewrite insert_insert_eq.
  - list_eq.
Qed.

Lemma EmplaceBack_Ok s this xs cap buf a x :
  vector_is s this xs cap buf →
  arg_yields s a x →
  ∃ s',
    EmplaceBack this a s
    = Ok (ptr_plus (buffer_after s buf (length xs) cap) (length xs)) s' ∧
    vector_is s' this (xs ++ [x]) (capacity_after (length xs) cap)
      (buffer_after s buf (length xs) cap) ∧
    vecs s' = <[this := mkVector (mkRawMemory (buffer_after s buf (length xs) cap)
                                    (capacity_after (length xs) cap))
                          (S (length xs))]> (vecs s) ∧
    log s' = log s ++ EmplaceBack_events this buf (length xs) cap
                        (fresh (dom (heap s))) a.
Proof.
  destruct s as [h v l]. intros Hvec Ha.
  apply vector_is_inv in Hvec as (Hv & Hle & Hbuf).
  unfold buffer_after, capacity_after, EmplaceBack_events. simpl.
  pose proof (fresh_heap h) as Hnb. pose proof (grown_gt (length xs)) as Hg.
  destruct Hbuf as [(b & -> & Hb)|(-> & -> & ->)].
  - case_bool_decide as Hcap.
    + subst cap. rewrite Nat.sub_diag, app_nil_r in Hb.
      eexists. split; [by apply EmplaceBack_grow|].
      unfold vector_is, block_is. simpl.
      rewrite !lookup_insert_eq, length_app. simpl.
      replace (length xs + 1) with (S (length xs)) by lia.
      repeat split; try done; lia.
    + eexists. split; [apply EmplaceBack_fast; try done; lia|].
      unfold vector_is, block_is, ptr_plus. simpl.
      rewrite !lookup_insert_eq, length_app. simpl.
      replace (length xs + 1) with (S (length xs)) by lia.
      repeat split; try done; lia.
  - simpl. eexists. split; [by apply EmplaceBack_null|].
    unfold vector_is, block_is, ptr_plus. simpl.
    rewrite !lookup_insert_eq. done.
Qed.

(** ** Emplace *)

Lemma ptr_distance_Ok bk o1 o2 :
  o1 ≤ o2 → ptr_distance (Ptr bk o1) (Ptr bk o2) = Some (o2 - o1).
Proof. intros H. unfold ptr_distance. simpl. by rewrite decide_True. Qed.

Lemma ptr_distance_plus p n : ptr_distance p (ptr_plus p n) = Some n.
Proof.
  destruct p as [bk o]. unfold ptr_plus. simpl.
  rewrite ptr_distance_Ok by lia. f_equal. lia.
Qed.

Lemma Emplace_end s this xs cap buf a x :
  vector_is s this xs cap buf →
  arg_yields s a x →
  ∃ s',
    Emplace this (ptr_plus buf (length xs)) a s
    = Ok (ptr_plus (buffer_after s buf (length xs) cap) (length xs)) s' ∧
    vector_is s' this (xs ++ [x]) (capacity_after (length xs) cap)
      (buffer_after s buf (length xs) cap) ∧
    log s' = log s ++ EmplaceBack_events this buf (length xs) cap
                        (fresh (dom (heap s))) a.
Proof.
  intros Hvec Ha.
  destruct (EmplaceBack_Ok _ _ _ _ _ _ _ Hvec Ha) as (s' & HE & Hvec' & _ & Hlog).
  exists s'. split; [|done].
  destruct s as [h v l]. destruct Hvec as (Hv & _). simpl in Hv.
  unfold Emplace, cbegin, cend.
  erewrite bind_Ok; [|by apply begin_Ok]. simpl.
  rewrite (bind_lift_Some _ _ _ _ (ptr_distance_plus _ _)).
  erewrite bind_Ok; [|by apply end_Ok]. simpl.
  erewrite bind_Ok; [|by apply get_vec_Ok]. simpl.
  rewrite bool_decide_eq_true_2 by done.
  erewrite bind_Ok; [|erewrite bind_Ok; [|exact HE]; reflexivity].
  destruct s' as [h' v' l']. destruct Hvec' as (Hv' & _). simpl in Hv'.
  erewrite bind_Ok; [|by apply begin_Ok]. done.
Qed.

Lemma move_construct_same_Ok h v l b o pre post z :
  o = length pre →
  h !! b = Some (pre ++ Obj z :: Raw :: post) →
  move_construct (Ptr (Some b) o) (Ptr (Some b) (o + 1)) (State h v l)
  = Ok tt (State (<[b := pre ++ Obj (moved_from z) :: Obj z :: post]> h) v
             (l ++ [EvMoveConstruct (Ptr (Some b) o) (Ptr (Some b) (o + 1))])).
Proof.
  intros Ho Hb. unfold move_construct.
  erewrite bind_Ok; [|by eapply (load_Ok _ _ _ _ _ pre)].
  erewrite bind_Ok;
    [|eapply (emplace_Ok _ _ _ _ _ (pre ++ [Obj z]) post);
      [len|rewrite Hb; f_equal; list_eq]].
  erewrite bind_Ok;
    [|eapply (store_Ok _ _ _ _ _ pre (Obj z :: post));
      [done|rewrite lookup_insert_eq; f_equal; list_eq]].
  rewrite insert_insert_eq. apply bind_emit.
Qed.

Lemma Emplace_inplace h v l this l1 m z n cap b a x :
  n = length l1 + length m + 1 →
  n < cap →
  v !! this = Some (mkVector (mkRawMemory (Ptr (Some b) 0) cap) n) →
  h !! b = Some (map Obj (l1 ++ m ++ [z]) ++ replicate (cap - n) Raw) →
  arg_yields (State h v l) a x →
  Emplace this (Ptr (Some b) (length l1)) a (State h v l)
  = Ok (Ptr (Some b) (length l1))
       (State (<[b := map Obj (l1 ++ x :: m ++ [z]) ++ replicate (cap - S n) Raw]> h)
              (<[this := mkVector (mkRawMemory (Ptr (Some b) 0) cap) (S n)]> v)
              (l ++ [EvConstruct a Local;
                     EvMoveConstruct (Ptr (Some b) (length l1 + length m))
                       (Ptr (Some b) (length l1 + length m + 1))]
                 ++ map (λ k, EvMoveAssign (At (Ptr (Some b) (length l1 + k)))
                                (Ptr (Some b) (length l1 + k + 1)))
                      (rev (seq 0 (length m)))
                 ++ [EvMoveAssign Local (Ptr (Some b) (length l1));
                     EvSetSize this (S n); EvDestroy Local])).
Proof.
  intros -> Hlt Hv Hb Ha.
  rewrite (replicate_cons_minus _ cap) in Hb by done.
  rewrite !map_app in Hb. simpl in Hb.
  unfold Emplace, cbegin, cend.
  erewrite bind_Ok; [|by apply begin_Ok]. simpl.
  rewrite (bind_lift_Some _ _ _ (length l1)) by (rewrite ptr_distance_Ok by lia; f_equal; lia).
  erewrite bind_Ok; [|by apply end_Ok]. unfold ptr_plus. simpl.
  erewrite bind_Ok; [|by apply get_vec_Ok]. simpl.
  rewrite bool_decide_eq_false_2 by (intros [=]; lia).
  rewrite bool_decide_eq_false_2 by lia.
  erewrite bind_Ok.
  2: {
    erewrite bind_Ok; [|by apply eval_arg_Ok].
    rewrite bind_emit.
    rewrite (bind_lift_Some _ _ _ _ (ptr_minus_1 _ _)).
    erewrite bind_Ok.
    2: { erewrite bind_Ok; [reflexivity|].
         eapply (move_construct_same_Ok _ _ _ _ _ (map Obj l1 ++ map Obj m));
           [len|rewrite Hb; f_equal; list_eq]. }
    unfold std_move_backward. rewrite bind_assoc.
    rewrite (bind_lift_Some _ _ _ (length m)) by (rewrite ptr_distance_Ok by lia; f_equal; lia).
    erewrite bind_Ok;
      [|eapply (move_backward_n_Ok m _ _ _ b (length l1) (map Obj l1)
                  (moved_from z) (Obj z :: replicate (cap - S (length l1 + length m + 1)) Raw));
        [len|rewrite lookup_insert_eq; f_equal; list_eq]].
    erewrite bind_Ok;
      [|eapply (store_Ok _ _ _ _ _ (map Obj l1)); [len|by rewrite lookup_insert_eq]].
    rewrite bind_emit.
    erewrite bind_Ok; [|by eapply set_size_Ok]. simpl.
    unfold emit, add_log. simpl. reflexivity. }
  erewrite bind_Ok; [|apply begin_Ok; by rewrite lookup_insert_eq]. simpl.
  unfold mret, M_ret, ptr_plus. simpl. f_equal. f_equal.
  - rewrite !insert_insert_eq. f_equal. rewrite !map_app. simpl. list_eq.
  - list_eq.
Qed.

Lemma Emplace_grow h v l this l1 l2 n b a x :
  n = length l1 + length l2 →
  l2 ≠ [] →
  v !! this = Some (mkVector (mkRawMemory (Ptr (Some b) 0) n) n) →
  h !! b = Some (map Obj (l1 ++ l2)) →
  arg_yields (State h v l) a x →
  Emplace this (Ptr (Some b) (length l1)) a (State h v l)
  = Ok (Ptr (Some (fresh (dom h))) (length l1))
       (State (<[fresh (dom h) :=
                   map Obj (l1 ++ x :: l2) ++ replicate (grown n - S n) Raw]>
                 (delete b h))
              (<[this := mkVector (mkRawMemory (Ptr (Some (fresh (dom h))) 0) (grown n))
                           (S n)]> v)
              (l ++ [EvAllocate (fresh (dom h)) (grown n);
                     EvConstruct a (At (Ptr (Some (fresh (dom h))) (length l1)))]
                 ++ events_at2 transfer_event (Ptr (Some b) 0) (length l1)
                      (Ptr (Some (fresh (dom h))) 0)
                 ++ events_at2 transfer_event (Ptr (Some b) (length l1)) (length l2)
                      (Ptr (Some (fresh (dom h))) (length l1 + 1))
                 ++ events_at destroy_event (Ptr (Some b) 0) n
                 ++ [EvSetSize this (S n); EvDeallocate b])).
Proof.
  intros -> Hl2 Hv Hb Ha. pose proof (fresh_heap h) as Hnb.
  pose proof (grown_gt (length l1 + length l2)) as Hg.
  assert (0 < length l2) as Hlen by (destruct l2; [done|simpl; lia]).
  set (n := length l1 + length l2) in *.
  set (nb := fresh (dom h)) in *.
  assert (b ≠ nb) as Hne by (intros ->; congruence).
  unfold Emplace, cbegin, cend.
  erewrite bind_Ok; [|by apply begin_Ok]. simpl.
  rewrite (bind_lift_Some _ _ _ (length l1))
    by (rewrite ptr_distance_Ok by lia; f_equal; lia).
  erewrite bind_Ok; [|by apply end_Ok]. unfold ptr_plus. simpl.
  erewrite bind_Ok; [|by apply get_vec_Ok]. simpl.
  rewrite bool_decide_eq_false_2 by (intros [=]; lia).
  rewrite bool_decide_eq_true_2 by done. fold (grown n).
  erewrite bind_Ok.
  2: {
    erewrite bind_Ok; [|apply RawMemory_new_Ok; lia]. fold nb.
    erewrite bind_Ok; [|apply unwinding_Ok].
    2: {
      simpl.
      erewrite bind_Ok;
        [|eapply (construct_at_Ok _ _ _ _ _ (replicate (length l1) Raw)
                    (replicate (length l2) Raw ++ replicate (grown n - S n) Raw));
          [len|by eapply arg_yields_fresh|]].
      2: { rewrite lookup_insert_eq. f_equal.
           rewrite (replicate_split _ (grown n) (length l1)) by lia. f_equal.
           rewrite (replicate_cons_minus _ (grown n)) by lia. f_equal.
           rewrite <- replicate_add. f_equal. lia. }
      erewrite bind_Ok;
        [|eapply (TransferDataToNewHeap_Ok l1 _ _ _ b 0 [] (map Obj l2) nb 0 []);
          [done|done|done| |]].
      2: { rewrite !lookup_insert_ne by done. rewrite Hb. f_equal. list_eq. }
      2: { rewrite lookup_insert_eq. simpl. reflexivity. }
      rewrite (bind_lift_Some _ _ _ (length l2))
        by (rewrite ptr_distance_Ok by lia; f_equal; lia).
      erewrite bind_Ok;
        [|eapply (TransferDataToNewHeap_Ok l2 _ _ _ b (length l1)
                    (map Obj (map transferred_from l1)) []
                    nb (length l1 + 1) (map Obj l1 ++ [Obj x])
                    (replicate (grown n - S n) Raw));
          [done|len|len| |]].
      2: { rewrite lookup_insert_eq. f_equal. list_eq. }
      2: { rewrite lookup_insert_ne, lookup_insert_eq by done. f_equal. list_eq. }
      replace n with (length (map transferred_from (l1 ++ l2))) at 1
        by (rewrite length_map, length_app; done).
      eapply (destroy_n_Ok _ _ _ _ b 0 [] []); [done|].
      rewrite lookup_insert_eq. f_equal. list_eq. }
    simpl.
    erewrite bind_Ok; [|by eapply set_data_Ok]. simpl.
    erewrite bind_Ok; [|eapply set_size_Ok; by rewrite lookup_insert_eq]. simpl.
    unfold RawMemory_dtor. simpl.
    eapply Deallocate_Ok. by rewrite lookup_insert_eq. }
  erewrite bind_Ok; [|apply begin_Ok; by rewrite lookup_insert_eq]. simpl.
  unfold mret, M_ret, ptr_plus. simpl. f_equal. f_equal.
  - heap_eq. f_equal. list_eq.
  - by rewrite insert_insert_eq.
  - rewrite length_map, length_app. list_eq.
Qed.

Lemma Emplace_Ok s this xs cap buf p a x :
  vector_is s this xs cap buf →
  p ≤ length xs →
  arg_yields s a x →
  ∃ s',
    Emplace this (ptr_plus buf p) a s
    = Ok (ptr_plus (buffer_after s buf (length xs) cap) p) s' ∧
    vector_is s' this (take p xs ++ x :: drop p xs) (capacity_after (length xs) cap)
      (buffer_after s buf (length xs) cap) ∧
    log s' = log s ++ Emplace_events this buf (length xs) cap
                        (fresh (dom (heap s))) p a.
Proof.
  intros Hvec Hp Ha.
  destruct (decide (p = length xs)) as [->|Hne].
  { destruct (Emplace_end _ _ _ _ _ _ _ Hvec Ha) as (s' & HE & Hvec' & Hlog).
    exists s'. rewrite take_ge, drop_ge by lia.
    unfold Emplace_events. rewrite bool_decide_eq_true_2 by done. done. }
  destruct s as [h v l].
  apply vector_is_inv in Hvec as (Hv & Hle & Hbuf).
  destruct Hbuf as [(b & -> & Hb)|(-> & -> & ->)]; [|simpl in *; lia].
  unfold buffer_after, capacity_after, Emplace_events. simpl.
  rewrite (bool_decide_eq_false_2 (p = length xs)) by done.
  pose proof (grown_gt (length xs)) as Hg.
  assert (length (take p xs) = p) as Hl1 by (rewrite length_take; lia).
  assert (length (drop p xs) = length xs - p) as Hl2 by apply length_drop.
  rewrite <- (take_drop p xs) in Hb at 1.
  set (l1 := take p xs) in *. set (l2 := drop p xs) in *.
  assert (l2 ≠ []) as Hne2 by (intros E; rewrite E in Hl2; simpl in Hl2; lia).
  unfold ptr_plus. simpl. rewrite <- Hl1.
  case_bool_decide as Hcap; simpl.
  - subst cap. rewrite Nat.sub_diag, app_nil_r in Hb.
    eexists. split; [eapply (Emplace_grow _ _ _ _ l1 l2 (length xs)); try done; lia|].
    unfold vector_is, block_is. simpl.
    rewrite !lookup_insert_eq, length_app. simpl.
    replace (length l1 + S (length l2)) with (S (length xs)) by lia.
    replace (length xs - length l1) with (length l2) by lia.
    repeat split; try done; lia.
  - destruct (exists_last Hne2) as (m & z & Hm).
    rewrite Hm in Hb, Hl2. rewrite length_app in Hl2. simpl in Hl2.
    eexists.
    split; [eapply (Emplace_inplace _ _ _ _ l1 m z (length xs) cap); try done; lia|].
    unfold vector_is, block_is. simpl.
    rewrite !lookup_insert_eq, Hm, !length_app. simpl. rewrite length_app. simpl.
    replace (length l1 + S (length m + 1)) with (S (length xs)) by lia.
    replace (length xs - 1) with (length l1 + length m) by lia.
    replace (length xs - 1 - length l1) with (length m) by lia.
    replace (length l1 + length m + 1) with (length xs) by lia.
    replace (length l1 + length m - length l1) with (length m) by lia.
    repeat split; try done; lia.
Qed.

(** ** PopBack and Erase *)

Lemma PopBack_Ok h v l this b cap n pre z post :
  n = length pre →
  v !! this = Some (mkVector (mkRawMemory (Ptr (Some b) 0) cap) (S n)) →
  h !! b = Some (pre ++ Obj z :: post) →
  PopBack this (State h v l)
  = Ok tt (State (<[b := pre ++ Raw :: post]> h)
             (<[this := mkVector (mkRawMemory (Ptr (Some b) 0) cap) n]> v)
             (l ++ [EvDestroy (At (Ptr (Some b) n)); EvSetSize this n])).
Proof.
  intros Hn Hv Hb. unfold PopBack.
  erewrite bind_Ok; [|by apply get_vec_Ok]. simpl.
  rewrite !bind_ret, Nat.sub_0_r.
  erewrite bind_Ok; [|by eapply destroy_at_Ok].
  erewrite set_size_Ok by done. simpl.
  do 2 f_equal. list_eq.
Qed.

Lemma Erase_middle h v l this l1 z l2 n cap b :
  S n = length l1 + 1 + length l2 →
  S n ≤ cap →
  v !! this = Some (mkVector (mkRawMemory (Ptr (Some b) 0) cap) (S n)) →
  h !! b = Some (map Obj (l1 ++ z :: l2) ++ replicate (cap - S n) Raw) →
  Erase this (Ptr (Some b) (length l1)) (State h v l)
  = Ok (Ptr (Some b) (length l1))
       (State (<[b := map Obj (l1 ++ l2) ++ replicate (cap - n) Raw]> h)
              (<[this := mkVector (mkRawMemory (Ptr (Some b) 0) cap) n]> v)
              (l ++ events_at2 (λ src dst, EvMoveAssign (At src) dst)
                      (Ptr (Some b) (length l1 + 1)) (length l2)
                      (Ptr (Some b) (length l1))
                 ++ [EvDestroy (At (Ptr (Some b) n)); EvSetSize this n])).
Proof.
  intros Hn Hle Hv Hb. unfold Erase, cbegin, cend.
  erewrite bind_Ok; [|by apply end_Ok]. unfold ptr_plus. simpl.
  rewrite bool_decide_eq_false_2 by (intros [=]; lia).
  erewrite bind_Ok; [|by apply begin_Ok]. simpl.
  rewrite (bind_lift_Some _ _ _ (length l1))
    by (rewrite ptr_distance_Ok by lia; f_equal; lia).
  erewrite bind_Ok; [|by apply end_Ok]. unfold ptr_plus. simpl.
  unfold std_move. rewrite bind_assoc.
  rewrite (bind_lift_Some _ _ _ (length l2))
    by (rewrite ptr_distance_Ok by lia; f_equal; lia).
  erewrite bind_Ok;
    [|eapply (move_n_Ok l2 _ _ _ b (length l1) (map Obj l1) z
                (replicate (cap - S n) Raw));
      [len|rewrite Hb; f_equal; list_eq]].
  erewrite bind_Ok;
    [|eapply (PopBack_Ok _ _ _ _ _ _ n (map Obj l1 ++ map Obj l2));
      [len|done|rewrite lookup_insert_eq; f_equal; list_eq]].
  erewrite bind_Ok; [|apply begin_Ok; by rewrite lookup_insert_eq]. simpl.
  unfold mret, M_ret. do 2 f_equal; [|list_eq].
  rewrite insert_insert_eq. f_equal.
  rewrite (replicate_cons_minus _ cap n) by done. list_eq.
Qed.

Lemma Erase_Ok s this xs cap buf p :
  vector_is s this xs cap buf →
  p < length xs →
  ∃ s',
    Erase this (ptr_plus buf p) s = Ok (ptr_plus buf p) s' ∧
    vector_is s' this (take p xs ++ drop (S p) xs) cap buf ∧
    log s' = log s ++ Erase_events this buf (length xs) p.
Proof.
  destruct s as [h v l]. intros Hvec Hp.
  apply vector_is_inv in Hvec as (Hv & Hle & Hbuf).
  destruct Hbuf as [(b & -> & Hb)|(-> & -> & ->)]; [|simpl in *; lia].
  destruct (lookup_lt_is_Some_2 xs p Hp) as [z Hz].
  pose proof (take_drop_middle _ _ _ Hz) as Hsplit.
  assert (length (take p xs) = p) as Hl1 by (rewrite length_take; lia).
  assert (length (drop (S p) xs) = length xs - S p) as Hl2 by apply length_drop.
  set (l1 := take p xs) in *. set (l2 := drop (S p) xs) in *.
  destruct (length xs) as [|n] eqn:Hn; [lia|].
  rewrite <- Hsplit in Hb.
  unfold Erase_events, ptr_plus. rewrite <- Hl1.
  replace (S n - length l1 - 1) with (length l2) by lia.
  simpl. rewrite Nat.sub_0_r.
  eexists. split; [eapply (Erase_middle _ _ _ _ l1 z l2 n cap); try done; lia|].
  unfold vector_is, block_is. simpl.
  rewrite !lookup_insert_eq, length_app.
  replace (length l1 + length l2) with n by lia.
  repeat split; try done; lia.
Qed.

(** ** Traversal *)

Lemma traverse_Ok s this xs cap buf :
  vector_is s this xs cap buf → traverse this s = Ok xs s.
Proof.
  destruct s as [h v l]. intros Hvec.
  apply vector_is_inv in Hvec as (Hv & Hle & Hbuf).
  unfold traverse.
  erewrite bind_Ok; [|by apply begin_Ok].
  erewrite bind_Ok; [|by apply end_Ok]. simpl.
  rewrite (bind_lift_Some _ _ _ _ (ptr_distance_plus _ _)).
  destruct Hbuf as [(b & -> & Hb)|(-> & -> & ->)]; [|done].
  by eapply (read_n_Ok _ _ _ _ _ _ []).
Qed.

(** ** Reserve and Resize *)

Lemma Reserve_grow h v l this xs cap b new_capacity :
  cap < new_capacity →
  length xs ≤ cap →
  v !! this = Some (mkVector (mkRawMemory (Ptr (Some b) 0) cap) (length xs)) →
  h !! b = Some (map Obj xs ++ replicate (cap - length xs) Raw) →
  Reserve this new_capacity (State h v l)
  = Ok tt
       (State (<[fresh (dom h) :=
                   map Obj xs ++ replicate (new_capacity - length xs) Raw]> (delete b h))
              (<[this := mkVector (mkRawMemory (Ptr (Some (fresh (dom h))) 0)
                                     new_capacity) (length xs)]> v)
              (l ++ [EvAllocate (fresh (dom h)) new_capacity]
                 ++ events_at2 transfer_event (Ptr (Some b) 0) (length xs)
                      (Ptr (Some (fresh (dom h))) 0)
                 ++ events_at destroy_event (Ptr (Some b) 0) (length xs)
                 ++ [EvDeallocate b])).
Proof.
  intros Hlt Hle Hv Hb. pose proof (fresh_heap h) as Hnb.
  set (nb := fresh (dom h)) in *.
  assert (b ≠ nb) as Hne by (intros ->; congruence).
  unfold Reserve.
  erewrite bind_Ok; [|by apply get_vec_Ok]. simpl.
  rewrite bool_decide_eq_false_2 by lia.
  erewrite bind_Ok; [|apply RawMemory_new_Ok; lia]. fold nb. simpl.
  erewrite bind_Ok;
    [|eapply (TransferDataToNewHeap_Ok xs _ _ _ b 0 [] (replicate (cap - length xs) Raw)
                nb 0 [] (replicate (new_capacity - length xs) Raw));
      [done|done|done| |]].
  2: { by rewrite lookup_insert_ne by done. }
  2: { rewrite lookup_insert_eq. f_equal. simpl. apply replicate_split. lia. }
  rewrite <- (length_map transferred_from xs) at 1.
  erewrite bind_Ok;
    [|eapply (destroy_n_Ok _ _ _ _ b 0 []); [done|by rewrite lookup_insert_eq]].
  erewrite bind_Ok; [|by eapply set_data_Ok]. simpl.
  unfold RawMemory_dtor. simpl.
  erewrite Deallocate_Ok by by rewrite lookup_insert_eq.
  f_equal. f_equal.
  - heap_eq.
  - rewrite length_map. list_eq.
Qed.

Lemma Reserve_null h v l this new_capacity :
  0 < new_capacity →
  v !! this = Some (mkVector (mkRawMemory nullptr 0) 0) →
  Reserve this new_capacity (State h v l)
  = Ok tt
       (State (<[fresh (dom h) := replicate new_capacity Raw]> h)
              (<[this := mkVector (mkRawMemory (Ptr (Some (fresh (dom h))) 0)
                                     new_capacity) 0]> v)
              (l ++ [EvAllocate (fresh (dom h)) new_capacity])).
Proof.
  intros Hlt Hv. unfold Reserve.
  erewrite bind_Ok; [|by apply get_vec_Ok]. simpl.
  rewrite bool_decide_eq_false_2 by lia.
  erewrite bind_Ok; [|apply RawMemory_new_Ok; lia]. simpl.
  erewrite bind_Ok; [|apply TransferDataToNewHeap_0].
  rewrite bind_ret.
  erewrite bind_Ok; [|by eapply set_data_Ok]. simpl. done.
Qed.

Lemma Reserve_Ok s this xs cap buf new_capacity :
  vector_is s this xs cap buf →
  ∃ s',
    Reserve this new_capacity s = Ok tt s' ∧
    vector_is s' this xs (cap `max` new_capacity)
      (buffer_reserved s buf cap new_capacity) ∧
    log s' = log s ++ Reserve_events buf (length xs) cap (fresh (dom (heap s)))
                        new_capacity.
Proof.
  destruct s as [h v l]. intros Hvec.
  unfold Reserve_events, buffer_reserved. simpl.
  case_bool_decide as Hcap.
  - exists (State h v l). rewrite Nat.max_l by done. rewrite app_nil_r.
    split; [|done]. destruct Hvec as (Hv & _). simpl in Hv.
    unfold Reserve. erewrite bind_Ok; [|by apply get_vec_Ok]. simpl.
    by rewrite bool_decide_eq_true_2.
  - rewrite Nat.max_r by lia.
    apply vector_is_inv in Hvec as (Hv & Hle & Hbuf).
    pose proof (fresh_heap h) as Hnb.
    destruct Hbuf as [(b & -> & Hb)|(-> & -> & ->)].
    + eexists. split; [eapply (Reserve_grow _ _ _ _ _ cap); try done; lia|].
      unfold vector_is, block_is. simpl. rewrite !lookup_insert_eq.
      repeat split; try done; lia.
    + eexists. split; [apply Reserve_null; try done; lia|].
      unfold vector_is, block_is. simpl. rewrite !lookup_insert_eq.
      rewrite Nat.sub_0_r. repeat split; try done; lia.
Qed.



(** ** Sequences of push_back, insert and erase *)

Lemma Vector_default_Ok h v l :
  Vector_default (State h v l)
  = Ok (fresh (dom v))
       (State h (<[fresh (dom v) := mkVector RawMemory_default 0]> v) l).
Proof. done. Qed.

Lemma vector_is_default h v l :
  vector_is (State h (<[fresh (dom v) := mkVector RawMemory_default 0]> v) l)
    (fresh (dom v)) [] 0 nullptr.
Proof. unfold vector_is, block_is. simpl. by rewrite lookup_insert_eq. Qed.

Lemma run_op_Ok s this xs cap buf o :
  vector_is s this xs cap buf →
  valid_op xs o = true →
  ∃ s' cap' buf',
    run_op this o s = Ok tt s' ∧ vector_is s' this (ref_op xs o) cap' buf'.
Proof.
  intros Hvec Hvalid. destruct o as [x|p x|p]; simpl in *.
  - destruct (EmplaceBack_Ok s this xs cap buf (CopyOf (Outside x)) x Hvec)
      as (s' & HE & Hvec' & _); [done|].
    eexists s', _, _. split; [|exact Hvec'].
    unfold PushBack. erewrite bind_Ok; [|exact HE]. done.
  - apply Nat.leb_le in Hvalid.
    destruct (Emplace_Ok s this xs cap buf p (CopyOf (Outside x)) x Hvec)
      as (s' & HE & Hvec' & _); [done|done|].
    eexists s', _, _. split; [|exact Hvec'].
    destruct s as [h v l]. destruct Hvec as (Hv & _). simpl in Hv.
    erewrite bind_Ok; [|by apply begin_Ok]. simpl.
    unfold Insert. erewrite bind_Ok; [|exact HE]. done.
  - apply Nat.ltb_lt in Hvalid.
    destruct (Erase_Ok s this xs cap buf p Hvec) as (s' & HE & Hvec' & _); [done|].
    eexists s', _, _. split; [|exact Hvec'].
    destruct s as [h v l]. destruct Hvec as (Hv & _). simpl in Hv.
    erewrite bind_Ok; [|by apply begin_Ok]. simpl.
    erewrite bind_Ok; [|exact HE]. done.
Qed.

Lemma run_ops_Ok os : ∀ s this xs cap buf,
  vector_is s this xs cap buf →
  valid_ops xs os = true →
  ∃ s' cap' buf',
    run_ops this os s = Ok tt s' ∧ vector_is s' this (ref_ops xs os) cap' buf'.
Proof.
  induction os as [|o os IH]; intros s this xs cap buf Hvec Hvalid.
  - by exists s, cap, buf.
  - simpl in Hvalid. apply andb_prop in Hvalid as [Ho Hos].
    destruct (run_op_Ok _ _ _ _ _ _ Hvec Ho) as (s1 & cap1 & buf1 & H1 & Hvec1).
    destruct (IH _ _ _ _ _ Hvec1 Hos) as (s' & cap' & buf' & H' & Hvec').
    exists s', cap', buf'. split; [|exact Hvec'].
    simpl. erewrite bind_Ok; [|exact H1]. exact H'.
Qed.

(** C1.  Starting from an empty vector, any sequence of push_back, insert at
    an offset in [0, size] and erase at an offset in [0, size) runs to
    completion, and the forward traversal from begin() to end() then reads
    exactly the list obtained by applying append, insert-at and remove-at to
    the empty reference list in the same order. *)
Theorem traversal_matches_reference (os : list op) (s : state) :
  valid_ops [] os = true →
  ∃ s',
    (this ← Vector_default; run_ops this os;; traverse this) s
    = Ok (ref_ops [] os) s'.
Proof.
  intros Hvalid. destruct s as [h v l].
  destruct (run_ops_Ok os _ _ _ _ _ (vector_is_default h v l) Hvalid)
    as (s' & cap' & buf' & Hrun & Hvec').
  exists s'. erewrite bind_Ok; [|apply Vector_default_Ok].
  erewrite bind_Ok; [|exact Hrun].
  by eapply traverse_Ok.
Qed.

(** ** Size and capacity under push_back *)

Lemma doubling_inv_step k c :
  doubling_inv k c → doubling_inv (S k) (capacity_after k c).
Proof.
  unfold capacity_after, grown. intros [[-> ->]|(j & -> & Hle & Hlt)]; right.
  - exists 0. simpl. lia.
  - case_bool_decide as Hfull.
    + rewrite bool_decide_eq_false_2 by lia.
      exists (S j). rewrite Nat.pow_succ_r'. lia.
    + exists j. lia.
Qed.

Lemma doubling_inv_least k c :
  0 < k → doubling_inv k c → least_pow2_ge c k.
Proof.
  intros Hk [[-> _]|(j & -> & Hle & Hlt)]; [lia|].
  split; [by exists j|]. split; [done|]. intros i Hi.
  destruct (decide (j ≤ i)) as [Hji|Hji].
  - apply Nat.pow_le_mono_r; lia.
  - destruct j as [|j]; [lia|]. rewrite Nat.pow_succ_r' in Hlt.
    assert (2 ^ i ≤ 2 ^ j) by (apply Nat.pow_le_mono_r; lia). lia.
Qed.

Lemma Size_Ok s this xs cap buf :
  vector_is s this xs cap buf → Size this s = Ok (length xs) s.
Proof.
  destruct s as [h v l]. intros (Hv & _). simpl in Hv.
  unfold Size. erewrite bind_Ok; [|by apply get_vec_Ok]. done.
Qed.

Lemma Capacity_Ok s this xs cap buf :
  vector_is s this xs cap buf → Capacity this s = Ok cap s.
Proof.
  destruct s as [h v l]. intros (Hv & _). simpl in Hv.
  unfold Capacity. erewrite bind_Ok; [|by apply get_vec_Ok]. done.
Qed.

Lemma push_all_Ok ys : ∀ s this xs cap buf,
  vector_is s this xs cap buf →
  doubling_inv (length xs) cap →
  ∃ s' cap' buf',
    run_ops this (map OpPushBack ys) s = Ok tt s' ∧
    vector_is s' this (xs ++ ys) cap' buf' ∧
    doubling_inv (length (xs ++ ys)) cap'.
Proof.
  induction ys as [|y ys IH]; intros s this xs cap buf Hvec Hinv.
  - exists s, cap, buf. by rewrite app_nil_r.
  - destruct (EmplaceBack_Ok s this xs cap buf (CopyOf (Outside y)) y Hvec)
      as (s1 & HE & Hvec1 & _); [done|].
    apply doubling_inv_step in Hinv.
    replace (S (length xs)) with (length (xs ++ [y])) in Hinv by len.
    destruct (IH _ _ _ _ _ Hvec1 Hinv) as (s' & cap' & buf' & H' & Hvec' & Hinv').
    rewrite <- app_assoc in Hvec', Hinv'.
    exists s', cap', buf'. split; [|done].
    simpl. unfold PushBack. rewrite bind_assoc.
    erewrite bind_Ok; [|exact HE]. exact H'.
Qed.

(** C3.  After pushing back the elements of any list onto an initially empty
    vector, Size() is the number of calls, and Capacity() is 0 if there was
    no call and otherwise the least power of two that is at least the size
    (so in particular not less than the size). *)
Theorem push_back_size_capacity (xs : list T) (s : state) :
  ∃ this s' c,
    (this ← Vector_default; run_ops this (map OpPushBack xs);; mret this) s
    = Ok this s' ∧
    Size this s' = Ok (length xs) s' ∧
    Capacity this s' = Ok c s' ∧
    match length xs with
    | 0 => c = 0
    | S _ => least_pow2_ge c (length xs)
    end.
Proof.
  destruct s as [h v l].
  destruct (push_all_Ok xs _ _ _ _ _ (vector_is_default h v l))
    as (s' & c & buf' & Hrun & Hvec' & Hinv'); [by left|].
  simpl in *. exists (fresh (dom v)), s', c. split; [|split; [|split]].
  - erewrite bind_Ok; [|apply Vector_default_Ok].
    erewrite bind_Ok; [|exact Hrun]. done.
  - by eapply Size_Ok.
  - by eapply Capacity_Ok.
  - destruct (length xs) as [|k] eqn:Hk.
    + destruct Hinv' as [[_ ->]|(j & -> & Hle & Hlt)]; [done|lia].
    + apply doubling_inv_least; [lia|done].
Qed.

(** ** Insert followed by Erase *)

Lemma take_drop_insert_erase {X} (xs : list X) p x :
  p ≤ length xs →
  take p (take p xs ++ x :: drop p xs) ++ drop (S p) (take p xs ++ x :: drop p xs)
  = xs.
Proof.
  intros Hp.
  assert (length (take p xs) = p) as Hl by (rewrite length_take; lia).
  rewrite take_app_length' by done.
  rewrite (cons_middle x), app_assoc.
  rewrite drop_app_length' by (rewrite length_app; simpl; lia).
  apply take_drop.
Qed.

(** C6.  For a vector holding [xs] and any offset p in [0, size], inserting
    x at begin() + p and then erasing at the iterator the insertion returned
    succeeds, and the vector then holds [xs] again: same elements, same
    order, same size. *)
Theorem erase_after_insert (s : state) (this : nat) (xs : list T) (cap : nat)
    (buf : ptr) (p : nat) (x : T) :
  vector_is s this xs cap buf →
  p ≤ length xs →
  ∃ s',
    (first ← begin_ this;
     it ← Insert this (ptr_plus first p) (Outside x);
     Erase this it;;
     traverse this) s = Ok xs s' ∧
    Size this s' = Ok (length xs) s'.
Proof.
  intros Hvec Hp.
  destruct (Emplace_Ok s this xs cap buf p (CopyOf (Outside x)) x Hvec)
    as (s1 & HE & Hvec1 & _); [done|done|].
  destruct (Erase_Ok s1 this _ _ _ p Hvec1) as (s' & HR & Hvec' & _);
    [rewrite length_app, length_take; simpl; lia|].
  rewrite take_drop_insert_erase in Hvec' by done.
  exists s'. split; [|by eapply Size_Ok].
  destruct s as [h v l]. pose proof Hvec as (Hv & _). simpl in Hv.
  erewrite bind_Ok; [|by apply begin_Ok]. simpl.
  unfold Insert. erewrite bind_Ok; [|exact HE].
  erewrite bind_Ok; [|exact HR].
  by eapply traverse_Ok.
Qed.

(** ** A throwing constructor in the growth path of EmplaceBack *)

Lemma unwinding_Throw {A} c (m : M A) s s1 s2 :
  m s = Throw s1 → c s1 = Ok tt s2 → unwinding c m s = Throw s2.
Proof. intros Hm Hc. unfold unwinding. by rewrite Hm, Hc. Qed.

(** C2.  When the vector is full (size = capacity) and the constructor of the
    new element throws, EmplaceBack exits by that exception and leaves the
    object store and the heap exactly as they were: same size, same capacity,
    same buffer, same elements.  The only events are the allocation of the
    new buffer and its release during unwinding: no existing element has
    been transferred or destroyed. *)
Theorem EmplaceBack_throw_unchanged (s : state) (this : nat) (xs : list T)
    (cap : nat) (buf : ptr) (args : Args) :
  vector_is s this xs cap buf →
  length xs = cap →
  construct args = None →
  ∃ s',
    EmplaceBack this (Make args) s = Throw s' ∧
    vecs s' = vecs s ∧
    heap s' = heap s ∧
    vector_is s' this xs cap buf ∧
    log s' = log s ++ [EvAllocate (fresh (dom (heap s))) (grown (length xs));
                       EvDeallocate (fresh (dom (heap s)))].
Proof.
  destruct s as [h v l]. intros Hvec Hfull Hthrow. pose proof Hvec as (Hv & _).
  simpl in Hv. pose proof (fresh_heap h) as Hnb.
  pose proof (grown_gt (length xs)) as Hg.
  eexists. split.
  - unfold EmplaceBack.
    erewrite bind_Ok; [|by apply get_vec_Ok]. simpl.
    rewrite bool_decide_eq_true_2 by done. fold (grown (length xs)).
    apply bind_Throw.
    erewrite bind_Ok; [|apply RawMemory_new_Ok; lia].
    apply bind_Throw. eapply unwinding_Throw.
    + apply bind_Throw. unfold construct_at. apply bind_Throw.
      simpl. rewrite Hthrow. reflexivity.
    + unfold RawMemory_dtor. simpl. eapply Deallocate_Ok.
      by rewrite lookup_insert_eq.
  - simpl. rewrite delete_insert_id by done.
    split; [done|]. split; [done|]. split; [|list_eq].
    destruct Hvec as (? & ? & ?). done.
Qed.

(** ** Resize *)


(** ** The iterator-returning operator+ *)

(** C9.  For every vector and every n, [v + n] evaluates exactly as end():
    it returns data + size.  It is the address at offset n from begin()
    only when n happens to be the size. *)
Theorem Vector_plus_ignores_argument (s : state) (this : nat) (v : Vector)
    (n : nat) :
  vecs s !! this = Some v →
  Vector_plus this n s = end_ this s ∧
  Vector_plus this n s = Ok (ptr_plus (buffer_ (data_ v)) (size_ v)) s ∧
  (Vector_plus this n s = (first ← begin_ this; mret (ptr_plus first n)) s
   ↔ n = size_ v).
Proof.
  destruct s as [h vs l]. intros Hv. split; [done|].
  unfold Vector_plus.
  erewrite bind_Ok; [|by apply get_vec_Ok].
  erewrite (bind_Ok (begin_ this)); [|by apply begin_Ok].
  split; [done|]. unfold mret, M_ret, ptr_plus, GetAddress. split.
  - intros [= H]. lia.
  - by intros ->.
Qed.

(** ** Inserting an element of the vector into itself *)

Lemma arg_yields_self h v l b xs post i y :
  h !! b = Some (map Obj xs ++ post) →
  xs !! i = Some y →
  arg_yields (State h v l) (CopyOf (Inside (Ptr (Some b) i))) y.
Proof.
  intros Hb Hi. simpl. unfold read_slot. simpl. rewrite Hb.
  apply lookup_app_l_Some. rewrite list_lookup_fmap_Some. eauto.
Qed.

(** C10.  In the path of Emplace that shifts in place (the position is
    before end() and the buffer is not full), inserting a copy of the
    element v[i] of the vector itself inserts the value v[i] held before the
    call: the first event is the construction of the local temporary from
    v[i]; the relocation of the last element, the backward shift and the
    move assignment from the temporary follow. *)
Theorem Insert_own_element (s : state) (this : nat) (xs : list T) (cap : nat)
    (buf : ptr) (p i : nat) (y : T) :
  vector_is s this xs cap buf →
  p < length xs →
  length xs < cap →
  xs !! i = Some y →
  ∃ s',
    (first ← begin_ this;
     Insert this (ptr_plus first p) (Inside (ptr_plus first i))) s
    = Ok (ptr_plus buf p) s' ∧
    vector_is s' this (take p xs ++ y :: drop p xs) cap buf ∧
    log s' = log s
             ++ [EvConstruct (CopyOf (Inside (ptr_plus buf i))) Local;
                 EvMoveConstruct (ptr_plus buf (length xs - 1))
                   (ptr_plus buf (length xs))]
             ++ map (λ k, EvMoveAssign (At (ptr_plus buf (p + k)))
                            (ptr_plus buf (p + k + 1)))
                  (rev (seq 0 (length xs - 1 - p)))
             ++ [EvMoveAssign Local (ptr_plus buf p);
                 EvSetSize this (S (length xs)); EvDestroy Local].
Proof.
  intros Hvec Hp Hcap Hi.
  assert (arg_yields s (CopyOf (Inside (ptr_plus buf i))) y) as Ha.
  { destruct s as [h v l]. apply vector_is_inv in Hvec as (_ & _ & Hbuf).
    destruct Hbuf as [(b & -> & Hb)|(-> & -> & ->)]; [|done].
    by eapply arg_yields_self. }
  destruct (Emplace_Ok s this xs cap buf p (CopyOf (Inside (ptr_plus buf i))) y Hvec)
    as (s' & HE & Hvec' & Hlog); [lia|done|].
  unfold buffer_after, capacity_after, Emplace_events in *.
  rewrite (bool_decide_eq_false_2 (length xs = cap)) in * by lia.
  rewrite (bool_decide_eq_false_2 (p = length xs)) in * by lia.
  exists s'. split; [|done].
  destruct s as [h v l]. destruct Hvec as (Hv & _). simpl in Hv.
  erewrite bind_Ok; [|by apply begin_Ok]. done.
Qed.

(** ** The transfer policy *)

Lemma transfers_app evs1 evs2 :
  transfers (evs1 ++ evs2) = transfers evs1 ++ transfers evs2.
Proof.
  induction evs1 as [|e evs1 IH]; [done|].
  destruct e; simpl; by rewrite ?IH.
Qed.

Lemma transfers_cons e evs : transfers (e :: evs) = transfers [e] ++ transfers evs.
Proof. apply (transfers_app [e] evs). Qed.

Lemma transfers_events_at f p n :
  (∀ q, transfers [f q] = []) → transfers (events_at f p n) = [].
Proof.
  intros Hf. unfold events_at. induction (seq 0 n) as [|i l IH]; [done|].
  rewrite map_cons. by rewrite transfers_cons, Hf, IH.
Qed.

Lemma transfers_transfer_events src n dst :
  transfers (events_at2 transfer_event src n dst)
  = map (λ i, (is_nothrow_move_constructible || negb is_copy_constructible,
               ptr_plus src i, ptr_plus dst i)) (seq 0 n).
Proof.
  unfold events_at2, transfer_event. induction (seq 0 n) as [|i l IH]; [done|].
  simpl. destruct (is_nothrow_move_constructible || negb is_copy_constructible);
    simpl; by rewrite IH.
Qed.

Lemma map_seq_add {X} (f : nat → X) p m : ∀ k,
  map f (seq (p + k) m) = map (λ j, f (p + j)) (seq k m).
Proof.
  induction m as [|m IH]; intros k; [done|]. simpl. f_equal.
  rewrite <- IH. do 2 f_equal. lia.
Qed.

Lemma seq_split_map {X} (f g1 g2 : nat → X) p n :
  p ≤ n →
  (∀ i, i < p → f i = g1 i) →
  (∀ j, p + j < n → f (p + j) = g2 j) →
  map f (seq 0 n) = map g1 (seq 0 p) ++ map g2 (seq 0 (n - p)).
Proof.
  intros Hp H1 H2. replace n with (p + (n - p)) at 1 by lia.
  rewrite seq_app, map_app. f_equal.
  - apply map_ext_in. intros i Hi. apply in_seq in Hi. apply H1. lia.
  - simpl. rewrite <- (Nat.add_0_r p) at 1. rewrite map_seq_add.
    apply map_ext_in. intros j Hj. apply in_seq in Hj. apply H2. lia.
Qed.

(* An argument that is moved from an object in storage changes that
   object: the reallocating paths for any argument whose evaluation
   returns. *)

Lemma eval_arg_state a h v l x s0 :
  eval_arg a (State h v l) = Ok x s0 → vecs s0 = v ∧ log s0 = l.
Proof.
  destruct a as [args|[y|p]|[y|p]]; simpl.
  - destruct (construct args); [|done]. by intros [= _ <-].
  - by intros [= _ <-].
  - unfold load. destruct (read_slot _ _) as [[|z]|]; try done. by intros [= _ <-].
  - by intros [= _ <-].
  - unfold mbind, M_bind, load, store.
    destruct (read_slot p _) as [[|z]|] eqn:Hr; try done. rewrite Hr.
    unfold write_slot. destruct (blk p) as [b|]; [|by intros [= _ <-]].
    simpl. destruct (h !! b); by intros [= _ <-].
Qed.

Lemma eval_arg_frame a h v l x h0 nb nblk v' l' :
  h !! nb = None →
  eval_arg a (State h v l) = Ok x (State h0 v l) →
  eval_arg a (State (<[nb := nblk]> h) v' l')
  = Ok x (State (<[nb := nblk]> h0) v' l') ∧
  h0 !! nb = None.
Proof.
  intros Hnb. destruct a as [args|[y|p]|[y|p]]; simpl.
  - destruct (construct args); [|done]. by intros [= <- <-].
  - by intros [= <- <-].
  - unfold load, read_slot. simpl. destruct (blk p) as [b|]; [|done].
    destruct (decide (b = nb)) as [->|Hne]; [by rewrite Hnb|].
    rewrite lookup_insert_ne by done.
    destruct (h !! b) as [bl|]; [|done].
    destruct (bl !! off p) as [[|z]|]; try done. by intros [= <- <-].
  - by intros [= <- <-].
  - unfold mbind, M_bind, load, store, read_slot, write_slot. simpl.
    destruct (blk p) as [b|]; [|done].
    destruct (decide (b = nb)) as [->|Hne]; [by rewrite Hnb|].
    rewrite lookup_insert_ne by done.
    destruct (h !! b) as [bl|] eqn:Hb; [|done].
    destruct (bl !! off p) as [[|z]|] eqn:Hz; try done. simpl.
    rewrite ?Hb, ?lookup_insert_ne by done. rewrite ?Hb, ?Hz. simpl.
    intros [= <- <-]. rewrite lookup_insert_ne by done. split; [|done].
    unfold set_heap. simpl. do 2 f_equal. heap_eq.
Qed.

Lemma construct_at_evaluated h v l b o pre post a x h0 :
  o = length pre →
  eval_arg a (State h v l) = Ok x (State h0 v l) →
  h0 !! b = Some (pre ++ Raw :: post) →
  construct_at (Ptr (Some b) o) a (State h v l)
  = Ok tt (State (<[b := pre ++ Obj x :: post]> h0) v
             (l ++ [EvConstruct a (At (Ptr (Some b) o))])).
Proof.
  intros Ho Ha Hb. unfold construct_at.
  erewrite bind_Ok; [|exact Ha].
  erewrite bind_Ok; [|by eapply emplace_Ok]. done.
Qed.

Lemma EmplaceBack_grow_evaluated h v l this xs b a x h0 :
  v !! this = Some (mkVector (mkRawMemory (Ptr (Some b) 0) (length xs)) (length xs)) →
  eval_arg a (State h v l) = Ok x (State h0 v l) →
  h0 !! b = Some (map Obj xs) →
  EmplaceBack this a (State h v l)
  = Ok (Ptr (Some (fresh (dom h))) (length xs))
       (State (<[fresh (dom h) :=
                   map Obj (xs ++ [x])
                   ++ replicate (grown (length xs) - S (length xs)) Raw]> (delete b h0))
              (<[this := mkVector (mkRawMemory (Ptr (Some (fresh (dom h))) 0)
                                     (grown (length xs))) (S (length xs))]> v)
              (l ++ [EvAllocate (fresh (dom h)) (grown (length xs));
                     EvConstruct a (At (Ptr (Some (fresh (dom h))) (length xs)))]
                 ++ events_at2 transfer_event (Ptr (Some b) 0) (length xs)
                      (Ptr (Some (fresh (dom h))) 0)
                 ++ events_at destroy_event (Ptr (Some b) 0) (length xs)
                 ++ [EvDeallocate b; EvSetSize this (S (length xs))])).
Proof.
  intros Hv Ha Hb. pose proof (fresh_heap h) as Hnb.
  pose proof (grown_gt (length xs)) as Hg.
  set (nb := fresh (dom h)) in *.
  destruct (eval_arg_frame a h v l x h0 nb (replicate (grown (length xs)) Raw) v
              (l ++ [EvAllocate nb (grown (length xs))]) Hnb Ha) as [Ha' Hnb0].
  assert (b ≠ nb) as Hne by (intros ->; congruence).
  unfold EmplaceBack.
  erewrite bind_Ok; [|by apply get_vec_Ok]. simpl.
  rewrite bool_decide_eq_true_2 by done. fold (grown (length xs)).
  erewrite bind_Ok; [|erewrite bind_Ok; [|apply RawMemory_new_Ok; lia]].
  2: {
    fold nb. erewrite bind_Ok; [|apply unwinding_Ok].
    2: {
      simpl.
      erewrite bind_Ok;
        [|eapply (construct_at_evaluated _ _ _ _ _ (replicate (length xs) Raw)
                    (replicate (grown (length xs) - S (length xs)) Raw));
          [len|exact Ha'|]].
      2: { rewrite lookup_insert_eq. f_equal.
           rewrite (replicate_split _ _ (length xs)) by lia. f_equal.
           by apply replicate_cons_minus. }
      erewrite bind_Ok;
        [|eapply (TransferDataToNewHeap_Ok xs _ _ _ b 0 [] [] nb 0 []);
          [done|done|done| |]].
      2: { rewrite lookup_insert_ne by done. rewrite lookup_insert_ne by done.
           rewrite Hb. f_equal. list_eq. }
      2: { rewrite lookup_insert_eq. simpl. reflexivity. }
      simpl.
      rewrite <- (length_map transferred_from xs) at 1.
      eapply (destroy_n_Ok _ _ _ _ b 0 [] []); [done|].
      by rewrite lookup_insert_eq. }
    simpl.
    erewrite bind_Ok; [|by eapply set_data_Ok]. simpl.
    unfold RawMemory_dtor. simpl.
    eapply Deallocate_Ok. by rewrite lookup_insert_eq. }
  erewrite bind_Ok; [|apply get_vec_Ok; by rewrite lookup_insert_eq]. simpl.
  erewrite bind_Ok; [|eapply set_size_Ok; by rewrite lookup_insert_eq]. simpl.
  unfold RawMemory_index. simpl.
  rewrite bind_assert_true by (apply bool_decide_eq_true_2; lia).
  unfold mret, M_ret, ptr_plus. simpl. f_equal. f_equal.
  - rewrite !insert_insert_eq, delete_insert_eq, delete_insert_ne by done.
    f_equal. rewrite map_app. list_eq.
  - by rewrite insert_insert_eq.
  - rewrite length_map. list_eq.
Qed.

Lemma EmplaceBack_null_evaluated h v l this a x h0 :
  v !! this = Some (mkVector (mkRawMemory nullptr 0) 0) →
  eval_arg a (State h v l) = Ok x (State h0 v l) →
  EmplaceBack this a (State h v l)
  = Ok (Ptr (Some (fresh (dom h))) 0)
       (State (<[fresh (dom h) := [Obj x]]> h0)
              (<[this := mkVector (mkRawMemory (Ptr (Some (fresh (dom h))) 0) 1) 1]> v)
              (l ++ [EvAllocate (fresh (dom h)) 1;
                     EvConstruct a (At (Ptr (Some (fresh (dom h))) 0));
                     EvSetSize this 1])).
Proof.
  intros Hv Ha. pose proof (fresh_heap h) as Hnb.
  set (nb := fresh (dom h)) in *.
  destruct (eval_arg_frame a h v l x h0 nb (replicate 1 Raw) v
              (l ++ [EvAllocate nb 1]) Hnb Ha) as [Ha' Hnb0].
  unfold EmplaceBack.
  erewrite bind_Ok; [|by apply get_vec_Ok]. simpl.
  erewrite bind_Ok; [|erewrite bind_Ok; [|apply RawMemory_new_Ok; lia]].
  2: {
    fold nb. erewrite bind_Ok; [|apply unwinding_Ok].
    2: {
      simpl.
      erewrite bind_Ok;
        [|eapply (construct_at_evaluated _ _ _ _ _ [] []);
          [done|exact Ha'|by rewrite lookup_insert_eq]].
      erewrite bind_Ok; [|apply TransferDataToNewHeap_0].
      reflexivity. }
    simpl.
    erewrite bind_Ok; [|by eapply set_data_Ok]. simpl.
    unfold RawMemory_dtor. simpl. apply Deallocate_null. }
  erewrite bind_Ok; [|apply get_vec_Ok; by rewrite lookup_insert_eq]. simpl.
  erewrite bind_Ok; [|eapply set_size_Ok; by rewrite lookup_insert_eq]. simpl.
  unfold RawMemory_index. simpl.
  unfold mret, M_ret, ptr_plus. simpl. f_equal. f_equal.
  - by rewrite !insert_insert_eq.
  - by rewrite insert_insert_eq.
  - list_eq.
Qed.

Lemma Emplace_grow_evaluated h v l this l1 l2 n b a x h0 :
  n = length l1 + length l2 →
  l2 ≠ [] →
  v !! this = Some (mkVector (mkRawMemory (Ptr (Some b) 0) n) n) →
  eval_arg a (State h v l) = Ok x (State h0 v l) →
  h0 !! b = Some (map Obj (l1 ++ l2)) →
  Emplace this (Ptr (Some b) (length l1)) a (State h v l)
  = Ok (Ptr (Some (fresh (dom h))) (length l1))
       (State (<[fresh (dom h) :=
                   map Obj (l1 ++ x :: l2) ++ replicate (grown n - S n) Raw]>
                 (delete b h0))
              (<[this := mkVector (mkRawMemory (Ptr (Some (fresh (dom h))) 0) (grown n))
                           (S n)]> v)
              (l ++ [EvAllocate (fresh (dom h)) (grown n);
                     EvConstruct a (At (Ptr (Some (fresh (dom h))) (length l1)))]
                 ++ events_at2 transfer_event (Ptr (Some b) 0) (length l1)
                      (Ptr (Some (fresh (dom h))) 0)
                 ++ events_at2 transfer_event (Ptr (Some b) (length l1)) (length l2)
                      (Ptr (Some (fresh (dom h))) (length l1 + 1))
                 ++ events_at destroy_event (Ptr (Some b) 0) n
                 ++ [EvSetSize this (S n); EvDeallocate b])).
Proof.
  intros -> Hl2 Hv Ha Hb. pose proof (fresh_heap h) as Hnb.
  pose proof (grown_gt (length l1 + length l2)) as Hg.
  assert (0 < length l2) as Hlen by (destruct l2; [done|simpl; lia]).
  set (n := length l1 + length l2) in *.
  set (nb := fresh (dom h)) in *.
  destruct (eval_arg_frame a h v l x h0 nb (replicate (grown n) Raw) v
              (l ++ [EvAllocate nb (grown n)]) Hnb Ha) as [Ha' Hnb0].
  assert (b ≠ nb) as Hne by (intros ->; congruence).
  unfold Emplace, cbegin, cend.
  erewrite bind_Ok; [|by apply begin_Ok]. simpl.
  rewrite (bind_lift_Some _ _ _ (length l1))
    by (rewrite ptr_distance_Ok by lia; f_equal; lia).
  erewrite bind_Ok; [|by apply end_Ok]. unfold ptr_plus. simpl.
  erewrite bind_Ok; [|by apply get_vec_Ok]. simpl.
  rewrite bool_decide_eq_false_2 by (intros [=]; lia).
  rewrite bool_decide_eq_true_2 by done. fold (grown n).
  erewrite bind_Ok.
  2: {
    erewrite bind_Ok; [|apply RawMemory_new_Ok; lia]. fold nb.
    erewrite bind_Ok; [|apply unwinding_Ok].
    2: {
      simpl.
      erewrite bind_Ok;
        [|eapply (construct_at_evaluated _ _ _ _ _ (replicate (length l1) Raw)
                    (replicate (length l2) Raw ++ replicate (grown n - S n) Raw));
          [len|exact Ha'|]].
      2: { rewrite lookup_insert_eq. f_equal.
           rewrite (replicate_split _ (grown n) (length l1)) by lia. f_equal.
           rewrite (replicate_cons_minus _ (grown n)) by lia. f_equal.
           rewrite <- replicate_add. f_equal. lia. }
      erewrite bind_Ok;
        [|eapply (TransferDataToNewHeap_Ok l1 _ _ _ b 0 [] (map Obj l2) nb 0 []);
          [done|done|done| |]].
      2: { rewrite !lookup_insert_ne by done. rewrite Hb. f_equal. list_eq. }
      2: { rewrite lookup_insert_eq. simpl. reflexivity. }
      rewrite (bind_lift_Some _ _ _ (length l2))
        by (rewrite ptr_distance_Ok by lia; f_equal; lia).
      erewrite bind_Ok;
        [|eapply (TransferDataToNewHeap_Ok l2 _ _ _ b (length l1)
                    (map Obj (map transferred_from l1)) []
                    nb (length l1 + 1) (map Obj l1 ++ [Obj x])
                    (replicate (grown n - S n) Raw));
          [done|len|len| |]].
      2: { rewrite lookup_insert_eq. f_equal. list_eq. }
      2: { rewrite lookup_insert_ne, lookup_insert_eq by done. f_equal. list_eq. }
      replace n with (length (map transferred_from (l1 ++ l2))) at 1
        by (rewrite length_map, length_app; done).
      eapply (destroy_n_Ok _ _ _ _ b 0 [] []); [done|].
      rewrite lookup_insert_eq. f_equal. list_eq. }
    simpl.
    erewrite bind_Ok; [|by eapply set_data_Ok]. simpl.
    erewrite bind_Ok; [|eapply set_size_Ok; by rewrite lookup_insert_eq]. simpl.
    unfold RawMemory_dtor. simpl.
    eapply Deallocate_Ok. by rewrite lookup_insert_eq. }
  erewrite bind_Ok; [|apply begin_Ok; by rewrite lookup_insert_eq]. simpl.
  unfold mret, M_ret, ptr_plus. simpl. f_equal. f_equal.
  - heap_eq. f_equal. list_eq.
  - by rewrite insert_insert_eq.
  - rewrite length_map, length_app. list_eq.
Qed.

(* Emplace at end() is EmplaceBack, whatever the argument *)
Lemma Emplace_at_end this a h v l d n r h' v' l' d' n' :
  v !! this = Some (mkVector d n) →
  EmplaceBack this a (State h v l) = Ok r (State h' v' l') →
  v' !! this = Some (mkVector d' n') →
  Emplace this (ptr_plus (buffer_ d) n) a (State h v l)
  = Ok (ptr_plus (buffer_ d') n) (State h' v' l').
Proof.
  intros Hv HE Hv'. unfold Emplace, cbegin, cend.
  erewrite bind_Ok; [|by apply begin_Ok]. simpl.
  rewrite (bind_lift_Some _ _ _ _ (ptr_distance_plus _ _)).
  erewrite bind_Ok; [|by apply end_Ok]. simpl.
  erewrite bind_Ok; [|by apply get_vec_Ok]. simpl.
  rewrite bool_decide_eq_true_2 by done.
  erewrite bind_Ok; [|erewrite bind_Ok; [|exact HE]; reflexivity].
  erewrite bind_Ok; [|by apply begin_Ok]. done.
Qed.

(** C4.  Whenever Reserve, EmplaceBack or Emplace reallocates, the call
    succeeds, and its events are the allocation of the new buffer, the
    construction of the new element in it (none for Reserve), then the
    transfers, then the destruction of every old slot and the release of the
    old buffer.  The transfers are exactly one per existing element, in
    order of offset, from the old buffer to the offset the element takes in
    the new one, and all of the same kind: move constructions when the
    element type is nothrow-move-constructible or not copy-constructible,
    copy constructions otherwise.  Afterwards the vector holds the elements
    in the new buffer, the new element at its position among them.  Here
    [xs] are the elements once the argument of the call has been read: the
    argument may be any whose evaluation returns, also one moved from an
    element of the vector itself; the request of a Reserve is taken to be
    representable. *)
Theorem transfer_policy (s : state) (this : nat) (xs : list T) (cap : nat)
    (buf : ptr) (c : realloc_call) (x : T) (s0 : state) :
  call_arg_evaluates s c x s0 →
  vector_is s0 this xs cap buf →
  reallocates (length xs) cap c = true →
  call_representable c →
  ∃ s' evs,
    run_realloc_call this c s = Ok tt s' ∧
    log s' = log s ++ evs ∧
    evs = realloc_events this buf (length xs) cap (fresh (dom (heap s))) c ∧
    transfers evs
    = map (λ i, (is_nothrow_move_constructible || negb is_copy_constructible,
                 ptr_plus buf i,
                 Ptr (Some (fresh (dom (heap s)))) (new_offset c i)))
        (seq 0 (length xs)) ∧
    vector_is s' this (elements_after c xs x) (realloc_capacity (length xs) c)
      (Ptr (Some (fresh (dom (heap s)))) 0).
Proof.
  assert (∀ b, transfers (dealloc_events b) = []) as Hdealloc
    by (intros b; unfold dealloc_events; by destruct (blk b)).
  intros Hev Hvec Hre _.
  assert (∃ s',
            run_realloc_call this c s = Ok tt s' ∧
            log s' = log s ++ realloc_events this buf (length xs) cap
                                (fresh (dom (heap s))) c ∧
            vector_is s' this (elements_after c xs x)
              (realloc_capacity (length xs) c)
              (Ptr (Some (fresh (dom (heap s)))) 0))
    as (s' & Hrun & Hlog & Hvec').
  { destruct c as [new_capacity|a|p a]; simpl in *.
    - subst s0. apply Nat.ltb_lt in Hre.
      destruct (Reserve_Ok s this xs cap buf new_capacity Hvec)
        as (s' & HR & Hvec' & Hlog).
      exists s'. split; [done|]. split; [done|].
      unfold buffer_reserved in Hvec'.
      rewrite bool_decide_eq_false_2 in Hvec' by lia.
      by rewrite Nat.max_r in Hvec' by lia.
    - apply Nat.eqb_eq in Hre. destruct s as [h v l].
      destruct (eval_arg_state _ _ _ _ _ _ Hev) as [Hv0 Hl0].
      destruct s0 as [h0 v0 l0]. simpl in Hv0, Hl0. subst v0 l0.
      apply vector_is_inv in Hvec as (Hv & Hle & Hbuf).
      unfold EmplaceBack_events. rewrite bool_decide_eq_true_2 by done. simpl.
      pose proof (grown_gt (length xs)) as Hg.
      destruct Hbuf as [(b & -> & Hb)|(-> & -> & ->)].
      + subst cap. rewrite Nat.sub_diag, app_nil_r in Hb.
        eexists. split;
          [erewrite bind_Ok; [|by apply EmplaceBack_grow_evaluated]; reflexivity|].
        split; [done|].
        unfold vector_is, block_is. simpl.
        rewrite !lookup_insert_eq, length_app. simpl.
        replace (length xs + 1) with (S (length xs)) by lia.
        repeat split; try done; lia.
      + eexists. split;
          [erewrite bind_Ok; [|by apply EmplaceBack_null_evaluated]; reflexivity|].
        split; [done|].
        unfold vector_is, block_is. simpl. rewrite !lookup_insert_eq. done.
    - apply andb_prop in Hre as [Hp Hfull].
      apply Nat.leb_le in Hp. apply Nat.eqb_eq in Hfull. destruct s as [h v l].
      destruct (eval_arg_state _ _ _ _ _ _ Hev) as [Hv0 Hl0].
      destruct s0 as [h0 v0 l0]. simpl in Hv0, Hl0. subst v0 l0.
      apply vector_is_inv in Hvec as (Hv & Hle & Hbuf).
      unfold Emplace_events, EmplaceBack_events.
      rewrite (bool_decide_eq_true_2 (length xs = cap)) by done. simpl.
      pose proof (grown_gt (length xs)) as Hg.
      erewrite bind_Ok; [|by apply begin_Ok]. simpl.
      destruct (decide (p = length xs)) as [->|Hne].
      + rewrite bool_decide_eq_true_2 by done.
        rewrite take_ge, drop_ge by lia.
        destruct Hbuf as [(b & -> & Hb)|(-> & -> & ->)].
        * subst cap. rewrite Nat.sub_diag, app_nil_r in Hb.
          eexists. split.
          { erewrite bind_Ok; [reflexivity|].
            eapply (Emplace_at_end this a h v l
                      (mkRawMemory (Ptr (Some b) 0) (length xs)) (length xs));
              [done|by apply EmplaceBack_grow_evaluated|apply lookup_insert_eq]. }
          split; [done|].
          unfold vector_is, block_is. simpl.
          rewrite !lookup_insert_eq, length_app. simpl.
          replace (length xs + 1) with (S (length xs)) by lia.
          repeat split; try done; lia.
        * eexists. split.
          { erewrite bind_Ok; [reflexivity|].
            eapply (Emplace_at_end this a h v l (mkRawMemory nullptr 0) 0);
              [done|by apply EmplaceBack_null_evaluated|apply lookup_insert_eq]. }
          split; [done|].
          unfold vector_is, block_is. simpl. rewrite !lookup_insert_eq. done.
      + rewrite bool_decide_eq_false_2 by done.
        destruct Hbuf as [(b & -> & Hb)|(-> & -> & ->)]; [|simpl in *; lia].
        subst cap. rewrite Nat.sub_diag, app_nil_r in Hb.
        assert (length (take p xs) = p) as Hl1 by (rewrite length_take; lia).
        assert (length (drop p xs) = length xs - p) as Hl2 by apply length_drop.
        rewrite <- (take_drop p xs) in Hb at 1.
        set (l1 := take p xs) in *. set (l2 := drop p xs) in *.
        assert (l2 ≠ []) as Hne2
          by (intros E; rewrite E in Hl2; simpl in Hl2; lia).
        unfold ptr_plus. simpl. rewrite <- Hl1.
        eexists. split.
        { erewrite bind_Ok; [reflexivity|].
          eapply (Emplace_grow_evaluated _ _ _ _ l1 l2 (length xs));
            try done; lia. }
        split.
        { simpl. replace (length xs - length l1) with (length l2) by lia. done. }
        unfold vector_is, block_is. simpl.
        rewrite !lookup_insert_eq, length_app. simpl.
        replace (length l1 + S (length l2)) with (S (length xs)) by lia.
        repeat split; try done; lia. }
  exists s', (realloc_events this buf (length xs) cap (fresh (dom (heap s))) c).
  split; [done|]. split; [done|]. split; [done|]. split; [|done].
  clear Hrun Hlog Hvec' Hev Hvec.
  destruct c as [new_capacity|a|p a]; simpl in *.
  - apply Nat.ltb_lt in Hre.
    unfold Reserve_events. rewrite bool_decide_eq_false_2 by lia.
    rewrite !transfers_app, transfers_transfer_events, Hdealloc.
    rewrite transfers_events_at by done. simpl. rewrite app_nil_r.
    apply map_ext. intros i. unfold ptr_plus. simpl. done.
  - apply Nat.eqb_eq in Hre.
    unfold EmplaceBack_events. rewrite bool_decide_eq_true_2 by done.
    rewrite !transfers_app, transfers_transfer_events, Hdealloc.
    rewrite transfers_events_at by done. simpl. rewrite app_nil_r.
    apply map_ext. intros i. unfold ptr_plus. simpl. done.
  - apply andb_prop in Hre as [Hp Hfull].
    apply Nat.leb_le in Hp. apply Nat.eqb_eq in Hfull.
    unfold Emplace_events, EmplaceBack_events.
    rewrite (bool_decide_eq_true_2 (length xs = cap)) by done.
    case_bool_decide as Hend.
    + subst p. rewrite !transfers_app, transfers_transfer_events, Hdealloc.
      rewrite transfers_events_at by done. simpl. rewrite app_nil_r.
      apply map_ext_in. intros i Hi. apply in_seq in Hi.
      rewrite (proj2 (Nat.ltb_lt _ _)) by lia. unfold ptr_plus. simpl. done.
    + rewrite !transfers_app, !transfers_transfer_events, Hdealloc.
      rewrite transfers_events_at by done. simpl. rewrite app_nil_r.
      symmetry. apply seq_split_map; [done| |].
      * intros i Hi. rewrite (proj2 (Nat.ltb_lt _ _)) by lia.
        unfold ptr_plus. simpl. done.
      * intros j Hj. rewrite (proj2 (Nat.ltb_ge _ _)) by lia.
        rewrite ptr_plus_plus. unfold ptr_plus. simpl. do 2 f_equal. lia.
Qed.

(** ** The invariant length <= capacity *)

Create HintDb keeps.

Lemma keeps_ret {A} (a : A) : keeps_vecs (mret a).
Proof. by intros s. Qed.
Lemma keeps_throw {A} : keeps_vecs (@throw A).
Proof. by intros s. Qed.
Lemma keeps_undefined {A} : keeps_vecs (@undefined A).
Proof. by intros s. Qed.
Lemma keeps_bind {A B} (m : M A) (f : A → M B) :
  keeps_vecs m → (∀ a, keeps_vecs (f a)) → keeps_vecs (m ≫= f).
Proof.
  intros Hm Hf s. unfold mbind, M_bind. specialize (Hm s).
  destruct (m s) as [a s1|s1|]; [|done|done].
  specialize (Hf a s1). destruct (f a s1); [congruence|congruence|done].
Qed.
Lemma keeps_assert b : keeps_vecs (assert b).
Proof. by destruct b. Qed.
Lemma keeps_lift {A} (o : option A) : keeps_vecs (lift o).
Proof. by destruct o. Qed.
Lemma keeps_emit e : keeps_vecs (emit e).
Proof. by intros s. Qed.
Lemma keeps_unwinding {A} c (m : M A) :
  keeps_vecs c → keeps_vecs m → keeps_vecs (unwinding c m).
Proof.
  intros Hc Hm s. unfold unwinding. specialize (Hm s).
  destruct (m s) as [a s1|s1|]; [done| |done].
  specialize (Hc s1). destruct (c s1); [congruence|done|done].
Qed.
Lemma vecs_write_slot p x s : vecs (write_slot p x s) = vecs s.
Proof.
  unfold write_slot. destruct (blk p); [|done]. by destruct (heap s !! _).
Qed.
Lemma keeps_load p : keeps_vecs (load p).
Proof. intros s. unfold load. by destruct (read_slot p s) as [[|]|]. Qed.
Lemma keeps_store p x : keeps_vecs (store p x).
Proof.
  intros s. unfold store.
  destruct (read_slot p s) as [[|]|]; try done. apply vecs_write_slot.
Qed.
Lemma keeps_emplace p x : keeps_vecs (emplace p x).
Proof.
  intros s. unfold emplace.
  destruct (read_slot p s) as [[|]|]; try done. apply vecs_write_slot.
Qed.
Lemma keeps_destroy_at p : keeps_vecs (destroy_at p).
Proof.
  intros s. unfold destroy_at.
  destruct (read_slot p s) as [[|]|]; try done. apply vecs_write_slot.
Qed.
Lemma keeps_Allocate n : keeps_vecs (Allocate n).
Proof. intros s. unfold Allocate. by case_decide. Qed.
Lemma keeps_Deallocate p : keeps_vecs (Deallocate p).
Proof.
  intros s. unfold Deallocate. destruct (blk p).
  - destruct (heap s !! _); [|done]. by case_decide.
  - by case_decide.
Qed.

#[local] Hint Resolve keeps_ret keeps_throw keeps_undefined keeps_assert
  keeps_lift keeps_emit keeps_load keeps_store keeps_emplace keeps_destroy_at
  keeps_Allocate keeps_Deallocate : keeps.
#[local] Hint Extern 1 (keeps_vecs (_ ≫= _)) =>
  apply keeps_bind; [|intros ?] : keeps.
#[local] Hint Extern 1 (keeps_vecs (unwinding _ _)) =>
  apply keeps_unwinding : keeps.
#[local] Hint Extern 2 (keeps_vecs (match ?x with _ => _ end)) =>
  destruct x : keeps.

Lemma keeps_eval_arg a : keeps_vecs (eval_arg a).
Proof. unfold eval_arg. destruct a as [?|[|]|[|]]; auto 10 with keeps. Qed.
#[local] Hint Resolve keeps_eval_arg : keeps.

Lemma keeps_construct_at p a : keeps_vecs (construct_at p a).
Proof. unfold construct_at. auto 10 with keeps. Qed.
Lemma keeps_value_construct_at p : keeps_vecs (value_construct_at p).
Proof. unfold value_construct_at. auto 10 with keeps. Qed.
Lemma keeps_copy_construct p q : keeps_vecs (copy_construct p q).
Proof. unfold copy_construct. auto 10 with keeps. Qed.
Lemma keeps_move_construct p q : keeps_vecs (move_construct p q).
Proof. unfold move_construct. auto 10 with keeps. Qed.
Lemma keeps_copy_assign p q : keeps_vecs (copy_assign p q).
Proof. unfold copy_assign. auto 10 with keeps. Qed.
Lemma keeps_move_assign p q : keeps_vecs (move_assign p q).
Proof. unfold move_assign. auto 10 with keeps. Qed.
#[local] Hint Resolve keeps_construct_at keeps_value_construct_at
  keeps_copy_construct keeps_move_construct keeps_copy_assign
  keeps_move_assign : keeps.

Lemma keeps_uninitialized_value_construct_n n :
  ∀ p, keeps_vecs (uninitialized_value_construct_n p n).
Proof. induction n; intros p; simpl; auto 10 with keeps. Qed.
Lemma keeps_uninitialized_copy_n n :
  ∀ p q, keeps_vecs (uninitialized_copy_n p n q).
Proof. induction n; intros p q; simpl; auto 10 with keeps. Qed.
Lemma keeps_uninitialized_move_n n :
  ∀ p q, keeps_vecs (uninitialized_move_n p n q).
Proof. induction n; intros p q; simpl; auto 10 with keeps. Qed.
Lemma keeps_destroy_n n : ∀ p, keeps_vecs (destroy_n p n).
Proof. induction n; intros p; simpl; auto 10 with keeps. Qed.
Lemma keeps_copy_n n : ∀ p q, keeps_vecs (copy_n p n q).
Proof. induction n; intros p q; simpl; auto 10 with keeps. Qed.
Lemma keeps_move_n n : ∀ p q, keeps_vecs (move_n p n q).
Proof. induction n; intros p q; simpl; auto 10 with keeps. Qed.
Lemma keeps_move_backward_n n : ∀ p q, keeps_vecs (move_backward_n p n q).
Proof. induction n; intros p q; simpl; auto 10 with keeps. Qed.
#[local] Hint Resolve keeps_uninitialized_value_construct_n
  keeps_uninitialized_copy_n keeps_uninitialized_move_n keeps_destroy_n
  keeps_copy_n keeps_move_n keeps_move_backward_n : keeps.

Lemma keeps_std_move p q r : keeps_vecs (std_move p q r).
Proof. unfold std_move. auto 10 with keeps. Qed.
Lemma keeps_std_move_backward p q r : keeps_vecs (std_move_backward p q r).
Proof. unfold std_move_backward. auto 10 with keeps. Qed.
Lemma keeps_TransferDataToNewHeap p n q : keeps_vecs (TransferDataToNewHeap p n q).
Proof. unfold TransferDataToNewHeap. auto 10 with keeps. Qed.
Lemma keeps_RawMemory_new n : keeps_vecs (RawMemory_new n).
Proof. unfold RawMemory_new. auto 10 with keeps. Qed.
Lemma keeps_RawMemory_dtor d : keeps_vecs (RawMemory_dtor d).
Proof. unfold RawMemory_dtor. auto 10 with keeps. Qed.
Lemma keeps_RawMemory_index d i : keeps_vecs (RawMemory_index d i).
Proof. unfold RawMemory_index. auto 10 with keeps. Qed.
#[local] Hint Resolve keeps_std_move keeps_std_move_backward
  keeps_TransferDataToNewHeap keeps_RawMemory_new keeps_RawMemory_dtor
  keeps_RawMemory_index : keeps.

Lemma returns_RawMemory_new n :
  returns (RawMemory_new n) (λ d, capacity_ d = n).
Proof.
  intros s d s'. unfold RawMemory_new, mbind, M_bind.
  destruct (Allocate n s); [|done|done]. by intros [= <- _].
Qed.

Lemma vstep_ret {A} V0 (a : A) Q : Q a V0 → vstep V0 (mret a) Q.
Proof. intros H s <-. done. Qed.

Lemma vstep_bind {A B} V0 (m : M A) (f : A → M B) Q :
  vstep V0 m (λ a V1, vstep V1 (f a) Q) → vstep V0 (m ≫= f) Q.
Proof.
  intros H s Hs. unfold mbind, M_bind. specialize (H s Hs).
  destruct (m s) as [a s1|s1|]; [|done|done]. by apply H.
Qed.

Lemma vstep_conseq {A} V0 (m : M A) (Q Q' : A → gmap nat Vector → Prop) :
  vstep V0 m Q → (∀ a V, Q a V → Q' a V) → vstep V0 m Q'.
Proof.
  intros H HQ s Hs. specialize (H s Hs). destruct (m s); auto.
Qed.

Lemma vstep_keeps {A} V0 (m : M A) R Q :
  keeps_vecs m → returns m R → length_le_capacity V0 →
  (∀ a, R a → Q a V0) → vstep V0 m Q.
Proof.
  intros Hk HR Hinv HQ s <-. specialize (Hk s). specialize (HR s).
  destruct (m s) as [a s1|s1|]; [|by rewrite Hk|done].
  rewrite Hk. eauto.
Qed.

Lemma returns_True {A} (m : M A) : returns m (λ _, True).
Proof. by intros s a s' _. Qed.

Lemma vstep_get_vec V0 this Q :
  (∀ v, V0 !! this = Some v → Q v V0) → vstep V0 (get_vec this) Q.
Proof.
  intros H s <-. unfold get_vec. destruct (vecs s !! this) eqn:E; [|done].
  simpl. by apply H.
Qed.

Lemma vstep_put_vec V0 this x Q :
  Q tt (<[this := x]> V0) → vstep V0 (put_vec this x) Q.
Proof. intros H s <-. done. Qed.

Lemma vstep_new_vec V0 x Q :
  Q (fresh (dom V0)) (<[fresh (dom V0) := x]> V0) → vstep V0 (new_vec x) Q.
Proof. intros H s <-. done. Qed.

Lemma vstep_free_vec V0 this Q :
  Q tt (delete this V0) → vstep V0 (free_vec this) Q.
Proof. intros H s <-. done. Qed.

Lemma vstep_unwinding {A} V0 c (m : M A) Q :
  keeps_vecs c → vstep V0 m Q → vstep V0 (unwinding c m) Q.
Proof.
  intros Hc H s Hs. unfold unwinding. specialize (H s Hs).
  destruct (m s) as [a s1|s1|]; [done| |done].
  specialize (Hc s1). destruct (c s1); [by rewrite Hc|done|done].
Qed.

Lemma vstep_set_data V0 this d Q :
  (∀ v, V0 !! this = Some v → Q tt (<[this := mkVector d (size_ v)]> V0)) →
  vstep V0 (set_data this d) Q.
Proof.
  intros H. unfold set_data. apply vstep_bind, vstep_get_vec. intros v Hv.
  apply vstep_put_vec. by apply H.
Qed.

Lemma vstep_set_size V0 this n Q :
  (∀ v, V0 !! this = Some v → Q tt (<[this := mkVector (data_ v) n]> V0)) →
  vstep V0 (set_size this n) Q.
Proof.
  intros H. unfold set_size. apply vstep_bind, vstep_get_vec. intros v Hv.
  apply vstep_bind, vstep_put_vec. intros s Hs. simpl. rewrite Hs. by apply H.
Qed.

(* a heap-only computation whose result does not matter *)
Ltac vskip :=
  apply vstep_bind; eapply vstep_keeps;
  [solve [auto 15 with keeps] | apply returns_True | assumption | intros ? _].

Lemma inv_insert V this v :
  length_le_capacity V → size_ v ≤ capacity_ (data_ v) →
  length_le_capacity (<[this := v]> V).
Proof. intros HV Hv. by apply map_Forall_insert_2. Qed.

Lemma inv_lookup V this v :
  length_le_capacity V → V !! this = Some v → size_ v ≤ capacity_ (data_ v).
Proof. intros HV Hv. by apply (map_Forall_lookup_1 _ _ _ _ HV Hv). Qed.

Lemma EmplaceBack_inv V0 this a :
  length_le_capacity V0 →
  vstep V0 (EmplaceBack this a) (λ _ V, length_le_capacity V).
Proof.
  intros Hinv. unfold EmplaceBack.
  apply vstep_bind, vstep_get_vec. intros v Hv.
  pose proof (inv_lookup _ _ _ Hinv Hv) as Hle.
  apply vstep_bind.
  apply vstep_conseq with
    (Q := λ _ V, ∃ d, V = <[this := mkVector d (size_ v)]> V0 ∧ size_ v < capacity_ d).
  - case_bool_decide as Hfull.
    + apply vstep_bind. eapply vstep_keeps;
        [auto with keeps|apply returns_RawMemory_new|done|]. intros d Hd. simpl in Hd.
      apply vstep_bind, vstep_unwinding; [auto with keeps|].
      eapply vstep_keeps; [auto 10 with keeps|apply returns_True|done|]. intros _ _.
      simpl. apply vstep_bind, vstep_set_data. intros v' Hv'.
      assert (v' = v) as -> by congruence.
      eapply vstep_keeps; [auto with keeps|apply returns_True| |].
      * apply inv_insert; [done|]. simpl. rewrite Hd. case_bool_decide; lia.
      * intros _ _. eexists. split; [reflexivity|]. simpl. rewrite Hd.
        case_bool_decide; lia.
    + eapply vstep_keeps; [auto with keeps|apply returns_True|done|]. intros _ _.
      exists (data_ v). split; [|unfold RawMemory_Capacity in *; lia].
      symmetry. apply insert_id. by destruct v.
  - intros _ V (d & -> & Hlt).
    apply vstep_bind, vstep_get_vec. intros v'. rewrite lookup_insert_eq.
    intros [= <-]. simpl.
    apply vstep_bind, vstep_set_size. intros v'. rewrite lookup_insert_eq.
    intros [= <-]. simpl. rewrite insert_insert_eq.
    eapply vstep_keeps; [auto with keeps|apply returns_True| |].
    + apply inv_insert; [done|simpl; lia].
    + intros _ _. apply inv_insert; [done|simpl; lia].
Qed.

Lemma keeps_get_vec this : keeps_vecs (get_vec this).
Proof. intros s. unfold get_vec. by destruct (vecs s !! this). Qed.
#[local] Hint Resolve keeps_get_vec : keeps.
Lemma keeps_begin this : keeps_vecs (begin_ this).
Proof. unfold begin_. auto with keeps. Qed.
Lemma keeps_end this : keeps_vecs (end_ this).
Proof. unfold end_. auto with keeps. Qed.
#[local] Hint Resolve keeps_begin keeps_end : keeps.

(* a call of an operation already shown to preserve the invariant *)
Ltac vcall lem :=
  apply vstep_bind; eapply vstep_conseq; [apply lem; assumption|intros ? ? ?].
(* the last step is heap-only *)
Ltac vlast :=
  eapply vstep_keeps;
  [solve [auto 15 with keeps] | apply returns_True | | intros ? _].

Lemma PopBack_inv V0 this :
  length_le_capacity V0 →
  vstep V0 (PopBack this) (λ _ V, length_le_capacity V).
Proof.
  intros Hinv. unfold PopBack.
  apply vstep_bind, vstep_get_vec. intros v Hv.
  pose proof (inv_lookup _ _ _ Hinv Hv) as Hle.
  do 3 vskip. apply vstep_set_size. intros v' Hv'.
  assert (v' = v) as -> by congruence.
  apply inv_insert; [done|simpl; lia].
Qed.

Lemma Emplace_inv V0 this pos a :
  length_le_capacity V0 →
  vstep V0 (Emplace this pos a) (λ _ V, length_le_capacity V).
Proof.
  intros Hinv. unfold Emplace, cbegin, cend.
  do 3 vskip.
  apply vstep_bind, vstep_get_vec. intros v Hv.
  pose proof (inv_lookup _ _ _ Hinv Hv) as Hle.
  apply vstep_bind.
  apply vstep_conseq with (Q := λ _ V, length_le_capacity V).
  - case_bool_decide as Hend; [|case_bool_decide as Hfull].
    + vcall EmplaceBack_inv. by apply vstep_ret.
    + apply vstep_bind. eapply vstep_keeps;
        [auto with keeps|apply returns_RawMemory_new|done|]. intros d Hd. simpl in Hd.
      apply vstep_bind, vstep_unwinding; [auto with keeps|].
      eapply vstep_keeps; [auto 15 with keeps|apply returns_True|done|]. intros _ _.
      simpl. apply vstep_bind, vstep_set_data. intros v' Hv'.
      assert (v' = v) as -> by congruence.
      apply vstep_bind, vstep_set_size. intros v'. rewrite lookup_insert_eq.
      intros [= <-]. simpl. rewrite insert_insert_eq.
      assert (length_le_capacity
                (<[this := mkVector (mkRawMemory (buffer_ d) (capacity_ d))
                             (S (size_ v))]> V0)) as Hinv'.
      { apply inv_insert; [done|]. simpl. rewrite Hd. case_bool_decide; lia. }
      by vlast.
    + repeat vskip. apply vstep_bind, vstep_set_size. intros v' Hv'.
      assert (v' = v) as -> by congruence.
      assert (length_le_capacity (<[this := mkVector (data_ v) (S (size_ v))]> V0))
        as Hinv'.
      { apply inv_insert; [done|]. unfold RawMemory_Capacity in *. simpl. lia. }
      by vlast.
  - intros _ V HV. vskip. by apply vstep_ret.
Qed.

Lemma Erase_inv V0 this pos :
  length_le_capacity V0 →
  vstep V0 (Erase this pos) (λ _ V, length_le_capacity V).
Proof.
  intros Hinv. unfold Erase, cbegin, cend. vskip.
  case_bool_decide.
  - vcall PopBack_inv. by vlast.
  - do 4 vskip. vcall PopBack_inv. vskip. by apply vstep_ret.
Qed.

Lemma Reserve_inv V0 this n :
  length_le_capacity V0 →
  vstep V0 (Reserve this n)
    (λ _ V, length_le_capacity V ∧
            ∃ v d, V0 !! this = Some v ∧ V !! this = Some (mkVector d (size_ v)) ∧
                   n ≤ capacity_ d).
Proof.
  intros Hinv. unfold Reserve.
  apply vstep_bind, vstep_get_vec. intros v Hv.
  pose proof (inv_lookup _ _ _ Hinv Hv) as Hle.
  unfold RawMemory_Capacity. case_bool_decide as Hcap.
  - apply vstep_ret. split; [done|]. exists v, (data_ v).
    split; [done|]. split; [by destruct v|done].
  - apply vstep_bind. eapply vstep_keeps;
      [auto with keeps|apply returns_RawMemory_new|done|]. intros d Hd. simpl in Hd.
    do 2 vskip. simpl. apply vstep_bind, vstep_set_data. intros v' Hv'.
    assert (v' = v) as -> by congruence.
    assert (length_le_capacity
              (<[this := mkVector (mkRawMemory (buffer_ d) (capacity_ d))
                           (size_ v)]> V0)) as Hinv'.
    { apply inv_insert; [done|]. simpl. lia. }
    vlast; [done|]. split; [done|]. eexists v, _.
    split; [done|]. rewrite lookup_insert_eq. split; [done|]. simpl. lia.
Qed.

Lemma Resize_inv V0 this n :
  length_le_capacity V0 →
  vstep V0 (Resize this n) (λ _ V, length_le_capacity V).
Proof.
  intros Hinv. unfold Resize.
  apply vstep_bind, vstep_get_vec. intros v Hv.
  pose proof (inv_lookup _ _ _ Hinv Hv) as Hle.
  unfold RawMemory_Capacity. case_bool_decide as Hgrow.
  - apply vstep_bind, vstep_bind.
    apply vstep_conseq with
      (Q := λ _ V, length_le_capacity V ∧
                   ∃ d, V !! this = Some (mkVector d (size_ v)) ∧ n ≤ capacity_ d).
    + case_bool_decide as Hcap.
      * eapply vstep_conseq; [by apply Reserve_inv|].
        intros _ V (HV & v' & d & Hv' & HVthis & Hd).
        assert (v' = v) as -> by congruence. eauto.
      * apply vstep_ret. split; [done|]. exists (data_ v).
        split; [by destruct v|lia].
    + intros _ V (HV & d & HVthis & Hd).
      vskip. vlast; [done|]. apply vstep_set_size. intros v' Hv'.
      assert (v' = mkVector d (size_ v)) as -> by congruence.
      apply inv_insert; [done|simpl; lia].
  - vskip. apply vstep_set_size. intros v' Hv'.
    assert (v' = v) as -> by congruence.
    apply inv_insert; [done|simpl; lia].
Qed.

Lemma Swap_inv V0 this other :
  length_le_capacity V0 →
  vstep V0 (Swap this other) (λ _ V, length_le_capacity V).
Proof.
  intros Hinv. unfold Swap.
  apply vstep_bind, vstep_get_vec. intros v Hv.
  apply vstep_bind, vstep_get_vec. intros o Ho.
  pose proof (inv_lookup _ _ _ Hinv Hv) as Hlev.
  pose proof (inv_lookup _ _ _ Hinv Ho) as Hleo.
  simpl.
  apply vstep_bind, vstep_set_data. intros v1 Hv1.
  apply vstep_bind, vstep_set_data. intros o1 Ho1.
  apply vstep_bind, vstep_get_vec. intros v2 Hv2.
  apply vstep_bind, vstep_get_vec. intros o2 Ho2.
  apply vstep_bind, vstep_set_size. intros v3 Hv3.
  apply vstep_set_size. intros o3 Ho3.
  assert (v1 = v) as -> by congruence.
  destruct (decide (this = other)) as [->|Hne]; simplify_map_eq;
    apply map_Forall_lookup_2; intros i x Hi;
    rewrite !lookup_insert in Hi; repeat case_decide; simplify_eq; simpl;
    try lia; by eapply inv_lookup.
Qed.

Lemma Vector_default_inv V0 :
  length_le_capacity V0 →
  vstep V0 Vector_default (λ _ V, length_le_capacity V).
Proof.
  intros Hinv. apply vstep_new_vec. apply inv_insert; [done|simpl; lia].
Qed.

Lemma Vector_n_inv V0 n :
  length_le_capacity V0 →
  vstep V0 (Vector_n n) (λ _ V, length_le_capacity V).
Proof.
  intros Hinv. unfold Vector_n.
  apply vstep_bind. eapply vstep_keeps;
    [auto with keeps|apply returns_RawMemory_new|done|]. intros d Hd. simpl in Hd.
  apply vstep_bind, vstep_new_vec.
  assert (length_le_capacity (<[fresh (dom V0) := mkVector d n]> V0)) as Hinv'
    by (apply inv_insert; [done|simpl; lia]).
  vskip. by apply vstep_ret.
Qed.

Lemma Vector_copy_inv V0 other :
  length_le_capacity V0 →
  vstep V0 (Vector_copy other) (λ _ V, length_le_capacity V).
Proof.
  intros Hinv. unfold Vector_copy.
  apply vstep_bind, vstep_get_vec. intros o Ho.
  apply vstep_bind. eapply vstep_keeps;
    [auto with keeps|apply returns_RawMemory_new|done|]. intros d Hd. simpl in Hd.
  apply vstep_bind, vstep_new_vec.
  assert (length_le_capacity (<[fresh (dom V0) := mkVector d (size_ o)]> V0))
    as Hinv' by (apply inv_insert; [done|simpl; lia]).
  vskip. by apply vstep_ret.
Qed.

Lemma Vector_move_inv V0 other :
  length_le_capacity V0 →
  vstep V0 (Vector_move other) (λ _ V, length_le_capacity V).
Proof.
  intros Hinv. unfold Vector_move.
  apply vstep_bind, vstep_new_vec.
  assert (length_le_capacity
            (<[fresh (dom V0) := mkVector RawMemory_default 0]> V0)) as Hinv'
    by (apply inv_insert; [done|simpl; lia]).
  vcall Swap_inv. by apply vstep_ret.
Qed.

Lemma Vector_dtor_inv V0 this :
  length_le_capacity V0 →
  vstep V0 (Vector_dtor this) (λ _ V, length_le_capacity V).
Proof.
  intros Hinv. unfold Vector_dtor.
  apply vstep_bind, vstep_get_vec. intros v Hv.
  do 2 vskip. apply vstep_free_vec. by apply map_Forall_delete.
Qed.

Lemma Vector_assign_inv V0 this rhs :
  length_le_capacity V0 →
  vstep V0 (Vector_assign this rhs) (λ _ V, length_le_capacity V).
Proof.
  intros Hinv. unfold Vector_assign.
  case_bool_decide as Hne; [|by apply vstep_ret].
  apply vstep_bind, vstep_get_vec. intros v Hv.
  apply vstep_bind, vstep_get_vec. intros r Hr.
  pose proof (inv_lookup _ _ _ Hinv Hv) as Hle.
  unfold RawMemory_Capacity. case_bool_decide as Hbig.
  - vcall Vector_copy_inv. vcall Swap_inv. by apply Vector_dtor_inv.
  - do 2 vskip. apply vstep_set_size. intros v' Hv'.
    assert (v' = v) as -> by congruence.
    apply inv_insert; [done|simpl; lia].
Qed.

(** C8.  Every public operation of Vector preserves length <= capacity: if
    every Vector object of the store satisfies size_ <= data_.Capacity()
    before the call, then every one does after it, whether the call returns
    normally or exits by an exception. *)
Theorem length_le_capacity_preserved (c : call) (s : state) :
  length_le_capacity (vecs s) →
  match exec c s with
  | Ok _ s' | Throw s' => length_le_capacity (vecs s')
  | UB => True
  end.
Proof.
  intros Hinv.
  assert (vstep (vecs s) (exec c) (λ _ V, length_le_capacity V)) as H.
  { destruct c; simpl; unfold PushBack, PushBack_move, Insert, Insert_move,
      Vector_move_assign.
    - vcall Vector_default_inv. by apply vstep_ret.
    - vcall Vector_n_inv. by apply vstep_ret.
    - vcall Vector_copy_inv. by apply vstep_ret.
    - vcall Vector_move_inv. by apply vstep_ret.
    - by apply Vector_assign_inv.
    - by apply Swap_inv.
    - eapply vstep_conseq; [by apply Reserve_inv|]. by intros _ V [HV _].
    - by apply Resize_inv.
    - vcall EmplaceBack_inv. by apply vstep_ret.
    - vcall EmplaceBack_inv. by apply vstep_ret.
    - vcall EmplaceBack_inv. by apply vstep_ret.
    - by apply PopBack_inv.
    - vcall Emplace_inv. by apply vstep_ret.
    - vcall Emplace_inv. by apply vstep_ret.
    - vcall Emplace_inv. by apply vstep_ret.
    - vcall Erase_inv. by apply vstep_ret.
    - by apply Swap_inv. }
  specialize (H s eq_refl). by destruct (exec c s).
Qed.

(** ** Moving a RawMemory *)

(* The move constructor hands the storage over and leaves its source with a
   null buffer and capacity 0. *)
Lemma RawMemory_move_ctor_spec (other : RawMemory) :
  RawMemory_move_ctor other
  = (mkRawMemory (buffer_ other) (capacity_ other), mkRawMemory nullptr 0).
Proof. done. Qed.

(* Move assignment hands the storage over and nulls the buffer of its source,
   but the source is left with the capacity its destination had. *)
Lemma RawMemory_move_assign_spec (this rhs : RawMemory) (s : state) r s' :
  RawMemory_move_assign this rhs s = Ok r s' →
  r = (mkRawMemory (buffer_ rhs) (capacity_ rhs),
       mkRawMemory nullptr (capacity_ this)).
Proof.
  unfold RawMemory_move_assign, mbind, M_bind.
  destruct (if decide (buffer_ this ≠ nullptr) then _ else _) as [[] s1|s1|];
    [|done|done].
  by intros [= <- _].
Qed.

(** ** Operations on a vector and the rest of the state *)

Lemma owns_inv h v l this xs cap buf h0 V0 :
  owns (State h v l) this xs cap buf h0 V0 →
  v = <[this := mkVector (mkRawMemory buf cap) (length xs)]> V0 ∧
  length xs ≤ cap ∧
  ((∃ b, buf = Ptr (Some b) 0 ∧ h0 !! b = None ∧
         h = <[b := map Obj xs ++ replicate (cap - length xs) Raw]> h0) ∨
   (buf = nullptr ∧ xs = [] ∧ cap = 0 ∧ h = h0)).
Proof.
  intros (Hv & Hle & Hblk). split; [done|]. split; [done|].
  destruct buf as [[b|] o]; simpl in *.
  - destruct Hblk as (-> & Hb & Hh). left. by exists b.
  - destruct Hblk as (-> & -> & Hh). right. split; [done|].
    split; [|done]. destruct xs; [done|simpl in Hle; lia].
Qed.

Lemma owns_vector_is s this xs cap buf h0 V0 :
  owns s this xs cap buf h0 V0 → vector_is s this xs cap buf.
Proof.
  destruct s as [h v l]. intros H.
  apply owns_inv in H as (-> & Hle & [(b & -> & Hb & ->)|(-> & -> & -> & ->)]).
  - unfold vector_is, block_is. simpl. by rewrite !lookup_insert_eq.
  - unfold vector_is, block_is. simpl. by rewrite !lookup_insert_eq.
Qed.

Lemma fresh_insert_None (h0 : gmap nat (list slot)) b bl :
  h0 !! fresh (dom (<[b := bl]> h0)) = None ∧ fresh (dom (<[b := bl]> h0)) ≠ b.
Proof.
  pose proof (fresh_heap (<[b := bl]> h0)) as H.
  apply lookup_insert_None in H as [H1 H2]. done.
Qed.

Lemma EmplaceBack_owns s this xs cap buf h0 V0 a x :
  owns s this xs cap buf h0 V0 →
  arg_yields s a x →
  ∃ s',
    EmplaceBack this a s
    = Ok (ptr_plus (buffer_after s buf (length xs) cap) (length xs)) s' ∧
    owns s' this (xs ++ [x]) (capacity_after (length xs) cap)
      (buffer_after s buf (length xs) cap) h0 V0 ∧
    log s' = log s ++ EmplaceBack_events this buf (length xs) cap
                        (fresh (dom (heap s))) a.
Proof.
  destruct s as [h v l]. intros Hown Ha.
  apply owns_inv in Hown as (Hv & Hle & Hbuf).
  assert (v !! this = Some (mkVector (mkRawMemory buf cap) (length xs))) as Hthis
    by (subst v; apply lookup_insert_eq).
  unfold buffer_after, capacity_after, EmplaceBack_events. simpl.
  pose proof (grown_gt (length xs)) as Hg.
  destruct Hbuf as [(b & -> & Hb0 & Hh)|(-> & -> & -> & ->)].
  - assert (h !! b = Some (map Obj xs ++ replicate (cap - length xs) Raw)) as Hb
      by (subst h; apply lookup_insert_eq).
    destruct (fresh_insert_None h0 b (map Obj xs ++ replicate (cap - length xs) Raw))
      as [Hnb Hne]. rewrite <- Hh in Hnb, Hne.
    case_bool_decide as Hcap.
    + subst cap. rewrite Nat.sub_diag, app_nil_r in Hb.
      eexists. split; [by apply EmplaceBack_grow|].
      split; [|done]. unfold owns. simpl. rewrite length_app. simpl.
      replace (length xs + 1) with (S (length xs)) by lia.
      subst v h. rewrite insert_insert_eq, delete_insert_id by done.
      repeat split; try done; lia.
    + eexists. split; [apply EmplaceBack_fast; try done; lia|].
      split; [|done]. unfold owns, ptr_plus. simpl. rewrite length_app. simpl.
      replace (length xs + 1) with (S (length xs)) by lia.
      subst v h. rewrite !insert_insert_eq.
      repeat split; try done; lia.
  - simpl. eexists. split; [by apply EmplaceBack_null|].
    split; [|done]. unfold owns. simpl. subst v. rewrite insert_insert_eq.
    repeat split; try done. apply fresh_heap.
Qed.

Lemma Emplace_owns s this xs cap buf h0 V0 p a x :
  owns s this xs cap buf h0 V0 →
  p ≤ length xs →
  arg_yields s a x →
  ∃ s',
    Emplace this (ptr_plus buf p) a s
    = Ok (ptr_plus (buffer_after s buf (length xs) cap) p) s' ∧
    owns s' this (take p xs ++ x :: drop p xs) (capacity_after (length xs) cap)
      (buffer_after s buf (length xs) cap) h0 V0.
Proof.
  intros Hown Hp Ha.
  destruct (decide (p = length xs)) as [->|Hne].
  { destruct (EmplaceBack_owns _ _ _ _ _ _ _ _ _ Hown Ha) as (s' & HE & Hown' & _).
    exists s'. rewrite take_ge, drop_ge by lia. split; [|done].
    pose proof (owns_vector_is _ _ _ _ _ _ _ Hown) as (Hv & _).
    pose proof (owns_vector_is _ _ _ _ _ _ _ Hown') as (Hv' & _).
    destruct s as [h v l]. simpl in Hv. unfold Emplace, cbegin, cend.
    erewrite bind_Ok; [|by apply begin_Ok]. simpl.
    rewrite (bind_lift_Some _ _ _ _ (ptr_distance_plus _ _)).
    erewrite bind_Ok; [|by apply end_Ok]. simpl.
    erewrite bind_Ok; [|by apply get_vec_Ok]. simpl.
    rewrite bool_decide_eq_true_2 by done.
    erewrite bind_Ok; [|erewrite bind_Ok; [|exact HE]; reflexivity].
    destruct s' as [h' v' l']. simpl in Hv'.
    erewrite bind_Ok; [|by apply begin_Ok]. done. }
  destruct s as [h v l].
  apply owns_inv in Hown as (Hv & Hle & Hbuf).
  assert (v !! this = Some (mkVector (mkRawMemory buf cap) (length xs))) as Hthis
    by (subst v; apply lookup_insert_eq).
  destruct Hbuf as [(b & -> & Hb0 & Hh)|(-> & -> & -> & ->)]; [|simpl in *; lia].
  assert (h !! b = Some (map Obj xs ++ replicate (cap - length xs) Raw)) as Hb
    by (subst h; apply lookup_insert_eq).
  destruct (fresh_insert_None h0 b (map Obj xs ++ replicate (cap - length xs) Raw))
    as [Hnb Hnbne]. rewrite <- Hh in Hnb, Hnbne.
  unfold buffer_after, capacity_after. simpl.
  pose proof (grown_gt (length xs)) as Hg.
  assert (length (take p xs) = p) as Hl1 by (rewrite length_take; lia).
  assert (length (drop p xs) = length xs - p) as Hl2 by apply length_drop.
  rewrite <- (take_drop p xs) in Hb at 1.
  set (l1 := take p xs) in *. set (l2 := drop p xs) in *.
  assert (l2 ≠ []) as Hne2 by (intros E; rewrite E in Hl2; simpl in Hl2; lia).
  unfold ptr_plus. simpl. rewrite <- Hl1.
  case_bool_decide as Hcap; simpl.
  - subst cap. rewrite Nat.sub_diag, app_nil_r in Hb.
    eexists. split; [eapply (Emplace_grow _ _ _ _ l1 l2 (length xs)); try done; lia|].
    unfold owns. simpl. rewrite length_app. simpl.
    replace (length l1 + S (length l2)) with (S (length xs)) by lia.
    subst v h. rewrite insert_insert_eq, delete_insert_id by done.
    repeat split; try done; lia.
  - destruct (exists_last Hne2) as (m & z & Hm).
    rewrite Hm in Hb, Hl2. rewrite length_app in Hl2. simpl in Hl2.
    eexists.
    split; [eapply (Emplace_inplace _ _ _ _ l1 m z (length xs) cap); try done; lia|].
    unfold owns. simpl. rewrite Hm, !length_app. simpl. rewrite length_app. simpl.
    replace (length l1 + S (length m + 1)) with (S (length xs)) by lia.
    subst v h. rewrite !insert_insert_eq.
    repeat split; try done; lia.
Qed.

Lemma Erase_owns s this xs cap buf h0 V0 p :
  owns s this xs cap buf h0 V0 →
  p < length xs →
  ∃ s',
    Erase this (ptr_plus buf p) s = Ok (ptr_plus buf p) s' ∧
    owns s' this (take p xs ++ drop (S p) xs) cap buf h0 V0.
Proof.
  destruct s as [h v l]. intros Hown Hp.
  apply owns_inv in Hown as (Hv & Hle & Hbuf).
  assert (v !! this = Some (mkVector (mkRawMemory buf cap) (length xs))) as Hthis
    by (subst v; apply lookup_insert_eq).
  destruct Hbuf as [(b & -> & Hb0 & Hh)|(-> & -> & -> & ->)]; [|simpl in *; lia].
  assert (h !! b = Some (map Obj xs ++ replicate (cap - length xs) Raw)) as Hb
    by (subst h; apply lookup_insert_eq).
  destruct (lookup_lt_is_Some_2 xs p Hp) as [z Hz].
  pose proof (take_drop_middle _ _ _ Hz) as Hsplit.
  assert (length (take p xs) = p) as Hl1 by (rewrite length_take; lia).
  assert (length (drop (S p) xs) = length xs - S p) as Hl2 by apply length_drop.
  set (l1 := take p xs) in *. set (l2 := drop (S p) xs) in *.
  destruct (length xs) as [|n] eqn:Hn; [lia|].
  rewrite <- Hsplit in Hb.
  unfold ptr_plus. rewrite <- Hl1. simpl.
  eexists. split; [eapply (Erase_middle _ _ _ _ l1 z l2 n cap); try done; lia|].
  unfold owns. simpl. rewrite length_app.
  replace (length l1 + length l2) with n by lia.
  subst v h. rewrite !insert_insert_eq.
  repeat split; try done; lia.
Qed.

Lemma run_op_owns s this xs cap buf h0 V0 o :
  owns s this xs cap buf h0 V0 →
  valid_op xs o = true →
  ∃ s' cap' buf',
    run_op this o s = Ok tt s' ∧ owns s' this (ref_op xs o) cap' buf' h0 V0.
Proof.
  intros Hown Hvalid.
  pose proof (owns_vector_is _ _ _ _ _ _ _ Hown) as (Hv & _).
  destruct o as [x|p x|p]; simpl in *.
  - destruct (EmplaceBack_owns s this xs cap buf h0 V0 (CopyOf (Outside x)) x Hown)
      as (s' & HE & Hown' & _); [done|].
    eexists s', _, _. split; [|exact Hown'].
    unfold PushBack. erewrite bind_Ok; [|exact HE]. done.
  - apply Nat.leb_le in Hvalid.
    destruct (Emplace_owns s this xs cap buf h0 V0 p (CopyOf (Outside x)) x Hown)
      as (s' & HE & Hown'); [done|done|].
    eexists s', _, _. split; [|exact Hown'].
    destruct s as [h v l]. simpl in Hv.
    erewrite bind_Ok; [|by apply begin_Ok]. simpl.
    unfold Insert. erewrite bind_Ok; [|exact HE]. done.
  - apply Nat.ltb_lt in Hvalid.
    destruct (Erase_owns s this xs cap buf h0 V0 p Hown) as (s' & HE & Hown'); [done|].
    eexists s', _, _. split; [|exact Hown'].
    destruct s as [h v l]. simpl in Hv.
    erewrite bind_Ok; [|by apply begin_Ok]. simpl.
    erewrite bind_Ok; [|exact HE]. done.
Qed.

Lemma run_ops_owns os : ∀ s this xs cap buf h0 V0,
  owns s this xs cap buf h0 V0 →
  valid_ops xs os = true →
  ∃ s' cap' buf',
    run_ops this os s = Ok tt s' ∧ owns s' this (ref_ops xs os) cap' buf' h0 V0.
Proof.
  induction os as [|o os IH]; intros s this xs cap buf h0 V0 Hown Hvalid.
  - by exists s, cap, buf.
  - simpl in Hvalid. apply andb_prop in Hvalid as [Ho Hos].
    destruct (run_op_owns _ _ _ _ _ _ _ _ Hown Ho) as (s1 & cap1 & buf1 & H1 & Hown1).
    destruct (IH _ _ _ _ _ _ _ Hown1 Hos) as (s' & cap' & buf' & H' & Hown').
    exists s', cap', buf'. split; [|exact Hown'].
    simpl. erewrite bind_Ok; [|exact H1]. exact H'.
Qed.

Lemma Vector_dtor_owns s this xs cap buf h0 V0 :
  owns s this xs cap buf h0 V0 →
  Vector_dtor this s
  = Ok tt (State h0 (delete this V0)
             (log s ++ events_at destroy_event buf (length xs) ++ dealloc_events buf)).
Proof.
  destruct s as [h v l]. intros Hown.
  apply owns_inv in Hown as (Hv & Hle & Hbuf).
  assert (v !! this = Some (mkVector (mkRawMemory buf cap) (length xs))) as Hthis
    by (subst v; apply lookup_insert_eq).
  unfold Vector_dtor.
  erewrite bind_Ok; [|by apply get_vec_Ok]. simpl.
  destruct Hbuf as [(b & -> & Hb0 & Hh)|(-> & -> & -> & ->)].
  - erewrite bind_Ok;
      [|eapply (destroy_n_Ok xs _ _ _ b 0 []); [done|subst h; apply lookup_insert_eq]].
    unfold RawMemory_dtor. simpl.
    erewrite bind_Ok; [|eapply Deallocate_Ok; apply lookup_insert_eq].
    unfold free_vec, set_vecs, dealloc_events. simpl. subst v h. f_equal. f_equal.
    + rewrite insert_insert_eq, delete_insert_eq. by apply delete_id.
    + apply delete_insert_eq.
    + list_eq.
  - simpl. rewrite !bind_ret.
    erewrite bind_Ok; [|apply Deallocate_null].
    unfold free_vec, set_vecs, dealloc_events. simpl.
    subst v. rewrite delete_insert_eq. by rewrite app_nil_r.
Qed.

Lemma vector_is_owns s this xs cap buf :
  vector_is s this xs cap buf →
  owns s this xs cap buf (heap_without (heap s) buf) (vecs s).
Proof.
  destruct s as [h v l]. intros Hvec.
  apply vector_is_inv in Hvec as (Hv & Hle & Hbuf).
  unfold owns, heap_without. simpl. split; [by rewrite insert_id|]. split; [done|].
  destruct Hbuf as [(b & -> & Hb)|(-> & -> & ->)]; simpl.
  - split; [done|]. split; [apply lookup_delete_eq|].
    by rewrite insert_delete_id.
  - done.
Qed.

(* a vector with another buffer, living in the frame, is untouched *)
Lemma owns_frame s s' this xs cap buf xs' cap' buf' h0 V0 other ys c bo :
  owns s this xs cap buf h0 V0 →
  owns s' this xs' cap' buf' h0 V0 →
  other ≠ this →
  disjoint_buffers buf bo →
  vector_is s other ys c bo →
  vector_is s' other ys c bo.
Proof.
  destruct s as [h v l], s' as [h' v' l'].
  intros Hown Hown' Hne Hdis Hvec.
  apply owns_inv in Hown as (-> & _ & Hbuf).
  apply owns_inv in Hown' as (-> & _ & Hbuf').
  apply vector_is_inv in Hvec as (Hv & Hle & Hbo).
  rewrite lookup_insert_ne in Hv by done.
  unfold vector_is, block_is. simpl. rewrite lookup_insert_ne by done.
  split; [done|]. split; [done|].
  destruct Hbo as [(b2 & -> & Hb2)|(-> & -> & ->)]; simpl; [|done].
  split; [done|].
  assert (h0 !! b2 = Some (map Obj ys ++ replicate (c - length ys) Raw)) as Hb2'.
  { destruct Hbuf as [(b & -> & Hb0 & ->)|(-> & _ & _ & ->)]; [|done].
    unfold disjoint_buffers in Hdis. simpl in Hdis.
    by rewrite lookup_insert_ne in Hb2. }
  destruct Hbuf' as [(b' & -> & Hb0' & ->)|(-> & _ & _ & ->)]; [|done].
  rewrite lookup_insert_ne; [done|]. intros ->. congruence.
Qed.

(** X1.  The destructor of a vector destroys exactly its live elements, the
    slots [0, size) in increasing order, then releases the buffer (nothing
    is released for a null buffer) and ends the object: heap and object
    store are left as the frame around the vector. *)
Theorem Vector_dtor_releases (s : state) (this : nat) (xs : list T) (cap : nat)
    (buf : ptr) (h0 : gmap nat (list slot)) (V0 : gmap nat Vector) :
  owns s this xs cap buf h0 V0 →
  ∃ s',
    Vector_dtor this s = Ok tt s' ∧
    heap s' = h0 ∧
    vecs s' = delete this V0 ∧
    log s' = log s ++ events_at destroy_event buf (length xs) ++ dealloc_events buf.
Proof.
  intros Hown. eexists. split; [by eapply Vector_dtor_owns|]. done.
Qed.

(** X2.  Construction, any valid sequence of push_back, insert and erase, and
    destruction leave the heap and the object store exactly as they were
    before the vector was constructed: every buffer the vector allocated has
    been released, and no other block or object has been touched. *)
Theorem lifetime_restores_state (os : list op) (s : state) :
  valid_ops [] os = true →
  ∃ s',
    (this ← Vector_default; run_ops this os;; Vector_dtor this) s = Ok tt s' ∧
    heap s' = heap s ∧
    vecs s' = vecs s.
Proof.
  intros Hvalid. destruct s as [h v l].
  assert (owns (State h (<[fresh (dom v) := mkVector RawMemory_default 0]> v) l)
            (fresh (dom v)) [] 0 nullptr h v) as Hown by done.
  destruct (run_ops_owns os _ _ _ _ _ _ _ Hown Hvalid)
    as (s1 & cap1 & buf1 & Hrun & Hown1).
  eexists. split.
  - erewrite bind_Ok; [|apply Vector_default_Ok].
    erewrite bind_Ok; [|exact Hrun].
    by eapply Vector_dtor_owns.
  - simpl. split; [done|]. apply delete_id, not_elem_of_dom, is_fresh.
Qed.

(** X3.  A valid sequence of push_back, insert and erase on one vector
    leaves every other vector that has a buffer of its own as it was: same
    members, same elements. *)
Theorem other_vector_unaffected (os : list op) (s : state) (this other : nat)
    (xs ys : list T) (cap c : nat) (buf bo : ptr) :
  vector_is s this xs cap buf →
  vector_is s other ys c bo →
  other ≠ this →
  disjoint_buffers buf bo →
  valid_ops xs os = true →
  ∃ s',
    run_ops this os s = Ok tt s' ∧
    traverse this s' = Ok (ref_ops xs os) s' ∧
    vector_is s' other ys c bo ∧
    traverse other s' = Ok ys s'.
Proof.
  intros Hvec Hother Hne Hdis Hvalid.
  pose proof (vector_is_owns _ _ _ _ _ Hvec) as Hown.
  destruct (run_ops_owns os _ _ _ _ _ _ _ Hown Hvalid)
    as (s' & cap' & buf' & Hrun & Hown').
  pose proof (owns_frame _ _ _ _ _ _ _ _ _ _ _ _ _ _ _ Hown Hown' Hne Hdis Hother)
    as Hother'.
  exists s'. split; [done|]. split; [|split; [done|]].
  - eapply traverse_Ok. by eapply owns_vector_is.
  - by eapply traverse_Ok.
Qed.

(** ** Constructors *)

(* a vector of the frame is still there beside the one that owns the rest *)
Lemma owns_frame_in s this xs cap buf h0 V0 l0 other ys c bo :
  owns s this xs cap buf h0 V0 →
  other ≠ this →
  vector_is (State h0 V0 l0) other ys c bo →
  vector_is s other ys c bo.
Proof.
  destruct s as [h v l]. intros Hown Hne Hvec.
  apply owns_inv in Hown as (-> & _ & Hbuf).
  apply vector_is_inv in Hvec as (Hv & Hle & Hbo).
  unfold vector_is, block_is. simpl. rewrite lookup_insert_ne by done.
  split; [done|]. split; [done|].
  destruct Hbo as [(b2 & -> & Hb2)|(-> & -> & ->)]; simpl; [|done].
  split; [done|].
  destruct Hbuf as [(b & -> & Hb0 & ->)|(-> & _ & _ & ->)]; [|done].
  rewrite lookup_insert_ne; [done|]. intros ->. congruence.
Qed.

Lemma Vector_n_owns n s :
  ∃ s',
    Vector_n n s = Ok (fresh (dom (vecs s))) s' ∧
    owns s' (fresh (dom (vecs s))) (replicate n value_initialized) n
      (buffer_new s n) (heap s) (vecs s) ∧
    log s' = log s ++ alloc_events s n
               ++ events_at EvValueConstruct (buffer_new s n) n.
Proof.
  destruct s as [h v l]. unfold Vector_n, buffer_new, alloc_events. simpl.
  destruct n as [|n].
  - eexists. split; [reflexivity|]. simpl. by rewrite app_nil_r.
  - rewrite decide_False by done. eexists. split.
    + erewrite bind_Ok; [|by apply RawMemory_new_Ok].
      erewrite bind_Ok; [|reflexivity].
      unfold set_vecs. simpl heap. simpl vecs. simpl log. unfold GetAddress, buffer_.
      erewrite bind_Ok; [reflexivity|].
      apply (uninitialized_value_construct_n_Ok (S n) _ _ _ _ _ [] []); [done|].
      rewrite lookup_insert_eq. by rewrite app_nil_r.
    + split; [|simpl; by rewrite <- app_assoc].
      unfold owns. simpl. rewrite length_replicate, Nat.sub_diag.
      split; [done|]. split; [lia|]. split; [done|]. split; [apply fresh_heap|].
      rewrite insert_insert_eq, map_replicate. simpl. by rewrite !app_nil_r.
Qed.

Lemma Vector_copy_owns s other ys c bo :
  vector_is s other ys c bo →
  ∃ s',
    Vector_copy other s = Ok (fresh (dom (vecs s))) s' ∧
    owns s' (fresh (dom (vecs s))) ys (length ys)
      (buffer_new s (length ys)) (heap s) (vecs s) ∧
    log s' = log s ++ alloc_events s (length ys)
               ++ events_at2 EvCopyConstruct bo (length ys)
                    (buffer_new s (length ys)).
Proof.
  destruct s as [h v l]. intros Hvec.
  apply vector_is_inv in Hvec as (Hv & Hle & Hbo).
  unfold Vector_copy, buffer_new, alloc_events. simpl.
  erewrite bind_Ok; [|by apply get_vec_Ok]. simpl.
  destruct Hbo as [(b & -> & Hb)|(-> & -> & ->)].
  - destruct ys as [|y ys].
    + eexists. split; [reflexivity|]. simpl. by rewrite app_nil_r.
    + rewrite decide_False by done. eexists. split.
      * erewrite bind_Ok; [|by apply RawMemory_new_Ok].
        erewrite bind_Ok; [|reflexivity].
        unfold set_vecs. simpl heap. simpl vecs. simpl log.
        unfold GetAddress, buffer_.
        erewrite bind_Ok; [reflexivity|].
        apply (uninitialized_copy_n_Ok (y :: ys) _ _ _ _ _ []
                 (replicate (c - length (y :: ys)) Raw) _ _ [] []); [|done|done|..].
        -- intros ->. by rewrite fresh_heap in Hb.
        -- rewrite lookup_insert_ne; [done|]. intros <-. by rewrite fresh_heap in Hb.
        -- rewrite lookup_insert_eq. by rewrite app_nil_r.
      * split; [|simpl; by rewrite <- app_assoc].
        unfold owns. simpl. rewrite Nat.sub_diag.
        split; [done|]. split; [lia|]. split; [done|]. split; [apply fresh_heap|].
        rewrite insert_insert_eq. simpl. by rewrite !app_nil_r.
  - eexists. split; [reflexivity|]. simpl. by rewrite app_nil_r.
Qed.

Lemma Swap_Ok h v l a b ba ca na bb cb nb :
  a ≠ b →
  v !! a = Some (mkVector (mkRawMemory ba ca) na) →
  v !! b = Some (mkVector (mkRawMemory bb cb) nb) →
  Swap a b (State h v l)
  = Ok tt (State h (<[b := mkVector (mkRawMemory ba ca) na]>
                      (<[a := mkVector (mkRawMemory bb cb) nb]> v))
             (l ++ [EvSetSize a nb; EvSetSize b na])).
Proof.
  intros Hne Ha Hb. unfold Swap.
  erewrite bind_Ok; [|by apply get_vec_Ok].
  erewrite bind_Ok; [|by apply get_vec_Ok]. simpl.
  erewrite bind_Ok; [|by eapply set_data_Ok]. simpl.
  erewrite bind_Ok; [|eapply set_data_Ok; by rewrite lookup_insert_ne]. simpl.
  erewrite bind_Ok; [|apply get_vec_Ok; rewrite lookup_insert_ne by done;
                       apply lookup_insert_eq].
  erewrite bind_Ok; [|apply get_vec_Ok; apply lookup_insert_eq]. simpl.
  erewrite bind_Ok; [|eapply set_size_Ok; rewrite lookup_insert_ne by done;
                       apply lookup_insert_eq]. simpl.
  erewrite set_size_Ok; [|rewrite lookup_insert_ne by done; apply lookup_insert_eq].
  simpl. rewrite <- app_assoc. simpl. do 2 f_equal.
  apply map_eq. intros i. rewrite !lookup_insert. repeat case_decide; congruence.
Qed.

(** X4.  Vector(n), for a representable request n, holds n value-initialised
    elements, its size and its capacity are both n, and it obtains exactly
    one block of n slots (none for n = 0); the heap and the object store are
    otherwise as before. *)
Theorem Vector_n_spec (n : nat) (s : state) :
  representable n →
  ∃ s' this,
    Vector_n n s = Ok this s' ∧
    owns s' this (replicate n value_initialized) n (buffer_new s n)
      (heap s) (vecs s) ∧
    traverse this s' = Ok (replicate n value_initialized) s' ∧
    Size this s' = Ok n s' ∧
    Capacity this s' = Ok n s' ∧
    log s' = log s ++ alloc_events s n
               ++ events_at EvValueConstruct (buffer_new s n) n.
Proof.
  intros _. destruct (Vector_n_owns n s) as (s' & Hrun & Hown & Hlog).
  pose proof (owns_vector_is _ _ _ _ _ _ _ Hown) as Hvec.
  exists s', (fresh (dom (vecs s))). split; [done|]. split; [done|].
  split; [by eapply traverse_Ok|]. split; [|split; [by eapply Capacity_Ok|done]].
  erewrite Size_Ok by done. by rewrite length_replicate.
Qed.

(** X5.  The copy constructor makes a deep copy: the new vector holds the
    elements of the source in a buffer of its own whose capacity is the
    source's size (not its capacity), each element copy-constructed in
    order; the source and everything else are unchanged. *)
Theorem Vector_copy_spec (s : state) (other : nat) (ys : list T) (c : nat)
    (bo : ptr) :
  vector_is s other ys c bo →
  ∃ s' this,
    Vector_copy other s = Ok this s' ∧
    this ≠ other ∧
    owns s' this ys (length ys) (buffer_new s (length ys)) (heap s) (vecs s) ∧
    vector_is s' other ys c bo ∧
    disjoint_buffers (buffer_new s (length ys)) bo ∧
    log s' = log s ++ alloc_events s (length ys)
               ++ events_at2 EvCopyConstruct bo (length ys)
                    (buffer_new s (length ys)).
Proof.
  intros Hvec. destruct (Vector_copy_owns _ _ _ _ _ Hvec) as (s' & Hrun & Hown & Hlog).
  assert (fresh (dom (vecs s)) ≠ other) as Hne.
  { intros <-. destruct Hvec as (Hv & _).
    pose proof (is_fresh (dom (vecs s))) as Hf. apply not_elem_of_dom in Hf.
    congruence. }
  exists s', (fresh (dom (vecs s))). split; [done|]. split; [done|].
  split; [done|]. split; [|split; [|done]].
  - destruct s as [h v l]. by eapply owns_frame_in.
  - unfold disjoint_buffers, buffer_new. case_decide; [done|]. simpl.
    destruct Hvec as (_ & _ & Hblk). unfold block_is in Hblk.
    destruct (blk bo) as [b2|]; [|done]. destruct Hblk as (_ & Hb2).
    intros <-. by rewrite fresh_heap in Hb2.
Qed.

(** X6.  After copy construction the copy and the source are independent:
    any valid sequence of push_back, insert and erase on the copy gives the
    copy the elements of the reference list, and the source still holds its
    elements in its buffer. *)
Theorem copy_is_independent (os : list op) (s : state) (other : nat)
    (ys : list T) (c : nat) (bo : ptr) :
  vector_is s other ys c bo →
  valid_ops ys os = true →
  ∃ s' this,
    (this ← Vector_copy other; run_ops this os;; mret this) s = Ok this s' ∧
    traverse this s' = Ok (ref_ops ys os) s' ∧
    vector_is s' other ys c bo ∧
    traverse other s' = Ok ys s'.
Proof.
  intros Hvec Hvalid.
  destruct (Vector_copy_owns _ _ _ _ _ Hvec) as (s1 & Hrun & Hown & Hlog).
  destruct (run_ops_owns os _ _ _ _ _ _ _ Hown Hvalid)
    as (s' & cap' & buf' & Hops & Hown').
  assert (other ≠ fresh (dom (vecs s))) as Hne.
  { intros ->. destruct Hvec as (Hv & _).
    pose proof (is_fresh (dom (vecs s))) as Hf. apply not_elem_of_dom in Hf.
    congruence. }
  assert (vector_is s' other ys c bo) as Hother.
  { destruct s as [h v l]. by eapply owns_frame_in. }
  exists s', (fresh (dom (vecs s))). split; [|split; [|split; [done|]]].
  - erewrite bind_Ok; [|exact Hrun]. erewrite bind_Ok; [|exact Hops]. done.
  - eapply traverse_Ok. by eapply owns_vector_is.
  - by eapply traverse_Ok.
Qed.

(** X7.  The move constructor gives the new vector the buffer, capacity and
    elements of the source and leaves the source empty, with size 0,
    capacity 0 and a null buffer; no element is constructed, copied, moved
    or destroyed and the heap is untouched. *)
Theorem Vector_move_spec (s : state) (other : nat) (ys : list T) (c : nat)
    (bo : ptr) :
  vector_is s other ys c bo →
  ∃ s' this,
    Vector_move other s = Ok this s' ∧
    this ≠ other ∧
    vector_is s' this ys c bo ∧
    vector_is s' other [] 0 nullptr ∧
    heap s' = heap s ∧
    vecs s' = <[other := mkVector RawMemory_default 0]>
                (<[this := mkVector (mkRawMemory bo c) (length ys)]> (vecs s)) ∧
    log s' = log s ++ [EvSetSize this (length ys); EvSetSize other 0].
Proof.
  destruct s as [h v l]. intros Hvec.
  assert (fresh (dom v) ≠ other) as Hne.
  { intros <-. destruct Hvec as (Hv & _). simpl in Hv.
    pose proof (is_fresh (dom v)) as Hf. apply not_elem_of_dom in Hf. congruence. }
  destruct Hvec as (Hv & Hle & Hblk). simpl in *.
  eexists _, (fresh (dom v)). split.
  - unfold Vector_move. erewrite bind_Ok; [|reflexivity].
    erewrite bind_Ok; [reflexivity|].
    unfold set_vecs. simpl.
    apply Swap_Ok; [done|apply lookup_insert_eq|by rewrite lookup_insert_ne].
  - split; [done|]. unfold vector_is. simpl.
    rewrite lookup_insert_ne, !lookup_insert_eq by done.
    rewrite insert_insert_eq. repeat split; done.
Qed.

(** ** Element access and the values the modifiers return *)

Lemma read_slot_vector_is s this xs cap buf i x :
  vector_is s this xs cap buf →
  xs !! i = Some x →
  read_slot (ptr_plus buf i) s = Some (Obj x).
Proof.
  destruct s as [h v l]. intros Hvec Hi.
  apply vector_is_inv in Hvec as (_ & _ & [(b & -> & Hb)|(-> & -> & _)]); [|done].
  unfold read_slot. simpl. rewrite Hb.
  apply lookup_app_l_Some. by rewrite list_lookup_fmap, Hi.
Qed.

Lemma load_vector_is s this xs cap buf i x :
  vector_is s this xs cap buf →
  xs !! i = Some x →
  load (ptr_plus buf i) s = Ok x s.
Proof.
  intros Hvec Hi. unfold load. by erewrite read_slot_vector_is.
Qed.

Lemma Vector_index_Ok s this xs cap buf i :
  vector_is s this xs cap buf →
  i < length xs →
  Vector_index this i s = Ok (ptr_plus buf i) s.
Proof.
  destruct s as [h v l]. intros (Hv & Hle & _) Hi. simpl in *.
  unfold Vector_index. erewrite bind_Ok; [|by apply get_vec_Ok]. simpl.
  rewrite bind_assert_true by (apply bool_decide_eq_true_2; lia).
  unfold RawMemory_index. simpl.
  rewrite bind_assert_true by (apply bool_decide_eq_true_2; lia). done.
Qed.

Lemma PopBack_vector_is s this xs z cap buf :
  vector_is s this (xs ++ [z]) cap buf →
  ∃ s',
    PopBack this s = Ok tt s' ∧
    vector_is s' this xs cap buf ∧
    log s' = log s ++ [EvDestroy (At (ptr_plus buf (length xs)));
                       EvSetSize this (length xs)].
Proof.
  destruct s as [h v l]. intros Hvec.
  apply vector_is_inv in Hvec as (Hv & Hle & Hbuf).
  rewrite length_app in Hv, Hle, Hbuf. simpl in Hv, Hle, Hbuf.
  destruct Hbuf as [(b & -> & Hb)|(_ & Hnil & _)];
    [|by destruct xs].
  replace (length xs + 1) with (S (length xs)) in Hv by lia.
  eexists. split.
  - apply (PopBack_Ok h v l this b cap (length xs) (map Obj xs) z
             (replicate (cap - (length xs + 1)) Raw)); [by rewrite length_map|done|].
    rewrite Hb. list_eq.
  - unfold vector_is, block_is. simpl. rewrite !lookup_insert_eq.
    split; [|done]. split; [done|]. split; [lia|]. split; [done|].
    f_equal. f_equal.
    rewrite (replicate_cons_minus Raw cap (length xs)) by lia.
    do 2 f_equal. lia.
Qed.

(** X8.  operator[] of Vector: for an index below the size it returns the
    address of that element in the buffer, and reading through it gives the
    element of that index; for any other index, also one below the capacity,
    the call is outside its contract. *)
Theorem Vector_index_spec (s : state) (this : nat) (xs : list T) (cap : nat)
    (buf : ptr) (i : nat) :
  vector_is s this xs cap buf →
  Vector_index this i s
  = (if decide (i < length xs) then Ok (ptr_plus buf i) s else UB) ∧
  (p ← Vector_index this i; load p) s
  = match xs !! i with Some x => Ok x s | None => UB end.
Proof.
  intros Hvec. destruct (decide (i < length xs)) as [Hi|Hi].
  - rewrite (Vector_index_Ok _ _ _ _ _ _ Hvec Hi). split; [done|].
    destruct (lookup_lt_is_Some_2 xs i Hi) as [x Hx]. rewrite Hx.
    erewrite bind_Ok; [|by eapply Vector_index_Ok]. by eapply load_vector_is.
  - rewrite (lookup_ge_None_2 xs i) by lia.
    assert (Vector_index this i s = UB) as HUB.
    { destruct s as [h v l]. destruct Hvec as (Hv & _). simpl in Hv.
      unfold Vector_index. erewrite bind_Ok; [|by apply get_vec_Ok]. simpl.
      by rewrite bool_decide_eq_false_2 by lia. }
    split; [done|]. unfold mbind, M_bind. by rewrite HUB.
Qed.

(** X9.  The reference EmplaceBack returns designates the new last element:
    it is the address operator[] gives for the index size - 1 afterwards,
    and it holds the constructed value, also when the call reallocated. *)
Theorem EmplaceBack_returns_last (s : state) (this : nat) (xs : list T)
    (cap : nat) (buf : ptr) (a : arg) (x : T) :
  vector_is s this xs cap buf →
  arg_yields s a x →
  ∃ s' p,
    EmplaceBack this a s = Ok p s' ∧
    Size this s' = Ok (S (length xs)) s' ∧
    Vector_index this (length xs) s' = Ok p s' ∧
    load p s' = Ok x s'.
Proof.
  intros Hvec Ha.
  destruct (EmplaceBack_Ok _ _ _ _ _ _ _ Hvec Ha) as (s' & Hrun & Hvec' & _).
  eexists s', _. split; [exact Hrun|]. split; [|split].
  - erewrite Size_Ok by done. rewrite length_app. simpl. f_equal. lia.
  - eapply Vector_index_Ok; [done|]. rewrite length_app. simpl. lia.
  - eapply load_vector_is; [done|]. by rewrite lookup_app_r, Nat.sub_diag.
Qed.

(** X10.  The iterator Emplace returns designates the inserted element: it
    is begin() + the offset of the position in the buffer the vector has
    afterwards, and it holds the constructed value. *)
Theorem Emplace_returns_position (s : state) (this : nat) (xs : list T)
    (cap : nat) (buf : ptr) (p : nat) (a : arg) (x : T) :
  vector_is s this xs cap buf →
  p ≤ length xs →
  arg_yields s a x →
  ∃ s' q,
    Emplace this (ptr_plus buf p) a s = Ok q s' ∧
    (first ← begin_ this; mret (ptr_plus first p)) s' = Ok q s' ∧
    Vector_index this p s' = Ok q s' ∧
    load q s' = Ok x s'.
Proof.
  intros Hvec Hp Ha.
  destruct (Emplace_Ok _ _ _ _ _ _ _ _ Hvec Hp Ha) as (s' & Hrun & Hvec' & _).
  eexists s', _. split; [exact Hrun|]. split; [|split].
  - destruct s' as [h' v' l']. destruct Hvec' as (Hv' & _). simpl in Hv'.
    erewrite bind_Ok; [|by apply begin_Ok]. done.
  - eapply Vector_index_Ok; [done|]. rewrite length_app, length_take. simpl. lia.
  - eapply load_vector_is; [done|].
    rewrite lookup_app_r by (rewrite length_take; lia).
    rewrite length_take. by replace (p - p `min` length xs) with 0 by lia.
Qed.

(** X11.  The iterator Erase returns for a position before the last element
    designates the element that followed the erased one; for the position
    of the last element it is the new end(). *)
Theorem Erase_returns_successor (s : state) (this : nat) (xs : list T)
    (cap : nat) (buf : ptr) (p : nat) :
  vector_is s this xs cap buf →
  p < length xs →
  ∃ s' q,
    Erase this (ptr_plus buf p) s = Ok q s' ∧
    match xs !! S p with
    | Some y => load q s' = Ok y s'
    | None => end_ this s' = Ok q s'
    end.
Proof.
  intros Hvec Hp.
  destruct (Erase_Ok _ _ _ _ _ _ Hvec Hp) as (s' & Hrun & Hvec' & _).
  eexists s', _. split; [exact Hrun|].
  destruct (xs !! S p) as [y|] eqn:Hy.
  - eapply load_vector_is; [done|].
    rewrite lookup_app_r by (rewrite length_take; lia).
    rewrite length_take, lookup_drop.
    by replace (S p + (p - p `min` length xs)) with (S p) by lia.
  - apply lookup_ge_None_1 in Hy.
    destruct s' as [h' v' l']. pose proof Hvec' as (Hv' & _). simpl in Hv'.
    erewrite end_Ok by done. simpl. do 2 f_equal.
    rewrite length_app, length_take, length_drop. lia.
Qed.

(** X12.  PopBack destroys the last element and decrements the size; the
    buffer, the capacity and the other elements stay.  On an empty vector
    the call is outside its contract. *)
Theorem PopBack_spec (s : state) (this : nat) (xs : list T) (cap : nat)
    (buf : ptr) :
  vector_is s this xs cap buf →
  match xs with
  | [] => PopBack this s = UB
  | _ :: _ =>
      ∃ s',
        PopBack this s = Ok tt s' ∧
        vector_is s' this (take (length xs - 1) xs) cap buf ∧
        log s' = log s ++ [EvDestroy (At (ptr_plus buf (length xs - 1)));
                           EvSetSize this (length xs - 1)]
  end.
Proof.
  intros Hvec. destruct xs as [|x0 xs0] using rev_ind.
  - destruct s as [h v l]. destruct Hvec as (Hv & _). simpl in Hv.
    unfold PopBack. erewrite bind_Ok; [|by apply get_vec_Ok]. done.
  - clear IHxs0.
    destruct (PopBack_vector_is _ _ _ _ _ _ Hvec) as (s' & Hrun & Hvec' & Hlog).
    assert (length (xs0 ++ [x0]) - 1 = length xs0) as Hlen
      by (rewrite length_app; simpl; lia).
    rewrite Hlen, take_app_length.
    destruct (xs0 ++ [x0]) eqn:E; [by destruct xs0|].
    by exists s'.
Qed.

(** X13.  PushBack followed by PopBack gives back the elements the vector
    had; the capacity and the buffer are those the PushBack left, so a
    growth is not undone. *)
Theorem PushBack_PopBack_round_trip (s : state) (this : nat) (xs : list T)
    (cap : nat) (buf : ptr) (value : operand) (x : T) :
  vector_is s this xs cap buf →
  arg_yields s (CopyOf value) x →
  ∃ s',
    (PushBack this value;; PopBack this) s = Ok tt s' ∧
    vector_is s' this xs (capacity_after (length xs) cap)
      (buffer_after s buf (length xs) cap) ∧
    traverse this s' = Ok xs s'.
Proof.
  intros Hvec Ha.
  destruct (EmplaceBack_Ok _ _ _ _ _ _ _ Hvec Ha) as (s1 & Hrun & Hvec1 & _).
  destruct (PopBack_vector_is _ _ _ _ _ _ Hvec1) as (s' & Hpop & Hvec' & _).
  exists s'. split; [|split; [done|by eapply traverse_Ok]].
  unfold PushBack. erewrite bind_Ok; [exact Hpop|].
  by erewrite bind_Ok.
Qed.

(** X14.  Erase at end() is not a no-op: on a non-empty vector it removes
    the last element, as PopBack does, and returns the new end(); on an
    empty vector the call is outside its contract. *)
Theorem Erase_at_end (s : state) (this : nat) (xs : list T) (cap : nat)
    (buf : ptr) :
  vector_is s this xs cap buf →
  match xs with
  | [] => Erase this (ptr_plus buf (length xs)) s = UB
  | _ :: _ =>
      ∃ s',
        Erase this (ptr_plus buf (length xs)) s
        = Ok (ptr_plus buf (length xs - 1)) s' ∧
        vector_is s' this (take (length xs - 1) xs) cap buf ∧
        end_ this s' = Ok (ptr_plus buf (length xs - 1)) s'
  end.
Proof.
  intros Hvec.
  assert (∀ k, (last ← cend this;
                if bool_decide (last = ptr_plus buf (length xs))
                then PopBack this;; end_ this else k last) s
               = (PopBack this;; end_ this) s) as Hend.
  { intros k. destruct s as [h v l]. destruct Hvec as (Hv & _). simpl in Hv.
    unfold cend. erewrite bind_Ok; [|by apply end_Ok]. simpl.
    by rewrite bool_decide_eq_true_2. }
  unfold Erase. rewrite Hend. clear Hend.
  destruct xs as [|x0 xs0] using rev_ind.
  - destruct s as [h v l]. destruct Hvec as (Hv & _). simpl in Hv.
    unfold PopBack. rewrite bind_assoc.
    erewrite bind_Ok; [|by apply get_vec_Ok]. done.
  - clear IHxs0.
    destruct (PopBack_vector_is _ _ _ _ _ _ Hvec) as (s' & Hrun & Hvec' & Hlog).
    assert (length (xs0 ++ [x0]) - 1 = length xs0) as Hlen
      by (rewrite length_app; simpl; lia).
    rewrite Hlen, take_app_length.
    destruct (xs0 ++ [x0]) eqn:E; [by destruct xs0|].
    assert (end_ this s' = Ok (ptr_plus buf (length xs0)) s') as Hend.
    { destruct s' as [h' v' l']. destruct Hvec' as (Hv' & _). simpl in Hv'.
      by erewrite end_Ok by done. }
    exists s'. split; [|done]. by erewrite bind_Ok.
Qed.

(** ** Reserve, growth and exceptions *)

Lemma push_within_capacity ys : ∀ s this xs cap buf,
  vector_is s this xs cap buf →
  length xs + length ys ≤ cap →
  ∃ s',
    run_ops this (map OpPushBack ys) s = Ok tt s' ∧
    vector_is s' this (xs ++ ys) cap buf ∧
    transfers (drop (length (log s)) (log s')) = [] ∧
    take (length (log s)) (log s') = log s.
Proof.
  induction ys as [|y ys IH]; intros s this xs cap buf Hvec Hle.
  - exists s. rewrite app_nil_r, drop_all, firstn_all. done.
  - simpl in Hle.
    destruct (EmplaceBack_Ok s this xs cap buf (CopyOf (Outside y)) y Hvec eq_refl)
      as (s1 & Hrun & Hvec1 & _ & Hlog1).
    unfold capacity_after, buffer_after, EmplaceBack_events in *.
    rewrite !bool_decide_eq_false_2 in * by lia.
    destruct (IH s1 this (xs ++ [y]) cap buf Hvec1)
      as (s' & Hrun' & Hvec' & Htr & Hpre).
    { rewrite length_app. simpl. lia. }
    exists s'. split; [|split].
    + simpl. unfold PushBack. rewrite bind_assoc.
      erewrite bind_Ok; [|exact Hrun]. done.
    + by rewrite <- app_assoc in Hvec'.
    + rewrite Hlog1, length_app in Htr, Hpre. simpl in Htr, Hpre.
      assert (log s'
              = (log s ++ [EvConstruct (CopyOf (Outside y))
                             (At (ptr_plus buf (length xs)));
                           EvSetSize this (S (length xs))])
                ++ drop (length (log s) + 2) (log s')) as Hs'.
      { rewrite <- Hpre at 1. by rewrite take_drop. }
      split.
      * rewrite Hs' at 1. rewrite <- app_assoc, drop_app_length. simpl. exact Htr.
      * rewrite Hs'. rewrite <- app_assoc. by rewrite take_app_length.
Qed.

(** X15.  Reserve keeps the elements and makes the capacity the larger of
    the old capacity and the request, a request that exceeds the capacity
    being representable; a request that does not exceed the capacity
    changes nothing at all, not even the log. *)
Theorem Reserve_spec (s : state) (this : nat) (xs : list T) (cap : nat)
    (buf : ptr) (new_capacity : nat) :
  vector_is s this xs cap buf →
  (cap < new_capacity → representable new_capacity) →
  ∃ s',
    Reserve this new_capacity s = Ok tt s' ∧
    vector_is s' this xs (cap `max` new_capacity)
      (buffer_reserved s buf cap new_capacity) ∧
    traverse this s' = Ok xs s' ∧
    Capacity this s' = Ok (cap `max` new_capacity) s' ∧
    (new_capacity ≤ cap → s' = s).
Proof.
  intros Hvec _.
  destruct (Reserve_Ok _ _ _ _ _ new_capacity Hvec) as (s' & Hrun & Hvec' & _).
  exists s'. split; [done|]. split; [done|].
  split; [by eapply traverse_Ok|]. split; [by eapply Capacity_Ok|].
  intros Hle. destruct s as [h v l]. destruct Hvec as (Hv & _). simpl in Hv.
  unfold Reserve in Hrun. erewrite bind_Ok in Hrun; [|by apply get_vec_Ok].
  simpl in Hrun. rewrite bool_decide_eq_true_2 in Hrun by done.
  by injection Hrun.
Qed.

(** X16.  After Reserve(n), with n representable when it exceeds the
    capacity, appending elements while the size stays within n never
    reallocates: the buffer and the capacity are those Reserve
    left, so addresses of elements stay valid, and no element is
    transferred. *)
Theorem Reserve_then_push_keeps_buffer (s : state) (this : nat) (xs ys : list T)
    (cap : nat) (buf : ptr) (n : nat) :
  vector_is s this xs cap buf →
  (cap < n → representable n) →
  length xs + length ys ≤ n →
  ∃ s1 s',
    Reserve this n s = Ok tt s1 ∧
    run_ops this (map OpPushBack ys) s1 = Ok tt s' ∧
    vector_is s' this (xs ++ ys) (cap `max` n) (buffer_reserved s buf cap n) ∧
    transfers (drop (length (log s1)) (log s')) = [].
Proof.
  intros Hvec _ Hle.
  destruct (Reserve_Ok _ _ _ _ _ n Hvec) as (s1 & Hrun & Hvec1 & _).
  destruct (push_within_capacity ys _ _ _ _ _ Hvec1) as (s' & Hrun' & Hvec' & Htr & _);
    [lia|].
  by exists s1, s'.
Qed.

Lemma transfers_EmplaceBack_events this buf n cap nb a :
  length (transfers (EmplaceBack_events this buf n cap nb a))
  = if bool_decide (n = cap) then n else 0.
Proof.
  unfold EmplaceBack_events. case_bool_decide; [|done].
  rewrite !transfers_app, transfers_transfer_events.
  rewrite transfers_events_at by done.
  rewrite !length_app, length_map, length_seq.
  unfold dealloc_events. destruct (blk buf); simpl; lia.
Qed.

(* the element transfers of a run of push_back calls: with those that built
   the capacity at the start they add up to the final capacity less one *)
Lemma push_all_transfers ys : ∀ s this xs cap buf,
  vector_is s this xs cap buf →
  ∃ s' cap' buf' evs,
    run_ops this (map OpPushBack ys) s = Ok tt s' ∧
    vector_is s' this (xs ++ ys) cap' buf' ∧
    log s' = log s ++ evs ∧
    length (transfers evs) + (cap - 1) = cap' - 1.
Proof.
  induction ys as [|y ys IH]; intros s this xs cap buf Hvec.
  - exists s, cap, buf, []. rewrite !app_nil_r. done.
  - destruct (EmplaceBack_Ok s this xs cap buf (CopyOf (Outside y)) y Hvec eq_refl)
      as (s1 & Hrun & Hvec1 & _ & Hlog1).
    destruct (IH s1 this (xs ++ [y]) _ _ Hvec1)
      as (s' & cap' & buf' & evs & Hrun' & Hvec' & Hlog' & Hcount).
    eexists s', cap', buf', _. split; [|split; [|split]].
    + simpl. unfold PushBack. rewrite bind_assoc.
      erewrite bind_Ok; [|exact Hrun]. done.
    + by rewrite <- app_assoc in Hvec'.
    + rewrite Hlog', Hlog1, <- app_assoc. reflexivity.
    + rewrite transfers_app, length_app, transfers_EmplaceBack_events.
      destruct Hvec as (_ & Hle & _).
      unfold capacity_after, grown in Hcount.
      repeat case_bool_decide; lia.
Qed.

(** X17.  Growth by doubling is amortised: building a vector of k elements
    by push_back from an empty vector transfers, over all reallocations
    together, exactly capacity - 1 elements (none when nothing was
    pushed), which is at most 2k. *)
Theorem push_back_amortised (ys : list T) (s : state) :
  ∃ s' this cap' evs,
    (this ← Vector_default; run_ops this (map OpPushBack ys);; mret this) s
    = Ok this s' ∧
    Capacity this s' = Ok cap' s' ∧
    traverse this s' = Ok ys s' ∧
    log s' = log s ++ evs ∧
    length (transfers evs) = cap' - 1 ∧
    length (transfers evs) ≤ 2 * length ys.
Proof.
  destruct s as [h v l].
  pose proof (vector_is_default h v l) as Hvec.
  destruct (push_all_transfers ys _ _ _ _ _ Hvec)
    as (s' & cap' & buf' & evs & Hrun & Hvec' & Hlog & Hcount).
  destruct (push_all_Ok ys _ _ _ _ _ Hvec) as (s2 & cap2 & buf2 & Hrun2 & Hvec2 & Hinv);
    [by left|].
  rewrite Hrun in Hrun2. injection Hrun2 as <-.
  assert (cap2 = cap') as ->.
  { destruct s' as [h' v' l']. destruct Hvec' as (Hv' & _), Hvec2 as (Hv2 & _).
    simpl in *. congruence. }
  exists s', (fresh (dom v)), cap', evs. split; [|split; [|split; [|split; [|split]]]].
  - erewrite bind_Ok; [|apply Vector_default_Ok].
    erewrite bind_Ok; [|exact Hrun]. done.
  - by eapply Capacity_Ok.
  - by eapply traverse_Ok.
  - done.
  - simpl in Hcount. lia.
  - simpl in *. destruct Hinv as [[? ?]|(j & -> & Hle & Hlt)]; lia.
Qed.

Lemma EmplaceBack_throw s this xs cap buf args :
  vector_is s this xs cap buf →
  construct args = None →
  ∃ s',
    EmplaceBack this (Make args) s = Throw s' ∧
    vecs s' = vecs s ∧ heap s' = heap s.
Proof.
  destruct s as [h v l]. intros Hvec Hthrow. pose proof Hvec as (Hv & _).
  simpl in Hv. pose proof (fresh_heap h) as Hnb.
  pose proof (grown_gt (length xs)) as Hg.
  unfold EmplaceBack.
  erewrite bind_Ok; [|by apply get_vec_Ok]. simpl.
  case_bool_decide as Hfull.
  - eexists. split.
    + fold (grown (length xs)).
      apply bind_Throw.
      erewrite bind_Ok; [|apply RawMemory_new_Ok; lia].
      apply bind_Throw. eapply unwinding_Throw.
      * apply bind_Throw. unfold construct_at. apply bind_Throw.
        simpl. rewrite Hthrow. reflexivity.
      * unfold RawMemory_dtor. simpl. eapply Deallocate_Ok.
        by rewrite lookup_insert_eq.
    + simpl. by rewrite delete_insert_id.
  - eexists. split.
    + apply bind_Throw. unfold construct_at. apply bind_Throw.
      simpl. rewrite Hthrow. reflexivity.
    + done.
Qed.

(** X18.  Emplace gives the strong exception guarantee when the constructor
    of the new element throws, at every position and on every path (at
    end(), in the middle with or without reallocation): the exception
    propagates, and the heap and the vector are exactly as before. *)
Theorem Emplace_throw_unchanged (s : state) (this : nat) (xs : list T)
    (cap : nat) (buf : ptr) (p : nat) (args : Args) :
  vector_is s this xs cap buf →
  p ≤ length xs →
  construct args = None →
  ∃ s',
    Emplace this (ptr_plus buf p) (Make args) s = Throw s' ∧
    vecs s' = vecs s ∧
    heap s' = heap s ∧
    vector_is s' this xs cap buf.
Proof.
  intros Hvec Hp Hthrow.
  assert (∃ s', Emplace this (ptr_plus buf p) (Make args) s = Throw s' ∧
                vecs s' = vecs s ∧ heap s' = heap s) as (s' & Hrun & Hv' & Hh').
  { destruct (EmplaceBack_throw _ _ _ _ _ _ Hvec Hthrow) as (sb & Hback & Hvb & Hhb).
    destruct s as [h v l]. pose proof Hvec as (Hv & _). simpl in Hv.
    pose proof (fresh_heap h) as Hnb.
    pose proof (grown_gt (length xs)) as Hg.
    unfold Emplace, cbegin, cend.
    erewrite bind_Ok; [|by apply begin_Ok]. simpl.
    rewrite (bind_lift_Some _ _ _ p) by apply ptr_distance_plus.
    erewrite bind_Ok; [|by apply end_Ok]. simpl.
    erewrite bind_Ok; [|by apply get_vec_Ok]. simpl.
    case_bool_decide as Hend.
    - exists sb. split; [|done]. apply bind_Throw. by apply bind_Throw.
    - case_bool_decide as Hfull.
      + eexists. split.
        * fold (grown (length xs)). apply bind_Throw.
          erewrite bind_Ok; [|apply RawMemory_new_Ok; lia].
          apply bind_Throw. eapply unwinding_Throw.
          -- apply bind_Throw. unfold construct_at. apply bind_Throw.
             simpl. rewrite Hthrow. reflexivity.
          -- unfold RawMemory_dtor. simpl. eapply Deallocate_Ok.
             by rewrite lookup_insert_eq.
        * simpl. by rewrite delete_insert_id.
      + eexists. split.
        * apply bind_Throw. apply bind_Throw. simpl. rewrite Hthrow. reflexivity.
        * done. }
  exists s'. split; [done|]. split; [done|]. split; [done|].
  destruct Hvec as (? & ? & ?). unfold vector_is. rewrite Hv', Hh'. done.
Qed.

(** ** Swap and the assignments *)

Lemma vector_is_fresh_ne s this xs cap buf :
  vector_is s this xs cap buf → fresh (dom (vecs s)) ≠ this.
Proof.
  intros (Hv & _) <-.
  pose proof (is_fresh (dom (vecs s))) as Hf. apply not_elem_of_dom in Hf.
  congruence.
Qed.

Lemma vector_is_block_ne s this xs cap b :
  vector_is s this xs cap (Ptr (Some b) 0) → fresh (dom (heap s)) ≠ b.
Proof.
  intros (_ & _ & Hblk) <-. destruct Hblk as (_ & Hb). simpl in Hb.
  by rewrite fresh_heap in Hb.
Qed.

(* a vector is where it was when its own members and block are *)
Lemma vector_is_same s s' this xs cap buf :
  vector_is s this xs cap buf →
  vecs s' !! this = vecs s !! this →
  (∀ b, blk buf = Some b → heap s' !! b = heap s !! b) →
  vector_is s' this xs cap buf.
Proof.
  intros (Hv & Hle & Hblk) Hvs Hhs. unfold vector_is, block_is in *.
  rewrite Hvs. split; [done|]. split; [done|].
  destruct (blk buf) as [b|]; [|done]. by rewrite Hhs.
Qed.

(** X19.  Swap exchanges the buffers, capacities and sizes of two distinct
    vectors: each then holds the elements of the other, in the other's
    buffer.  No element is constructed, copied, moved or destroyed and the
    heap is untouched. *)
Theorem Swap_spec (s : state) (this other : nat) (xs ys : list T)
    (cap c : nat) (buf bo : ptr) :
  vector_is s this xs cap buf →
  vector_is s other ys c bo →
  this ≠ other →
  ∃ s',
    Swap this other s = Ok tt s' ∧
    vector_is s' this ys c bo ∧
    vector_is s' other xs cap buf ∧
    heap s' = heap s ∧
    log s' = log s ++ [EvSetSize this (length ys); EvSetSize other (length xs)].
Proof.
  destruct s as [h v l]. intros (Hv & Hle & Hblk) (Hvo & Hleo & Hblko) Hne.
  simpl in *. eexists. split; [by apply Swap_Ok|].
  unfold vector_is. simpl.
  rewrite lookup_insert_ne, !lookup_insert_eq by done. done.
Qed.

(** X20.  Swapping twice restores both vectors: the object store and the
    heap are as before the first Swap.  This includes swapping a vector
    with itself, which changes nothing already the first time. *)
Theorem Swap_involutive (s : state) (this other : nat) :
  is_Some (vecs s !! this) →
  is_Some (vecs s !! other) →
  ∃ s',
    (Swap this other;; Swap this other) s = Ok tt s' ∧
    vecs s' = vecs s ∧
    heap s' = heap s ∧
    (this = other → ∃ s1, Swap this this s = Ok tt s1 ∧ vecs s1 = vecs s).
Proof.
  destruct s as [h v l]. simpl.
  intros [[[ba ca] na] Ha] [[[bb cb] nb] Hb].
  destruct (decide (this = other)) as [<-|Hne].
  - assert (∀ l, Swap this this (State h v l)
                 = Ok tt (State h v (l ++ [EvSetSize this na; EvSetSize this na])))
      as Hself.
    { clear Hb. intros l0. unfold Swap.
      erewrite bind_Ok; [|by apply get_vec_Ok].
      erewrite bind_Ok; [|by apply get_vec_Ok]. simpl.
      erewrite bind_Ok; [|by eapply set_data_Ok]. simpl.
      erewrite bind_Ok; [|eapply set_data_Ok; apply lookup_insert_eq]. simpl.
      rewrite insert_insert_eq.
      erewrite bind_Ok; [|apply get_vec_Ok; apply lookup_insert_eq].
      erewrite bind_Ok; [|apply get_vec_Ok; apply lookup_insert_eq]. simpl.
      erewrite bind_Ok; [|eapply set_size_Ok; apply lookup_insert_eq]. simpl.
      erewrite set_size_Ok; [|apply lookup_insert_eq].
      simpl. rewrite ?insert_insert_eq, <- ?app_assoc. simpl.
      by rewrite insert_id. }
    eexists. split; [|split; [|split]].
    + erewrite bind_Ok; [|apply Hself]. apply Hself.
    + done.
    + done.
    + intros _. eexists. split; [apply Hself|done].
  - eexists. split; [|split; [|split]].
    + erewrite bind_Ok; [|by apply Swap_Ok].
      apply Swap_Ok; [done| |].
      * rewrite lookup_insert_ne by done. apply lookup_insert_eq.
      * apply lookup_insert_eq.
    + simpl. apply map_eq. intros i. rewrite !lookup_insert.
      repeat case_decide; congruence.
    + done.
    + done.
Qed.

(** X21.  Move assignment exchanges the two vectors, so the elements the
    destination held are released when the source is destroyed: after
    a = std::move(b) and the destruction of b, a holds what b held, the
    former elements of a have been destroyed, its former buffer released,
    and the rest of the heap is unchanged. *)
Theorem move_assign_then_destroy (s : state) (this rhs : nat) (xs ys : list T)
    (cap c : nat) (buf bo : ptr) :
  vector_is s this xs cap buf →
  vector_is s rhs ys c bo →
  this ≠ rhs →
  disjoint_buffers buf bo →
  ∃ s',
    (Vector_move_assign this rhs;; Vector_dtor rhs) s = Ok tt s' ∧
    vector_is s' this ys c bo ∧
    heap s' = heap_without (heap s) buf ∧
    vecs s' = delete rhs
                (<[this := mkVector (mkRawMemory bo c) (length ys)]> (vecs s)) ∧
    log s' = log s ++ [EvSetSize this (length ys); EvSetSize rhs (length xs)]
               ++ events_at destroy_event buf (length xs) ++ dealloc_events buf.
Proof.
  intros Hvec Hrhs Hne Hdis.
  assert (∃ s1,
            Swap this rhs s = Ok tt s1 ∧
            vecs s1 = <[rhs := mkVector (mkRawMemory buf cap) (length xs)]>
                        (<[this := mkVector (mkRawMemory bo c) (length ys)]>
                           (vecs s)) ∧
            heap s1 = heap s ∧
            log s1 = log s ++ [EvSetSize this (length ys);
                               EvSetSize rhs (length xs)])
    as (s1 & Hswap & Hv1 & Hh1 & Hl1).
  { destruct s as [h v l]. destruct Hvec as (Hv & _), Hrhs as (Hvr & _). simpl in *.
    eexists. split; [by apply Swap_Ok|]. done. }
  assert (vector_is s1 rhs xs cap buf) as Hrhs1.
  { destruct Hvec as (Hv & Hle & Hblk). unfold vector_is.
    rewrite Hv1, Hh1, lookup_insert_eq. done. }
  pose proof (vector_is_owns _ _ _ _ _ Hrhs1) as Hown.
  pose proof (Vector_dtor_owns _ _ _ _ _ _ _ Hown) as Hdtor.
  eexists. split.
  { unfold Vector_move_assign. erewrite bind_Ok; [|exact Hswap]. exact Hdtor. }
  simpl. rewrite Hh1, Hv1, Hl1, delete_insert_eq, <- app_assoc.
  split; [|done].
  destruct Hrhs as (Hvr & Hler & Hblkr).
  unfold vector_is, block_is, heap_without. simpl.
  rewrite lookup_delete_ne, lookup_insert_eq by done.
  split; [done|]. split; [done|].
  unfold disjoint_buffers in Hdis. unfold block_is in Hblkr.
  destruct (blk bo) as [b2|]; [|done]. destruct (blk buf) as [b|]; [|done].
  by rewrite lookup_delete_ne.
Qed.

Lemma copy_n_Ok xs : ∀ zs h v l bs os spre spost bd od dpre dpost,
  length zs = length xs →
  bs ≠ bd → os = length spre → od = length dpre →
  h !! bs = Some (spre ++ map Obj xs ++ spost) →
  h !! bd = Some (dpre ++ map Obj zs ++ dpost) →
  copy_n (Ptr (Some bs) os) (length xs) (Ptr (Some bd) od) (State h v l)
  = Ok tt (State (<[bd := dpre ++ map Obj xs ++ dpost]> h) v
             (l ++ events_at2 EvCopyAssign (Ptr (Some bs) os) (length xs)
                     (Ptr (Some bd) od))).
Proof.
  induction xs as [|x xs IH];
    intros zs h v l bs os spre spost bd od dpre dpost Hlen Hne Hos Hod Hs Hd.
  - destruct zs; [|done]. simpl. unfold events_at2. simpl. rewrite app_nil_r.
    by rewrite insert_id.
  - destruct zs as [|z zs]; [done|]. simpl in *. unfold copy_assign.
    erewrite bind_Ok;
      [|erewrite bind_Ok; [|by eapply load_Ok];
        erewrite bind_Ok; [|by eapply store_Ok]; apply bind_emit].
    unfold ptr_plus; simpl.
    erewrite (IH zs _ _ _ bs (os + 1) (spre ++ [Obj x]) spost
                bd (od + 1) (dpre ++ [Obj x]) dpost);
      [|lia|done|len|len
       |rewrite lookup_insert_ne by done; rewrite Hs; f_equal; list_eq
       |rewrite lookup_insert_eq; f_equal; list_eq].
    rewrite insert_insert_eq, events_at2_S. do 2 f_equal; list_eq.
Qed.

(* copy assignment into a buffer that is large enough *)
Lemma Vector_assign_inplace h v l this rhs xs ys cap c buf bo :
  vector_is (State h v l) this xs cap buf →
  vector_is (State h v l) rhs ys c bo →
  this ≠ rhs →
  disjoint_buffers buf bo →
  length ys ≤ cap →
  ∃ h' l',
    Vector_assign this rhs (State h v l)
    = Ok tt (State h' (<[this := mkVector (mkRawMemory buf cap) (length ys)]> v) l') ∧
    block_is h' buf (map Obj ys ++ replicate (cap - length ys) Raw) ∧
    ∀ b, blk buf ≠ Some b → h' !! b = h !! b.
Proof.
  intros Hvec Hrhs Hne Hdis Hfits.
  apply vector_is_inv in Hvec as (Hv & Hle & Hbuf).
  apply vector_is_inv in Hrhs as (Hvr & Hler & Hbo).
  unfold Vector_assign. rewrite bool_decide_eq_true_2 by done.
  erewrite bind_Ok; [|by apply get_vec_Ok].
  erewrite bind_Ok; [|by apply get_vec_Ok]. simpl.
  rewrite bool_decide_eq_false_2 by lia.
  destruct (decide (ys = [])) as [->|Hys].
  - (* nothing to copy *)
    simpl. rewrite Nat.min_0_r. simpl. rewrite bind_ret.
    destruct Hbuf as [(b & -> & Hb)|(-> & -> & ->)].
    + case_bool_decide as Hlt.
      * rewrite Nat.sub_0_r. unfold ptr_plus. simpl.
        erewrite bind_Ok;
          [|apply (destroy_n_Ok xs _ _ _ b 0 [] (replicate (cap - length xs) Raw));
            [done|by rewrite Hb]].
        erewrite set_size_Ok by done. simpl.
        eexists _, _. split; [reflexivity|]. split.
        -- unfold block_is. simpl. rewrite lookup_insert_eq. split; [done|].
           f_equal. rewrite Nat.sub_0_r. symmetry. apply replicate_split. done.
        -- intros b' Hb'. rewrite lookup_insert_ne; [done|]. congruence.
      * assert (xs = []) as -> by (destruct xs; [done|simpl in Hlt; lia]).
        simpl. rewrite bind_ret. erewrite set_size_Ok by done. simpl.
        eexists _, _. split; [reflexivity|]. split; [|done].
        unfold block_is. simpl. done.
    + simpl. rewrite bind_ret. erewrite set_size_Ok by done. simpl.
      eexists _, _. split; [reflexivity|]. split; [|done]. done.
  - destruct Hbo as [(b2 & -> & Hb2)|(_ & -> & _)]; [|done].
    destruct Hbuf as [(b & -> & Hb)|(_ & _ & ->)];
      [|destruct ys; [done|simpl in Hfits; lia]].
    assert (b2 ≠ b) as Hbb by (intros ->; by apply Hdis).
    unfold GetAddress. simpl.
    case_bool_decide as Hlt.
    + (* the destination is longer: assign, then destroy the excess *)
      rewrite Nat.min_r by lia.
      erewrite bind_Ok;
        [|apply (copy_n_Ok ys (take (length ys) xs) _ _ _ b2 0 []
                   (replicate (c - length ys) Raw) b 0 []
                   (map Obj (drop (length ys) xs) ++ replicate (cap - length xs) Raw));
          [rewrite length_take; lia|done|done|done|by rewrite Hb2|]].
      2: { rewrite Hb. simpl. rewrite app_assoc, <- map_app, take_drop. done. }
      unfold ptr_plus. simpl.
      replace (length xs - length ys) with (length (drop (length ys) xs))
        by (rewrite length_drop; lia).
      erewrite bind_Ok;
        [|apply (destroy_n_Ok (drop (length ys) xs) _ _ _ b (length ys) (map Obj ys)
                   (replicate (cap - length xs) Raw));
          [by rewrite length_map|by rewrite lookup_insert_eq]].
      erewrite set_size_Ok by done. simpl.
      eexists _, _. split; [reflexivity|]. split.
      * unfold block_is. simpl. rewrite lookup_insert_eq. split; [done|].
        f_equal. f_equal. rewrite length_drop, <- replicate_add. f_equal. lia.
      * intros b' Hb'. rewrite !lookup_insert_ne; [done|congruence..].
    + (* the source is at least as long: assign, then construct the rest *)
      rewrite <- length_take.
      erewrite bind_Ok;
        [|apply (copy_n_Ok (take (length xs) ys) xs _ _ _ b2 0 []
                   (map Obj (drop (length xs) ys) ++ replicate (c - length ys) Raw)
                   b 0 [] (replicate (cap - length xs) Raw));
          [rewrite length_take; lia|done|done|done| |by rewrite Hb]].
      2: { rewrite Hb2. simpl. rewrite app_assoc, <- map_app, take_drop. done. }
      unfold ptr_plus. simpl.
      replace (length ys - length xs) with (length (drop (length xs) ys))
        by (rewrite length_drop; lia).
      erewrite bind_Ok;
        [|apply (uninitialized_copy_n_Ok (drop (length xs) ys) _ _ _ b2 (length xs)
                   (map Obj (take (length xs) ys)) (replicate (c - length ys) Raw)
                   b (length xs) (map Obj (take (length xs) ys))
                   (replicate (cap - length ys) Raw));
          [done|rewrite length_map, length_take; lia
           |rewrite length_map, length_take; lia| |]].
      2: { rewrite lookup_insert_ne by done. rewrite Hb2.
           rewrite app_assoc, <- map_app, take_drop. done. }
      2: { rewrite lookup_insert_eq. simpl. do 2 f_equal.
           rewrite length_drop, <- replicate_add. f_equal. lia. }
      erewrite set_size_Ok by done. simpl.
      eexists _, _. split; [reflexivity|]. split.
      * unfold block_is. simpl. rewrite lookup_insert_eq. split; [done|].
        f_equal. by rewrite app_assoc, <- map_app, take_drop.
      * intros b' Hb'. rewrite !lookup_insert_ne; [done|congruence..].
Qed.

(* copy assignment of more elements than the destination has slots for *)
Lemma Vector_assign_realloc s this rhs xs ys cap c buf bo :
  vector_is s this xs cap buf →
  vector_is s rhs ys c bo →
  this ≠ rhs →
  cap < length ys →
  ∃ s',
    Vector_assign this rhs s = Ok tt s' ∧
    vecs s' = <[this := mkVector (mkRawMemory (Ptr (Some (fresh (dom (heap s)))) 0)
                                    (length ys)) (length ys)]> (vecs s) ∧
    heap s' = <[fresh (dom (heap s)) := map Obj ys]> (heap_without (heap s) buf).
Proof.
  intros Hvec Hrhs Hne Hlt.
  destruct (Vector_copy_owns _ _ _ _ _ Hrhs) as (s1 & Hcopy & Hown1 & _).
  pose proof (vector_is_fresh_ne _ _ _ _ _ Hvec) as Hcp.
  destruct s as [h v l], s1 as [h1 v1 l1]. simpl in *.
  unfold buffer_new in Hown1. rewrite decide_False in Hown1 by lia. simpl in Hown1.
  apply owns_inv in Hown1 as (-> & _ & [(nb & Hnb & Hfree & ->)|(Hnull & _)]);
    [|done].
  injection Hnb as <-. rewrite Nat.sub_diag in *. simpl in *.
  rewrite app_nil_r in *.
  pose proof Hvec as (Hv & Hle & Hblk). pose proof Hrhs as (Hvr & _). simpl in *.
  set (cp := fresh (dom v)) in *. set (nb := fresh (dom h)) in *.
  set (vcp := mkVector (mkRawMemory (Ptr (Some nb) 0) (length ys)) (length ys)) in *.
  set (vthis := mkVector (mkRawMemory buf cap) (length xs)) in *.
  assert (vector_is (State (<[nb := map Obj ys]> h)
                       (<[cp := vthis]> (<[this := vcp]> (<[cp := vcp]> v)))
                       (l1 ++ [EvSetSize this (length ys); EvSetSize cp (length xs)]))
            cp xs cap buf) as Hcpvec.
  { unfold vector_is, block_is in *. simpl. rewrite lookup_insert_eq.
    split; [done|]. split; [done|].
    destruct (blk buf) as [b|]; [|done]. destruct Hblk as (Hoff & Hb).
    split; [done|]. rewrite lookup_insert_ne; [done|]. intros <-. congruence. }
  pose proof (Vector_dtor_owns _ _ _ _ _ _ _ (vector_is_owns _ _ _ _ _ Hcpvec))
    as Hdtor.
  eexists. split.
  - unfold Vector_assign. rewrite bool_decide_eq_true_2 by done.
    erewrite bind_Ok; [|by apply get_vec_Ok].
    erewrite bind_Ok; [|by apply get_vec_Ok]. simpl.
    rewrite bool_decide_eq_true_2 by lia.
    erewrite bind_Ok; [|exact Hcopy]. fold cp.
    erewrite bind_Ok; [exact Hdtor|].
    apply Swap_Ok; [done| |apply lookup_insert_eq].
    by rewrite lookup_insert_ne.
  - simpl. split.
    + apply map_eq. intros i. rewrite lookup_delete, !lookup_insert.
      repeat case_decide; subst; try congruence.
      symmetry. apply not_elem_of_dom, is_fresh.
    + unfold heap_without. destruct (blk buf) as [b|] eqn:Eb; [|done].
      rewrite delete_insert_ne; [done|].
      unfold block_is in Hblk. rewrite Eb in Hblk. destruct Hblk as (_ & Hb).
      intros <-. congruence.
Qed.

(** X22.  Copy assignment from another vector gives the destination the
    elements of the source and leaves the source as it was.  The buffer is
    kept when it has room for them: the capacity is then unchanged.
    Otherwise the destination gets a new buffer whose capacity is the
    source's size.  Assigning a vector to itself changes nothing. *)
Theorem Vector_assign_spec (s : state) (this rhs : nat) (xs ys : list T)
    (cap c : nat) (buf bo : ptr) :
  vector_is s this xs cap buf →
  vector_is s rhs ys c bo →
  this ≠ rhs →
  disjoint_buffers buf bo →
  ∃ s',
    Vector_assign this rhs s = Ok tt s' ∧
    vector_is s' this ys (assigned_capacity cap (length ys))
      (assigned_buffer s buf cap (length ys)) ∧
    vector_is s' rhs ys c bo ∧
    vecs s' = <[this := mkVector (mkRawMemory (assigned_buffer s buf cap (length ys))
                                    (assigned_capacity cap (length ys)))
                          (length ys)]> (vecs s) ∧
    Vector_assign rhs rhs s = Ok tt s.
Proof.
  intros Hvec Hrhs Hne Hdis.
  assert (Vector_assign rhs rhs s = Ok tt s) as Hself.
  { unfold Vector_assign. by rewrite bool_decide_eq_false_2 by (intros ?; done). }
  unfold assigned_capacity, assigned_buffer.
  case_bool_decide as Hlt.
  - destruct (Vector_assign_realloc _ _ _ _ _ _ _ _ _ Hvec Hrhs Hne Hlt)
      as (s' & Hrun & Hv' & Hh').
    exists s'. split; [done|]. split; [|split; [|done]].
    + unfold vector_is, block_is. rewrite Hv', Hh'. simpl.
      rewrite !lookup_insert_eq, Nat.sub_diag. simpl. by rewrite app_nil_r.
    + eapply vector_is_same; [exact Hrhs| |].
      * rewrite Hv'. by rewrite lookup_insert_ne.
      * intros b2 Hb2. rewrite Hh'.
        destruct Hrhs as (_ & _ & Hblk). unfold block_is in Hblk.
        rewrite Hb2 in Hblk. destruct Hblk as (_ & Hb2').
        rewrite lookup_insert_ne by (intros <-; by rewrite fresh_heap in Hb2').
        unfold heap_without. unfold disjoint_buffers in Hdis. rewrite Hb2 in Hdis.
        destruct (blk buf) as [b|]; [|done]. by rewrite lookup_delete_ne.
  - destruct s as [h v l].
    destruct (Vector_assign_inplace _ _ _ _ _ _ _ _ _ _ _ Hvec Hrhs Hne Hdis)
      as (h' & l' & Hrun & Hblk' & Hframe); [lia|].
    eexists. split; [exact Hrun|]. split; [|split; [|done]].
    + unfold vector_is. simpl. rewrite lookup_insert_eq. split; [done|].
      split; [lia|done].
    + eapply vector_is_same; [exact Hrhs| |]; simpl.
      * by rewrite lookup_insert_ne.
      * intros b2 Hb2. apply Hframe. unfold disjoint_buffers in Hdis.
        rewrite Hb2 in Hdis. destruct (blk buf) as [b|]; [|done].
        intros [= ->]. done.
Qed.

(** ** RawMemory, iterators and the order of element operations *)

Lemma Deallocate_owned s d :
  buffer_owned (heap s) d →
  Deallocate (buffer_ d) s
  = Ok tt (State (heap_without (heap s) (buffer_ d)) (vecs s)
             (log s ++ dealloc_events (buffer_ d))).
Proof.
  destruct s as [h v l], d as [[[b|] o] c];
    unfold buffer_owned, heap_without, dealloc_events; simpl.
  - intros (-> & [bl Hb]). by erewrite Deallocate_Ok.
  - intros ->. rewrite app_nil_r. done.
Qed.

(** X23.  RawMemory(n), for a representable request n, records the capacity
    n and obtains one block of n slots, or a null buffer and no block for
    n = 0: the block is the one the byte count computed in size_t gives.
    Its destructor releases what was obtained, leaving the heap as before. *)
Theorem RawMemory_lifetime (n : nat) (s : state) :
  0 < sizeof_T →
  representable n →
  ∃ d s1 s',
    RawMemory_new n s = Ok d s1 ∧
    Allocate_size_t n s = Ok (GetAddress d) s1 ∧
    RawMemory_Capacity d = n ∧
    GetAddress d = buffer_new s n ∧
    (GetAddress d = nullptr ↔ n = 0) ∧
    log s1 = log s ++ alloc_events s n ∧
    RawMemory_dtor d s1 = Ok tt s' ∧
    heap s' = heap s ∧
    vecs s' = vecs s ∧
    log s' = log s1 ++ dealloc_events (buffer_new s n).
Proof.
  intros Hpos Hfit. rewrite (Allocate_exact n s Hpos Hfit).
  destruct s as [h v l]. unfold buffer_new, alloc_events. simpl.
  destruct (decide (n = 0)) as [->|Hn].
  - eexists _, _, _. split; [reflexivity|]. simpl.
    rewrite !app_nil_r. repeat split; done.
  - eexists _, _, _. split; [by apply RawMemory_new_Ok|]. simpl.
    split; [by apply Allocate_Ok|].
    split; [done|]. split; [done|]. split; [done|]. split; [done|].
    split; [unfold RawMemory_dtor; simpl; eapply Deallocate_Ok;
            apply lookup_insert_eq|].
    simpl. split; [|done]. apply delete_insert_id, fresh_heap.
Qed.

(** X24.  Move construction of a RawMemory hands the buffer and the
    capacity over and leaves the source with a null buffer and capacity 0,
    so destroying both objects releases the block exactly once. *)
Theorem RawMemory_move_ctor_releases_once (s : state) (other : RawMemory) :
  buffer_owned (heap s) other →
  ∃ s',
    RawMemory_move_ctor other
    = (mkRawMemory (buffer_ other) (capacity_ other), RawMemory_default) ∧
    (RawMemory_dtor (snd (RawMemory_move_ctor other));;
     RawMemory_dtor (fst (RawMemory_move_ctor other))) s = Ok tt s' ∧
    heap s' = heap_without (heap s) (buffer_ other) ∧
    log s' = log s ++ dealloc_events (buffer_ other).
Proof.
  intros Hown. eexists. split; [done|]. split.
  - simpl. erewrite bind_Ok; [|apply Deallocate_null].
    unfold RawMemory_dtor. simpl.
    apply (Deallocate_owned s other Hown).
  - done.
Qed.

(** X25.  Move assignment of a RawMemory releases the block the destination
    held, gives the destination the buffer and the capacity of the source
    and nulls the buffer of the source; destroying both objects afterwards
    releases the block taken over exactly once, so that neither block is
    leaked or released twice. *)
Theorem RawMemory_move_assign_releases (s : state) (this rhs : RawMemory) :
  buffer_owned (heap s) this →
  buffer_owned (heap s) rhs →
  disjoint_buffers (buffer_ this) (buffer_ rhs) →
  ∃ s1 s',
    RawMemory_move_assign this rhs s
    = Ok (mkRawMemory (buffer_ rhs) (capacity_ rhs),
          mkRawMemory nullptr (capacity_ this)) s1 ∧
    heap s1 = heap_without (heap s) (buffer_ this) ∧
    log s1 = log s ++ dealloc_events (buffer_ this) ∧
    (RawMemory_dtor (mkRawMemory nullptr (capacity_ this));;
     RawMemory_dtor (mkRawMemory (buffer_ rhs) (capacity_ rhs))) s1 = Ok tt s' ∧
    heap s' = heap_without (heap_without (heap s) (buffer_ this)) (buffer_ rhs) ∧
    log s' = log s1 ++ dealloc_events (buffer_ rhs).
Proof.
  intros Hthis Hrhs Hdis.
  assert (∃ s1, RawMemory_move_assign this rhs s
                = Ok (mkRawMemory (buffer_ rhs) (capacity_ rhs),
                      mkRawMemory nullptr (capacity_ this)) s1 ∧
                heap s1 = heap_without (heap s) (buffer_ this) ∧
                vecs s1 = vecs s ∧
                log s1 = log s ++ dealloc_events (buffer_ this))
    as (s1 & Hrun & Hh1 & Hv1 & Hl1).
  { unfold RawMemory_move_assign. case_decide as Hnull.
    - erewrite bind_Ok; [|by apply Deallocate_owned]. eexists. split; [done|]. done.
    - assert (buffer_ this = nullptr) as Hn
        by (by destruct (decide (buffer_ this = nullptr))).
      exists s. split; [done|]. rewrite Hn. unfold heap_without, dealloc_events.
      simpl. by rewrite app_nil_r. }
  assert (buffer_owned (heap s1) (mkRawMemory (buffer_ rhs) (capacity_ rhs))) as Hrhs1.
  { rewrite Hh1. unfold buffer_owned, heap_without, disjoint_buffers in *. simpl.
    destruct (blk (buffer_ rhs)) as [b2|]; [|done].
    destruct Hrhs as (Hoff & Hb2). split; [done|].
    destruct (blk (buffer_ this)) as [b|]; [|done].
    by rewrite lookup_delete_ne. }
  exists s1. eexists. split; [exact Hrun|]. split; [done|]. split; [done|].
  split.
  - erewrite bind_Ok; [|apply Deallocate_null].
    unfold RawMemory_dtor.
    apply (Deallocate_owned s1 (mkRawMemory (buffer_ rhs) (capacity_ rhs)) Hrhs1).
  - simpl. by rewrite Hh1.
Qed.

(** X30.  Move assignment of a RawMemory to itself releases the block and
    leaves the object with a null buffer and the capacity it had: the
    storage is gone while the capacity still counts its slots.  The
    destructor then releases nothing, so the block is not released twice. *)
Theorem RawMemory_move_assign_self_spec (s : state) (this : RawMemory) :
  buffer_owned (heap s) this →
  ∃ s',
    RawMemory_move_assign_self this s
    = Ok (mkRawMemory nullptr (capacity_ this)) s' ∧
    heap s' = heap_without (heap s) (buffer_ this) ∧
    vecs s' = vecs s ∧
    log s' = log s ++ dealloc_events (buffer_ this) ∧
    RawMemory_dtor (mkRawMemory nullptr (capacity_ this)) s' = Ok tt s'.
Proof.
  intros Hown. unfold RawMemory_move_assign_self. case_decide as Hnull.
  - erewrite bind_Ok; [|by apply Deallocate_owned]. eexists. split; [done|]. done.
  - assert (buffer_ this = nullptr) as Hn
      by (by destruct (decide (buffer_ this = nullptr))).
    exists s. split; [done|]. rewrite Hn. unfold heap_without, dealloc_events.
    simpl. by rewrite app_nil_r.
Qed.

Lemma owns_unique s1 s2 this xs cap buf h0 V0 :
  owns s1 this xs cap buf h0 V0 →
  owns s2 this xs cap buf h0 V0 →
  heap s1 = heap s2 ∧ vecs s1 = vecs s2.
Proof.
  destruct s1 as [h1 v1 l1], s2 as [h2 v2 l2]. intros H1 H2.
  apply owns_inv in H1 as (-> & _ & Hb1). apply owns_inv in H2 as (-> & _ & Hb2).
  simpl. split; [|done].
  destruct Hb1 as [(b & -> & _ & ->)|(-> & _ & _ & ->)];
    destruct Hb2 as [(b' & Hb' & _ & ->)|(Hb' & _ & _ & ->)]; try done.
  by injection Hb' as <-.
Qed.

(** X26.  The overloads PushBack(T&&) and Insert(pos, T&&), given an object
    outside the vector, leave the vector and the heap exactly as the
    const T& overloads do; they differ in the constructor selected for the
    new element, which is the move constructor. *)
Theorem rvalue_overloads (s : state) (this : nat) (xs : list T) (cap : nat)
    (buf : ptr) (p : nat) (x : T) :
  vector_is s this xs cap buf →
  p ≤ length xs →
  ∃ s1 s2 s3 s4 q,
    PushBack this (Outside x) s = Ok tt s1 ∧
    PushBack_move this (Outside x) s = Ok tt s2 ∧
    heap s2 = heap s1 ∧ vecs s2 = vecs s1 ∧
    vector_is s2 this (xs ++ [x]) (capacity_after (length xs) cap)
      (buffer_after s buf (length xs) cap) ∧
    log s2 = log s ++ EmplaceBack_events this buf (length xs) cap
                        (fresh (dom (heap s))) (MoveOf (Outside x)) ∧
    Insert this (ptr_plus buf p) (Outside x) s = Ok q s3 ∧
    Insert_move this (ptr_plus buf p) (Outside x) s = Ok q s4 ∧
    heap s4 = heap s3 ∧ vecs s4 = vecs s3 ∧
    vector_is s4 this (take p xs ++ x :: drop p xs) (capacity_after (length xs) cap)
      (buffer_after s buf (length xs) cap).
Proof.
  intros Hvec Hp. pose proof (vector_is_owns _ _ _ _ _ Hvec) as Hown.
  destruct (EmplaceBack_owns _ _ _ _ _ _ _ (CopyOf (Outside x)) x Hown eq_refl)
    as (s1 & Hrun1 & Hown1 & _).
  destruct (EmplaceBack_owns _ _ _ _ _ _ _ (MoveOf (Outside x)) x Hown eq_refl)
    as (s2 & Hrun2 & Hown2 & Hlog2).
  destruct (Emplace_owns _ _ _ _ _ _ _ p (CopyOf (Outside x)) x Hown Hp eq_refl)
    as (s3 & Hrun3 & Hown3).
  destruct (Emplace_owns _ _ _ _ _ _ _ p (MoveOf (Outside x)) x Hown Hp eq_refl)
    as (s4 & Hrun4 & Hown4).
  destruct (owns_unique _ _ _ _ _ _ _ _ Hown2 Hown1) as (Hh21 & Hv21).
  destruct (owns_unique _ _ _ _ _ _ _ _ Hown4 Hown3) as (Hh43 & Hv43).
  exists s1, s2, s3, s4. eexists.
  split; [unfold PushBack; by erewrite bind_Ok|].
  split; [unfold PushBack_move; by erewrite bind_Ok|].
  split; [done|]. split; [done|].
  split; [by eapply owns_vector_is|]. split; [done|].
  split; [exact Hrun3|]. split; [exact Hrun4|].
  split; [done|]. split; [done|]. by eapply owns_vector_is.
Qed.

(** X27.  begin() is the buffer and end() is the buffer advanced by the
    size, for the const overloads and cbegin(), cend() alike; the distance
    from begin() to end() is the size, and the two coincide exactly for an
    empty vector. *)
Theorem iterator_range (s : state) (this : nat) (xs : list T) (cap : nat)
    (buf : ptr) :
  vector_is s this xs cap buf →
  begin_ this s = Ok buf s ∧
  end_ this s = Ok (ptr_plus buf (length xs)) s ∧
  cbegin this s = Ok buf s ∧
  cend this s = Ok (ptr_plus buf (length xs)) s ∧
  (first ← begin_ this; last ← end_ this; lift (ptr_distance first last)) s
  = Ok (length xs) s ∧
  (ptr_plus buf (length xs) = buf ↔ xs = []).
Proof.
  destruct s as [h v l]. intros (Hv & _). simpl in Hv.
  assert (begin_ this (State h v l) = Ok buf (State h v l)) as Hbegin
    by (by erewrite begin_Ok by done).
  assert (end_ this (State h v l) = Ok (ptr_plus buf (length xs)) (State h v l))
    as Hend by (by erewrite end_Ok by done).
  split; [done|]. split; [done|]. split; [done|]. split; [done|]. split.
  - erewrite bind_Ok; [|exact Hbegin]. erewrite bind_Ok; [|exact Hend].
    by rewrite ptr_distance_plus.
  - destruct buf as [bk o]. unfold ptr_plus. simpl. split.
    + intros [= Ho]. destruct xs; [done|simpl in Ho; lia].
    + intros ->. simpl. f_equal. lia.
Qed.

(** X28.  Erase before the last element shifts the elements that follow the
    position one slot to the left by move assignment, from front to back,
    then destroys the last slot and decrements the size; it constructs
    nothing, and the buffer and the capacity stay. *)
Theorem Erase_shifts_left (s : state) (this : nat) (xs : list T) (cap : nat)
    (buf : ptr) (p : nat) :
  vector_is s this xs cap buf →
  p < length xs →
  ∃ s',
    Erase this (ptr_plus buf p) s = Ok (ptr_plus buf p) s' ∧
    vector_is s' this (take p xs ++ drop (S p) xs) cap buf ∧
    log s' = log s
      ++ map (λ i, EvMoveAssign (At (ptr_plus buf (p + 1 + i))) (ptr_plus buf (p + i)))
           (seq 0 (length xs - p - 1))
      ++ [EvDestroy (At (ptr_plus buf (length xs - 1)));
          EvSetSize this (length xs - 1)].
Proof.
  intros Hvec Hp.
  destruct (Erase_Ok _ _ _ _ _ _ Hvec Hp) as (s' & Hrun & Hvec' & Hlog).
  exists s'. split; [done|]. split; [done|].
  rewrite Hlog. unfold Erase_events, events_at2. do 2 f_equal.
  apply map_ext. intros i. by rewrite !ptr_plus_plus.
Qed.

(** X29.  push_back of an element of the vector itself appends a copy of
    that element, also when the call reallocates: the new element is
    constructed from the old buffer before the elements are transferred. *)
Theorem PushBack_own_element (s : state) (this : nat) (xs : list T) (cap : nat)
    (buf : ptr) (i : nat) (x : T) :
  vector_is s this xs cap buf →
  xs !! i = Some x →
  ∃ s',
    PushBack this (Inside (ptr_plus buf i)) s = Ok tt s' ∧
    vector_is s' this (xs ++ [x]) (capacity_after (length xs) cap)
      (buffer_after s buf (length xs) cap) ∧
    traverse this s' = Ok (xs ++ [x]) s'.
Proof.
  intros Hvec Hi.
  assert (arg_yields s (CopyOf (Inside (ptr_plus buf i))) x) as Ha
    by (by eapply read_slot_vector_is).
  destruct (EmplaceBack_Ok _ _ _ _ _ _ _ Hvec Ha) as (s' & Hrun & Hvec' & _).
  exists s'. split; [|split; [done|by eapply traverse_Ok]].
  unfold PushBack. by erewrite bind_Ok.
Qed.

End Model.

Arguments Ok {T ET A} a s.
Arguments Throw {T ET A} s.
Arguments UB {T ET A}.

(** * The model on concrete inputs *)

(** C5.  Move assignment of RawMemory does not leave its source empty.
    With [RawMemory<int> a(2), b(3); a = std::move(b);] the destination [a]
    takes over the buffer and the capacity 3 of [b], and [b] is left with a
    null buffer but with capacity 2, the capacity [a] had. *)
Theorem RawMemory_move_assign_source_not_empty :
  match
    (a ← RawMemory_new 2; b ← RawMemory_new 3; RawMemory_move_assign a b)
      (empty_state (T := nat))
  with
  | Ok (a, b) _ =>
      a = mkRawMemory (Ptr (Some 1) 0) 3 ∧
      buffer_ b = nullptr ∧ capacity_ b = 2 ∧ capacity_ b ≠ 0
  | _ => False
  end.
Proof. vm_compute. repeat split; lia. Qed.

(** The scenario of the specification: three push_back calls on an empty
    vector, an erase at the position of the value 2 and an insert at the
    start, with size, capacity and traversal observed after each step. *)
Example scenario_push_erase_insert :
  match
    (this ← Vector_default;
     n0 ← Size this; c0 ← Capacity this;
     PushBack this (Outside 1);; n1 ← Size this; c1 ← Capacity this;
     PushBack this (Outside 2);; n2 ← Size this; c2 ← Capacity this;
     PushBack this (Outside 3);; n3 ← Size this; c3 ← Capacity this;
     first ← begin_ this; Erase this (ptr_plus first 1);;
     l4 ← traverse this; n4 ← Size this;
     first ← begin_ this; Insert this first (Outside 0);;
     l5 ← traverse this; n5 ← Size this;
     mret ([(n0, c0); (n1, c1); (n2, c2); (n3, c3)], (l4, n4), (l5, n5)))
      (empty_state (T := nat))
  with
  | Ok r _ => r = ([(0, 0); (1, 1); (2, 2); (3, 4)], ([1; 3], 2), ([0; 1; 3], 3))
  | _ => False
  end.
Proof. vm_compute. reflexivity. Qed.

(** Resize(5) on 1, 2, 3 and then Resize(1). *)
Example scenario_resize :
  match
    (this ← Vector_default;
     PushBack this (Outside 1);; PushBack this (Outside 2);;
     PushBack this (Outside 3);;
     Resize this 5;; l1 ← traverse this; n1 ← Size this; c1 ← Capacity this;
     Resize this 1;; l2 ← traverse this; n2 ← Size this; c2 ← Capacity this;
     mret ((l1, n1, c1), (l2, n2, c2)))
      (empty_state (T := nat))
  with
  | Ok r _ => r = (([1; 2; 3; 0; 0], 5, 5), ([1], 1, 5))
  | _ => False
  end.
Proof. vm_compute. reflexivity. Qed.

(** With an element type whose move empties its source, inserting a copy of
    the last element at the front of a vector with spare capacity still
    inserts the value read before the shift. *)
Example scenario_insert_own_element :
  match
    (this ← Vector_default;
     PushBack this (Outside 1%Z);; PushBack this (Outside 2%Z);;
     PushBack this (Outside 3%Z);;
     first ← begin_ this;
     Insert this first (Inside (ptr_plus first 2));;
     traverse this)
      (empty_state (T := Z))
  with
  | Ok r _ => r = [3%Z; 1%Z; 2%Z; 3%Z]
  | _ => False
  end.
Proof. vm_compute. reflexivity. Qed.

(** Past the bound the byte count wraps: for a 4-byte element type a request
    for 2^62 elements is a request for 0 bytes, and the block obtained has
    no slot, while the caller records the capacity 2^62. *)
Example Allocate_size_t_wraps (s : state (T := nat)) :
  Allocate_size_t (T := nat) (Z.to_nat (2 ^ 62)) s
  = Ok (Ptr (Some (fresh (dom (heap s)))) 0)
       (State (<[fresh (dom (heap s)) := []]> (heap s)) (vecs s)
              (log s ++ [EvAllocate (fresh (dom (heap s))) 0])).
Proof.
  unfold Allocate_size_t. rewrite decide_True by lia.
  rewrite Z2Nat.id by lia.
  change (Z.of_nat sizeof_T) with 4%Z.
  replace ((2 ^ 62 * 4) `mod` (SIZE_MAX + 1))%Z with 0%Z by reflexivity.
  reflexivity.
Qed.

(** A vector of [int] holding 1, 2, 3 in a buffer of four slots, and a full
    vector holding 1, 2, both at location 0 of the object store. *)

Abbreviation sample3 :=
  (State (T := nat) {[2 := [Obj 1; Obj 2; Obj 3; Raw]]}
         {[0 := mkVector (mkRawMemory (Ptr (Some 2) 0) 4) 3]} []).
Abbreviation full2 :=
  (State (T := nat) {[1 := [Obj 1; Obj 2]]}
         {[0 := mkVector (mkRawMemory (Ptr (Some 1) 0) 2) 2]} []).

Lemma sample3_is : vector_is sample3 0 [1; 2; 3] 4 (Ptr (Some 2) 0).
Proof. repeat split; simpl; lia. Defined.

Lemma full2_is : vector_is full2 0 [1; 2] 2 (Ptr (Some 1) 0).
Proof. repeat split; simpl; lia. Defined.

Lemma traversal_matches_reference_witness :
  valid_ops (T := nat) []
    [OpPushBack 1; OpPushBack 2; OpPushBack 3; OpErase 1; OpInsert 0 0] = true ∧
  ∃ s',
    (this ← Vector_default;
     run_ops this [OpPushBack 1; OpPushBack 2; OpPushBack 3; OpErase 1; OpInsert 0 0];;
     traverse this) empty_state
    = Ok (ref_ops [] [OpPushBack 1; OpPushBack 2; OpPushBack 3; OpErase 1; OpInsert 0 0])
         s'.
Proof.
  split; [reflexivity|].
  apply (traversal_matches_reference
           [OpPushBack 1; OpPushBack 2; OpPushBack 3; OpErase 1; OpInsert 0 0]
           empty_state).
  reflexivity.
Defined.

Lemma erase_after_insert_witness :
  vector_is sample3 0 [1; 2; 3] 4 (Ptr (Some 2) 0) ∧
  1 ≤ length [1; 2; 3] ∧
  ∃ s',
    (first ← begin_ 0;
     it ← Insert 0 (ptr_plus first 1) (Outside 9);
     Erase 0 it;;
     traverse 0) sample3
    = Ok [1; 2; 3] s' ∧
    Size 0 s' = Ok (length [1; 2; 3]) s'.
Proof.
  split; [exact sample3_is|]. split; [simpl; lia|].
  apply (erase_after_insert sample3 0 [1; 2; 3] 4 (Ptr (Some 2) 0) 1 9 sample3_is).
  simpl; lia.
Defined.

Lemma EmplaceBack_throw_unchanged_witness :
  vector_is (T := Z)
    (State {[1 := [Obj 1%Z; Obj 2%Z]]}
           {[0 := mkVector (mkRawMemory (Ptr (Some 1) 0) 2) 2]} [])
    0 [1%Z; 2%Z] 2 (Ptr (Some 1) 0) ∧
  length [1%Z; 2%Z] = 2 ∧
  construct (T := Z) 0%Z = None ∧
  ∃ s',
    EmplaceBack 0 (Make 0%Z)
      (State {[1 := [Obj 1%Z; Obj 2%Z]]}
             {[0 := mkVector (mkRawMemory (Ptr (Some 1) 0) 2) 2]} [])
    = Throw s' ∧
    vecs s' = {[0 := mkVector (mkRawMemory (Ptr (Some 1) 0) 2) 2]} ∧
    heap s' = {[1 := [Obj 1%Z; Obj 2%Z]]} ∧
    vector_is s' 0 [1%Z; 2%Z] 2 (Ptr (Some 1) 0) ∧
    log s' = [] ++ [EvAllocate (fresh (dom ({[1 := [Obj 1%Z; Obj 2%Z]]}
                                             : gmap nat (list slot))))
                      (grown (length [1%Z; 2%Z]));
                    EvDeallocate (fresh (dom ({[1 := [Obj 1%Z; Obj 2%Z]]}
                                               : gmap nat (list slot))))].
Proof.
  assert (vector_is (T := Z)
            (State {[1 := [Obj 1%Z; Obj 2%Z]]}
                   {[0 := mkVector (mkRawMemory (Ptr (Some 1) 0) 2) 2]} [])
            0 [1%Z; 2%Z] 2 (Ptr (Some 1) 0)) as H.
  { repeat split; simpl; lia. }
  split; [exact H|]. split; [reflexivity|]. split; [reflexivity|].
  apply (EmplaceBack_throw_unchanged (ET := throwing_element) _ 0 [1%Z; 2%Z] 2
           (Ptr (Some 1) 0) 0%Z H); reflexivity.
Defined.

(** A full vector of the element type whose move empties its source,
    holding 1, 2, and the same once its first element has been moved from. *)
Abbreviation fullZ :=
  (State (T := Z) {[1 := [Obj 1%Z; Obj 2%Z]]}
         {[0 := mkVector (mkRawMemory (Ptr (Some 1) 0) 2) 2]} []).
Abbreviation fullZ_moved :=
  (State (T := Z) {[1 := [Obj 0%Z; Obj 2%Z]]}
         {[0 := mkVector (mkRawMemory (Ptr (Some 1) 0) 2) 2]} []).

Lemma fullZ_moved_is : vector_is fullZ_moved 0 [0%Z; 2%Z] 2 (Ptr (Some 1) 0).
Proof. repeat split; simpl; lia. Defined.

Lemma transfer_policy_witness :
  (call_arg_evaluates fullZ (CallEmplace (T := Z) 1
      (MoveOf (Inside (Ptr (Some 1) 0)))) 1%Z fullZ_moved) ∧
  (vector_is fullZ_moved 0 [0%Z; 2%Z] 2 (Ptr (Some 1) 0)) ∧
  (reallocates (length [0%Z; 2%Z]) 2 (CallEmplace (T := Z) 1
      (MoveOf (Inside (Ptr (Some 1) 0)))) = true) ∧
  (call_representable (CallEmplace (T := Z) 1
      (MoveOf (Inside (Ptr (Some 1) 0))))) ∧
  (∃ s' evs,
    run_realloc_call 0 (CallEmplace (T := Z) 1
        (MoveOf (Inside (Ptr (Some 1) 0)))) fullZ = Ok tt s' ∧
    log s' = log fullZ ++ evs ∧
    evs = realloc_events 0 (Ptr (Some 1) 0) (length [0%Z; 2%Z]) 2
        (fresh (dom (heap fullZ))) (CallEmplace (T := Z) 1
        (MoveOf (Inside (Ptr (Some 1) 0)))) ∧
    transfers evs
    = map (λ i, (is_nothrow_move_constructible (T := Z) || negb
        (is_copy_constructible (T := Z)),
                 ptr_plus (Ptr (Some 1) 0) i,
                 Ptr (Some (fresh (dom (heap fullZ))))
                     (new_offset (CallEmplace (T := Z) 1
                     (MoveOf (Inside (Ptr (Some 1) 0)))) i)))
        (seq 0 (length [0%Z; 2%Z])) ∧
    vector_is s' 0 (elements_after (CallEmplace (T := Z) 1
        (MoveOf (Inside (Ptr (Some 1) 0)))) [0%Z; 2%Z] 1%Z)
        (realloc_capacity (length [0%Z; 2%Z])
        (CallEmplace (T := Z) 1 (MoveOf (Inside (Ptr (Some 1) 0)))))
      (Ptr (Some (fresh (dom (heap fullZ)))) 0)).
Proof.
  split; [reflexivity|].
  split; [exact fullZ_moved_is|].
  split; [reflexivity|].
  split; [exact I|].
  apply (transfer_policy (ET := throwing_element)
           fullZ 0 [0%Z; 2%Z] 2 (Ptr (Some 1) 0)
               (CallEmplace (T := Z) 1 (MoveOf (Inside (Ptr (Some 1) 0)))) 1%Z
               fullZ_moved);
    [reflexivity|exact fullZ_moved_is|reflexivity|exact I].
Defined.


Lemma length_le_capacity_preserved_witness :
  length_le_capacity (vecs full2) ∧
  match exec (CallPushBack 0 (Outside 5)) full2 with
  | Ok _ s' | Throw s' => length_le_capacity (vecs s')
  | UB => True
  end.
Proof.
  assert (length_le_capacity (vecs full2)) as H.
  { apply map_Forall_singleton. simpl. lia. }
  split; [exact H|].
  apply (length_le_capacity_preserved (CallPushBack 0 (Outside 5)) full2 H).
Defined.

Lemma Vector_plus_ignores_argument_witness :
  vecs sample3 !! 0 = Some (mkVector (mkRawMemory (Ptr (Some 2) 0) 4) 3) ∧
  Vector_plus 0 1 sample3 = end_ 0 sample3 ∧
  Vector_plus 0 1 sample3
  = Ok (ptr_plus (buffer_ (data_ (mkVector (mkRawMemory (Ptr (Some 2) 0) 4) 3)))
          (size_ (mkVector (mkRawMemory (Ptr (Some 2) 0) 4) 3))) sample3 ∧
  (Vector_plus 0 1 sample3 = (first ← begin_ 0; mret (ptr_plus first 1)) sample3
   ↔ 1 = size_ (mkVector (mkRawMemory (Ptr (Some 2) 0) 4) 3)).
Proof.
  split; [reflexivity|].
  apply (Vector_plus_ignores_argument sample3 0
           (mkVector (mkRawMemory (Ptr (Some 2) 0) 4) 3) 1).
  reflexivity.
Defined.

Lemma Insert_own_element_witness :
  vector_is sample3 0 [1; 2; 3] 4 (Ptr (Some 2) 0) ∧
  0 < length [1; 2; 3] ∧
  length [1; 2; 3] < 4 ∧
  [1; 2; 3] !! 2 = Some 3 ∧
  ∃ s',
    (first ← begin_ 0; Insert 0 (ptr_plus first 0) (Inside (ptr_plus first 2))) sample3
    = Ok (ptr_plus (Ptr (Some 2) 0) 0) s' ∧
    vector_is s' 0 (take 0 [1; 2; 3] ++ 3 :: drop 0 [1; 2; 3]) 4 (Ptr (Some 2) 0) ∧
    log s' = log sample3
             ++ [EvConstruct (CopyOf (Inside (ptr_plus (Ptr (Some 2) 0) 2))) Local;
                 EvMoveConstruct (ptr_plus (Ptr (Some 2) 0) (length [1; 2; 3] - 1))
                   (ptr_plus (Ptr (Some 2) 0) (length [1; 2; 3]))]
             ++ map (λ k, EvMoveAssign (At (ptr_plus (Ptr (Some 2) 0) (0 + k)))
                            (ptr_plus (Ptr (Some 2) 0) (0 + k + 1)))
                  (rev (seq 0 (length [1; 2; 3] - 1 - 0)))
             ++ [EvMoveAssign Local (ptr_plus (Ptr (Some 2) 0) 0);
                 EvSetSize 0 (S (length [1; 2; 3])); EvDestroy Local].
Proof.
  split; [exact sample3_is|]. split; [simpl; lia|]. split; [simpl; lia|].
  split; [reflexivity|].
  apply (Insert_own_element sample3 0 [1; 2; 3] 4 (Ptr (Some 2) 0) 0 2 3 sample3_is);
    [simpl; lia|simpl; lia|reflexivity].
Defined.

(** Further concrete states: two vectors with a buffer each, and a vector
    of an element type whose constructor throws. *)
Abbreviation pair12 :=
  (State (T := nat) {[1 := [Obj 1; Obj 2]; 2 := [Obj 7; Raw]]}
         {[0 := mkVector (mkRawMemory (Ptr (Some 1) 0) 2) 2;
           1 := mkVector (mkRawMemory (Ptr (Some 2) 0) 2) 1]} []).
Abbreviation spareZ :=
  (State (T := Z) {[1 := [Obj 1%Z; Obj 2%Z; Raw]]}
         {[0 := mkVector (mkRawMemory (Ptr (Some 1) 0) 3) 2]} []).

Lemma pair12_first : vector_is pair12 0 [1; 2] 2 (Ptr (Some 1) 0).
Proof. repeat split; simpl; lia. Defined.

Lemma pair12_second : vector_is pair12 1 [7] 2 (Ptr (Some 2) 0).
Proof. repeat split; simpl; lia. Defined.

Lemma spareZ_is : vector_is spareZ 0 [1%Z; 2%Z] 3 (Ptr (Some 1) 0).
Proof. repeat split; simpl; lia. Defined.

Lemma sample3_owns : owns sample3 0 [1; 2; 3] 4 (Ptr (Some 2) 0) ∅ ∅.
Proof. repeat split; simpl; lia. Defined.

Lemma Vector_dtor_releases_witness :
  (owns sample3 0 [1; 2; 3] 4 (Ptr (Some 2) 0) ∅ ∅) ∧
  (∃ s',
    Vector_dtor 0 sample3 = Ok tt s' ∧
    heap s' = ∅ ∧
    vecs s' = delete 0 ∅ ∧
    log s' = log sample3 ++ events_at destroy_event (Ptr (Some 2) 0)
        (length [1; 2; 3]) ++ dealloc_events (Ptr (Some 2) 0)).
Proof.
  split; [exact sample3_owns|].
  apply (Vector_dtor_releases sample3 0 [1; 2; 3] 4 (Ptr (Some 2) 0) ∅ ∅);
    [exact sample3_owns].
Defined.

Lemma lifetime_restores_state_witness :
  (valid_ops [] [OpPushBack 1; OpPushBack 2; OpInsert 1 5; OpErase 0] = true) ∧
  (∃ s',
    (this ← Vector_default; run_ops this
        [OpPushBack 1; OpPushBack 2; OpInsert 1 5; OpErase 0];; Vector_dtor
        this) sample3 = Ok tt s' ∧
    heap s' = heap sample3 ∧
    vecs s' = vecs sample3).
Proof.
  split; [reflexivity|].
  apply (lifetime_restores_state
           [OpPushBack 1; OpPushBack 2; OpInsert 1 5; OpErase 0] sample3);
    [reflexivity].
Defined.

Lemma other_vector_unaffected_witness :
  (vector_is pair12 0 [1; 2] 2 (Ptr (Some 1) 0)) ∧
  (vector_is pair12 1 [7] 2 (Ptr (Some 2) 0)) ∧
  (1 ≠ 0) ∧
  (disjoint_buffers (Ptr (Some 1) 0) (Ptr (Some 2) 0)) ∧
  (valid_ops [1; 2] [OpPushBack 3; OpErase 0; OpInsert 1 4] = true) ∧
  (∃ s',
    run_ops 0 [OpPushBack 3; OpErase 0; OpInsert 1 4] pair12 = Ok tt s' ∧
    traverse 0 s' = Ok (ref_ops [1; 2] [OpPushBack 3; OpErase 0; OpInsert 1 4])
        s' ∧
    vector_is s' 1 [7] 2 (Ptr (Some 2) 0) ∧
    traverse 1 s' = Ok [7] s').
Proof.
  split; [exact pair12_first|].
  split; [exact pair12_second|].
  split; [lia|].
  split; [unfold disjoint_buffers; simpl; lia|].
  split; [reflexivity|].
  apply (other_vector_unaffected
           [OpPushBack 3; OpErase 0; OpInsert 1 4] pair12 0 1 [1; 2] [7] 2 2
               (Ptr (Some 1) 0) (Ptr (Some 2) 0));
    [exact pair12_first
    |exact pair12_second
    |lia
    |unfold disjoint_buffers; simpl; lia
    |reflexivity].
Defined.

Lemma Vector_n_spec_witness :
  (representable (T := nat) 3) ∧
  (∃ s' this,
    Vector_n 3 sample3 = Ok this s' ∧
    owns s' this (replicate 3 value_initialized) 3 (buffer_new sample3 3)
      (heap sample3) (vecs sample3) ∧
    traverse this s' = Ok (replicate 3 value_initialized) s' ∧
    Size this s' = Ok 3 s' ∧
    Capacity this s' = Ok 3 s' ∧
    log s' = log sample3 ++ alloc_events sample3 3
               ++ events_at EvValueConstruct (buffer_new sample3 3) 3).
Proof.
  split; [unfold representable, SIZE_MAX; simpl; lia|].
  apply (Vector_n_spec 3 sample3);
    [unfold representable, SIZE_MAX; simpl; lia].
Defined.

Lemma Vector_copy_spec_witness :
  (vector_is sample3 0 [1; 2; 3] 4 (Ptr (Some 2) 0)) ∧
  (∃ s' this,
    Vector_copy 0 sample3 = Ok this s' ∧
    this ≠ 0 ∧
    owns s' this [1; 2; 3] (length [1; 2; 3])
        (buffer_new sample3 (length [1; 2; 3])) (heap sample3) (vecs sample3) ∧
    vector_is s' 0 [1; 2; 3] 4 (Ptr (Some 2) 0) ∧
    disjoint_buffers (buffer_new sample3 (length [1; 2; 3])) (Ptr (Some 2) 0) ∧
    log s' = log sample3 ++ alloc_events sample3 (length [1; 2; 3])
               ++ events_at2 EvCopyConstruct (Ptr (Some 2) 0) (length [1; 2; 3])
                    (buffer_new sample3 (length [1; 2; 3]))).
Proof.
  split; [exact sample3_is|].
  apply (Vector_copy_spec sample3 0 [1; 2; 3] 4 (Ptr (Some 2) 0));
    [exact sample3_is].
Defined.

Lemma copy_is_independent_witness :
  (vector_is sample3 0 [1; 2; 3] 4 (Ptr (Some 2) 0)) ∧
  (valid_ops [1; 2; 3] [OpPushBack 4; OpErase 0] = true) ∧
  (∃ s' this,
    (this ← Vector_copy 0; run_ops this [OpPushBack 4; OpErase 0];; mret this)
        sample3 = Ok this s' ∧
    traverse this s' = Ok (ref_ops [1; 2; 3] [OpPushBack 4; OpErase 0]) s' ∧
    vector_is s' 0 [1; 2; 3] 4 (Ptr (Some 2) 0) ∧
    traverse 0 s' = Ok [1; 2; 3] s').
Proof.
  split; [exact sample3_is|].
  split; [reflexivity|].
  apply (copy_is_independent
           [OpPushBack 4; OpErase 0] sample3 0 [1; 2; 3] 4 (Ptr (Some 2) 0));
    [exact sample3_is|reflexivity].
Defined.

Lemma Vector_move_spec_witness :
  (vector_is sample3 0 [1; 2; 3] 4 (Ptr (Some 2) 0)) ∧
  (∃ s' this,
    Vector_move 0 sample3 = Ok this s' ∧
    this ≠ 0 ∧
    vector_is s' this [1; 2; 3] 4 (Ptr (Some 2) 0) ∧
    vector_is s' 0 [] 0 nullptr ∧
    heap s' = heap sample3 ∧
    vecs s' = <[0 := mkVector RawMemory_default 0]>
                (<[this := mkVector (mkRawMemory (Ptr (Some 2) 0) 4)
                    (length [1; 2; 3])]> (vecs sample3)) ∧
    log s' = log sample3 ++ [EvSetSize this (length [1; 2; 3]); EvSetSize 0 0]).
Proof.
  split; [exact sample3_is|].
  apply (Vector_move_spec sample3 0 [1; 2; 3] 4 (Ptr (Some 2) 0));
    [exact sample3_is].
Defined.

Lemma Vector_index_spec_witness :
  (vector_is sample3 0 [1; 2; 3] 4 (Ptr (Some 2) 0)) ∧
  (Vector_index 0 1 sample3
  = (if decide (1 < length [1; 2; 3]) then Ok (ptr_plus (Ptr (Some 2) 0) 1)
      sample3 else UB) ∧
  (p ← Vector_index 0 1; load p) sample3
  = match [1; 2; 3] !! 1 with Some x => Ok x sample3 | None => UB end).
Proof.
  split; [exact sample3_is|].
  apply (Vector_index_spec sample3 0 [1; 2; 3] 4 (Ptr (Some 2) 0) 1);
    [exact sample3_is].
Defined.

Lemma EmplaceBack_returns_last_witness :
  (vector_is full2 0 [1; 2] 2 (Ptr (Some 1) 0)) ∧
  (arg_yields full2 (CopyOf (Outside 9)) 9) ∧
  (∃ s' p,
    EmplaceBack 0 (CopyOf (Outside 9)) full2 = Ok p s' ∧
    Size 0 s' = Ok (S (length [1; 2])) s' ∧
    Vector_index 0 (length [1; 2]) s' = Ok p s' ∧
    load p s' = Ok 9 s').
Proof.
  split; [exact full2_is|].
  split; [reflexivity|].
  apply (EmplaceBack_returns_last
           full2 0 [1; 2] 2 (Ptr (Some 1) 0) (CopyOf (Outside 9)) 9);
    [exact full2_is|reflexivity].
Defined.

Lemma Emplace_returns_position_witness :
  (vector_is sample3 0 [1; 2; 3] 4 (Ptr (Some 2) 0)) ∧
  (1 ≤ length [1; 2; 3]) ∧
  (arg_yields sample3 (CopyOf (Outside 9)) 9) ∧
  (∃ s' q,
    Emplace 0 (ptr_plus (Ptr (Some 2) 0) 1) (CopyOf (Outside 9)) sample3 = Ok q
        s' ∧
    (first ← begin_ 0; mret (ptr_plus first 1)) s' = Ok q s' ∧
    Vector_index 0 1 s' = Ok q s' ∧
    load q s' = Ok 9 s').
Proof.
  split; [exact sample3_is|].
  split; [simpl; lia|].
  split; [reflexivity|].
  apply (Emplace_returns_position
           sample3 0 [1; 2; 3] 4 (Ptr (Some 2) 0) 1 (CopyOf (Outside 9)) 9);
    [exact sample3_is|simpl; lia|reflexivity].
Defined.

Lemma Erase_returns_successor_witness :
  (vector_is sample3 0 [1; 2; 3] 4 (Ptr (Some 2) 0)) ∧
  (1 < length [1; 2; 3]) ∧
  (∃ s' q,
    Erase 0 (ptr_plus (Ptr (Some 2) 0) 1) sample3 = Ok q s' ∧
    match [1; 2; 3] !! S 1 with
    | Some y => load q s' = Ok y s'
    | None => end_ 0 s' = Ok q s'
    end).
Proof.
  split; [exact sample3_is|].
  split; [simpl; lia|].
  apply (Erase_returns_successor sample3 0 [1; 2; 3] 4 (Ptr (Some 2) 0) 1);
    [exact sample3_is|simpl; lia].
Defined.

Lemma PopBack_spec_witness :
  (vector_is sample3 0 [1; 2; 3] 4 (Ptr (Some 2) 0)) ∧
  (match [1; 2; 3] with
  | [] => PopBack 0 sample3 = UB
  | _ :: _ =>
      ∃ s',
        PopBack 0 sample3 = Ok tt s' ∧
        vector_is s' 0 (take (length [1; 2; 3] - 1) [1; 2; 3]) 4
            (Ptr (Some 2) 0) ∧
        log s' = log sample3 ++ [EvDestroy
            (At (ptr_plus (Ptr (Some 2) 0) (length [1; 2; 3] - 1)));
                           EvSetSize 0 (length [1; 2; 3] - 1)]
  end).
Proof.
  split; [exact sample3_is|].
  apply (PopBack_spec sample3 0 [1; 2; 3] 4 (Ptr (Some 2) 0));
    [exact sample3_is].
Defined.

Lemma PushBack_PopBack_round_trip_witness :
  (vector_is full2 0 [1; 2] 2 (Ptr (Some 1) 0)) ∧
  (arg_yields full2 (CopyOf (Outside 9)) 9) ∧
  (∃ s',
    (PushBack 0 (Outside 9);; PopBack 0) full2 = Ok tt s' ∧
    vector_is s' 0 [1; 2] (capacity_after (length [1; 2]) 2)
      (buffer_after full2 (Ptr (Some 1) 0) (length [1; 2]) 2) ∧
    traverse 0 s' = Ok [1; 2] s').
Proof.
  split; [exact full2_is|].
  split; [reflexivity|].
  apply (PushBack_PopBack_round_trip
           full2 0 [1; 2] 2 (Ptr (Some 1) 0) (Outside 9) 9);
    [exact full2_is|reflexivity].
Defined.

Lemma Erase_at_end_witness :
  (vector_is sample3 0 [1; 2; 3] 4 (Ptr (Some 2) 0)) ∧
  (match [1; 2; 3] with
  | [] => Erase 0 (ptr_plus (Ptr (Some 2) 0) (length [1; 2; 3])) sample3 = UB
  | _ :: _ =>
      ∃ s',
        Erase 0 (ptr_plus (Ptr (Some 2) 0) (length [1; 2; 3])) sample3
        = Ok (ptr_plus (Ptr (Some 2) 0) (length [1; 2; 3] - 1)) s' ∧
        vector_is s' 0 (take (length [1; 2; 3] - 1) [1; 2; 3]) 4
            (Ptr (Some 2) 0) ∧
        end_ 0 s' = Ok (ptr_plus (Ptr (Some 2) 0) (length [1; 2; 3] - 1)) s'
  end).
Proof.
  split; [exact sample3_is|].
  apply (Erase_at_end sample3 0 [1; 2; 3] 4 (Ptr (Some 2) 0));
    [exact sample3_is].
Defined.

Lemma Reserve_spec_witness :
  (vector_is sample3 0 [1; 2; 3] 4 (Ptr (Some 2) 0)) ∧
  ((4 < 10 → representable (T := nat) 10)) ∧
  (∃ s',
    Reserve 0 10 sample3 = Ok tt s' ∧
    vector_is s' 0 [1; 2; 3] (4 `max` 10)
      (buffer_reserved sample3 (Ptr (Some 2) 0) 4 10) ∧
    traverse 0 s' = Ok [1; 2; 3] s' ∧
    Capacity 0 s' = Ok (4 `max` 10) s' ∧
    (10 ≤ 4 → s' = sample3)).
Proof.
  split; [exact sample3_is|].
  split; [intros _; unfold representable, SIZE_MAX; simpl; lia|].
  apply (Reserve_spec sample3 0 [1; 2; 3] 4 (Ptr (Some 2) 0) 10);
    [exact sample3_is|intros _; unfold representable, SIZE_MAX; simpl; lia].
Defined.

Lemma Reserve_then_push_keeps_buffer_witness :
  (vector_is sample3 0 [1; 2; 3] 4 (Ptr (Some 2) 0)) ∧
  ((4 < 8 → representable (T := nat) 8)) ∧
  (length [1; 2; 3] + length [4; 5; 6] ≤ 8) ∧
  (∃ s1 s',
    Reserve 0 8 sample3 = Ok tt s1 ∧
    run_ops 0 (map OpPushBack [4; 5; 6]) s1 = Ok tt s' ∧
    vector_is s' 0 ([1; 2; 3] ++ [4; 5; 6]) (4 `max` 8)
        (buffer_reserved sample3 (Ptr (Some 2) 0) 4 8) ∧
    transfers (drop (length (log s1)) (log s')) = []).
Proof.
  split; [exact sample3_is|].
  split; [intros _; unfold representable, SIZE_MAX; simpl; lia|].
  split; [simpl; lia|].
  apply (Reserve_then_push_keeps_buffer
           sample3 0 [1; 2; 3] [4; 5; 6] 4 (Ptr (Some 2) 0) 8);
    [exact sample3_is
    |intros _; unfold representable, SIZE_MAX; simpl; lia
    |simpl; lia].
Defined.

Lemma Emplace_throw_unchanged_witness :
  (vector_is spareZ 0 [1%Z; 2%Z] 3 (Ptr (Some 1) 0)) ∧
  (1 ≤ length [1%Z; 2%Z]) ∧
  (construct 0%Z = None) ∧
  (∃ s',
    Emplace 0 (ptr_plus (Ptr (Some 1) 0) 1) (Make 0%Z) spareZ = Throw s' ∧
    vecs s' = vecs spareZ ∧
    heap s' = heap spareZ ∧
    vector_is s' 0 [1%Z; 2%Z] 3 (Ptr (Some 1) 0)).
Proof.
  split; [exact spareZ_is|].
  split; [simpl; lia|].
  split; [reflexivity|].
  apply (Emplace_throw_unchanged (ET := throwing_element)
           spareZ 0 [1%Z; 2%Z] 3 (Ptr (Some 1) 0) 1 0%Z);
    [exact spareZ_is|simpl; lia|reflexivity].
Defined.

Lemma Swap_spec_witness :
  (vector_is pair12 0 [1; 2] 2 (Ptr (Some 1) 0)) ∧
  (vector_is pair12 1 [7] 2 (Ptr (Some 2) 0)) ∧
  (0 ≠ 1) ∧
  (∃ s',
    Swap 0 1 pair12 = Ok tt s' ∧
    vector_is s' 0 [7] 2 (Ptr (Some 2) 0) ∧
    vector_is s' 1 [1; 2] 2 (Ptr (Some 1) 0) ∧
    heap s' = heap pair12 ∧
    log s' = log pair12 ++ [EvSetSize 0 (length [7]); EvSetSize 1
        (length [1; 2])]).
Proof.
  split; [exact pair12_first|].
  split; [exact pair12_second|].
  split; [lia|].
  apply (Swap_spec pair12 0 1 [1; 2] [7] 2 2 (Ptr (Some 1) 0) (Ptr (Some 2) 0));
    [exact pair12_first|exact pair12_second|lia].
Defined.

Lemma Swap_involutive_witness :
  (is_Some (vecs pair12 !! 0)) ∧
  (is_Some (vecs pair12 !! 1)) ∧
  (∃ s',
    (Swap 0 1;; Swap 0 1) pair12 = Ok tt s' ∧
    vecs s' = vecs pair12 ∧
    heap s' = heap pair12 ∧
    (0 = 1 → ∃ s1, Swap 0 0 pair12 = Ok tt s1 ∧ vecs s1 = vecs pair12)).
Proof.
  split; [eexists; reflexivity|].
  split; [eexists; reflexivity|].
  apply (Swap_involutive pair12 0 1);
    [eexists; reflexivity|eexists; reflexivity].
Defined.

Lemma move_assign_then_destroy_witness :
  (vector_is pair12 0 [1; 2] 2 (Ptr (Some 1) 0)) ∧
  (vector_is pair12 1 [7] 2 (Ptr (Some 2) 0)) ∧
  (0 ≠ 1) ∧
  (disjoint_buffers (Ptr (Some 1) 0) (Ptr (Some 2) 0)) ∧
  (∃ s',
    (Vector_move_assign 0 1;; Vector_dtor 1) pair12 = Ok tt s' ∧
    vector_is s' 0 [7] 2 (Ptr (Some 2) 0) ∧
    heap s' = heap_without (heap pair12) (Ptr (Some 1) 0) ∧
    vecs s' = delete 1
                (<[0 := mkVector (mkRawMemory (Ptr (Some 2) 0) 2)
                    (length [7])]> (vecs pair12)) ∧
    log s' = log pair12 ++ [EvSetSize 0 (length [7]); EvSetSize 1
        (length [1; 2])]
               ++ events_at destroy_event (Ptr (Some 1) 0) (length [1; 2]) ++
                   dealloc_events (Ptr (Some 1) 0)).
Proof.
  split; [exact pair12_first|].
  split; [exact pair12_second|].
  split; [lia|].
  split; [unfold disjoint_buffers; simpl; lia|].
  apply (move_assign_then_destroy
           pair12 0 1 [1; 2] [7] 2 2 (Ptr (Some 1) 0) (Ptr (Some 2) 0));
    [exact pair12_first
    |exact pair12_second
    |lia
    |unfold disjoint_buffers; simpl; lia].
Defined.

Lemma Vector_assign_spec_witness :
  (vector_is pair12 0 [1; 2] 2 (Ptr (Some 1) 0)) ∧
  (vector_is pair12 1 [7] 2 (Ptr (Some 2) 0)) ∧
  (0 ≠ 1) ∧
  (disjoint_buffers (Ptr (Some 1) 0) (Ptr (Some 2) 0)) ∧
  (∃ s',
    Vector_assign 0 1 pair12 = Ok tt s' ∧
    vector_is s' 0 [7] (assigned_capacity 2 (length [7]))
      (assigned_buffer pair12 (Ptr (Some 1) 0) 2 (length [7])) ∧
    vector_is s' 1 [7] 2 (Ptr (Some 2) 0) ∧
    vecs s' = <[0 := mkVector (mkRawMemory
        (assigned_buffer pair12 (Ptr (Some 1) 0) 2 (length [7]))
                                    (assigned_capacity 2 (length [7])))
                          (length [7])]> (vecs pair12) ∧
    Vector_assign 1 1 pair12 = Ok tt pair12).
Proof.
  split; [exact pair12_first|].
  split; [exact pair12_second|].
  split; [lia|].
  split; [unfold disjoint_buffers; simpl; lia|].
  apply (Vector_assign_spec
           pair12 0 1 [1; 2] [7] 2 2 (Ptr (Some 1) 0) (Ptr (Some 2) 0));
    [exact pair12_first
    |exact pair12_second
    |lia
    |unfold disjoint_buffers; simpl; lia].
Defined.

Lemma RawMemory_lifetime_witness :
  (0 < sizeof_T (T := nat)) ∧
  (representable (T := nat) 3) ∧
  (∃ d s1 s',
    RawMemory_new 3 sample3 = Ok d s1 ∧
    Allocate_size_t 3 sample3 = Ok (GetAddress d) s1 ∧
    RawMemory_Capacity d = 3 ∧
    GetAddress d = buffer_new sample3 3 ∧
    (GetAddress d = nullptr ↔ 3 = 0) ∧
    log s1 = log sample3 ++ alloc_events sample3 3 ∧
    RawMemory_dtor d s1 = Ok tt s' ∧
    heap s' = heap sample3 ∧
    vecs s' = vecs sample3 ∧
    log s' = log s1 ++ dealloc_events (buffer_new sample3 3)).
Proof.
  split; [simpl; lia|].
  split; [unfold representable, SIZE_MAX; simpl; lia|].
  apply (RawMemory_lifetime 3 sample3);
    [simpl; lia|unfold representable, SIZE_MAX; simpl; lia].
Defined.

Lemma RawMemory_move_ctor_releases_once_witness :
  (buffer_owned (heap sample3) (mkRawMemory (Ptr (Some 2) 0) 4)) ∧
  (∃ s',
    RawMemory_move_ctor (mkRawMemory (Ptr (Some 2) 0) 4)
    = (mkRawMemory (buffer_ (mkRawMemory (Ptr (Some 2) 0) 4))
        (capacity_ (mkRawMemory (Ptr (Some 2) 0) 4)), RawMemory_default) ∧
    (RawMemory_dtor (snd (RawMemory_move_ctor
        (mkRawMemory (Ptr (Some 2) 0) 4)));;
     RawMemory_dtor (fst (RawMemory_move_ctor
         (mkRawMemory (Ptr (Some 2) 0) 4)))) sample3 = Ok tt s' ∧
    heap s' = heap_without (heap sample3)
        (buffer_ (mkRawMemory (Ptr (Some 2) 0) 4)) ∧
    log s' = log sample3 ++ dealloc_events
        (buffer_ (mkRawMemory (Ptr (Some 2) 0) 4))).
Proof.
  split; [split; [reflexivity|eexists; reflexivity]|].
  apply (RawMemory_move_ctor_releases_once
           sample3 (mkRawMemory (Ptr (Some 2) 0) 4));
    [split; [reflexivity|eexists; reflexivity]].
Defined.

Lemma RawMemory_move_assign_releases_witness :
  (buffer_owned (heap pair12) (mkRawMemory (Ptr (Some 1) 0) 2)) ∧
  (buffer_owned (heap pair12) (mkRawMemory (Ptr (Some 2) 0) 2)) ∧
  (disjoint_buffers (buffer_ (mkRawMemory (Ptr (Some 1) 0) 2))
      (buffer_ (mkRawMemory (Ptr (Some 2) 0) 2))) ∧
  (∃ s1 s',
    RawMemory_move_assign (mkRawMemory (Ptr (Some 1) 0) 2)
        (mkRawMemory (Ptr (Some 2) 0) 2) pair12
    = Ok (mkRawMemory (buffer_ (mkRawMemory (Ptr (Some 2) 0) 2))
        (capacity_ (mkRawMemory (Ptr (Some 2) 0) 2)),
          mkRawMemory nullptr (capacity_ (mkRawMemory (Ptr (Some 1) 0) 2))) s1 ∧
    heap s1 = heap_without (heap pair12)
        (buffer_ (mkRawMemory (Ptr (Some 1) 0) 2)) ∧
    log s1 = log pair12 ++ dealloc_events
        (buffer_ (mkRawMemory (Ptr (Some 1) 0) 2)) ∧
    (RawMemory_dtor (mkRawMemory nullptr
        (capacity_ (mkRawMemory (Ptr (Some 1) 0) 2)));;
     RawMemory_dtor (mkRawMemory (buffer_ (mkRawMemory (Ptr (Some 2) 0) 2))
         (capacity_ (mkRawMemory (Ptr (Some 2) 0) 2)))) s1 = Ok tt s' ∧
    heap s' = heap_without (heap_without (heap pair12)
        (buffer_ (mkRawMemory (Ptr (Some 1) 0) 2)))
        (buffer_ (mkRawMemory (Ptr (Some 2) 0) 2)) ∧
    log s' = log s1 ++ dealloc_events (buffer_
        (mkRawMemory (Ptr (Some 2) 0) 2))).
Proof.
  split; [split; [reflexivity|eexists; reflexivity]|].
  split; [split; [reflexivity|eexists; reflexivity]|].
  split; [unfold disjoint_buffers; simpl; lia|].
  apply (RawMemory_move_assign_releases
           pair12 (mkRawMemory (Ptr (Some 1) 0) 2)
               (mkRawMemory (Ptr (Some 2) 0) 2));
    [split; [reflexivity|eexists; reflexivity]
    |split; [reflexivity|eexists; reflexivity]
    |unfold disjoint_buffers; simpl; lia].
Defined.

Lemma RawMemory_move_assign_self_spec_witness :
  (buffer_owned (heap sample3) (mkRawMemory (Ptr (Some 2) 0) 4)) ∧
  (∃ s',
    RawMemory_move_assign_self (mkRawMemory (Ptr (Some 2) 0) 4) sample3
    = Ok (mkRawMemory nullptr (capacity_ (mkRawMemory (Ptr (Some 2) 0) 4))) s' ∧
    heap s' = heap_without (heap sample3)
        (buffer_ (mkRawMemory (Ptr (Some 2) 0) 4)) ∧
    vecs s' = vecs sample3 ∧
    log s' = log sample3 ++ dealloc_events
        (buffer_ (mkRawMemory (Ptr (Some 2) 0) 4)) ∧
    RawMemory_dtor (mkRawMemory nullptr (capacity_
        (mkRawMemory (Ptr (Some 2) 0) 4))) s' = Ok tt s').
Proof.
  split; [split; [reflexivity|eexists; reflexivity]|].
  apply (RawMemory_move_assign_self_spec
           sample3 (mkRawMemory (Ptr (Some 2) 0) 4));
    [split; [reflexivity|eexists; reflexivity]].
Defined.

Lemma rvalue_overloads_witness :
  (vector_is sample3 0 [1; 2; 3] 4 (Ptr (Some 2) 0)) ∧
  (1 ≤ length [1; 2; 3]) ∧
  (∃ s1 s2 s3 s4 q,
    PushBack 0 (Outside 9) sample3 = Ok tt s1 ∧
    PushBack_move 0 (Outside 9) sample3 = Ok tt s2 ∧
    heap s2 = heap s1 ∧ vecs s2 = vecs s1 ∧
    vector_is s2 0 ([1; 2; 3] ++ [9]) (capacity_after (length [1; 2; 3]) 4)
      (buffer_after sample3 (Ptr (Some 2) 0) (length [1; 2; 3]) 4) ∧
    log s2 = log sample3 ++ EmplaceBack_events 0 (Ptr (Some 2) 0)
        (length [1; 2; 3]) 4
                        (fresh (dom (heap sample3))) (MoveOf (Outside 9)) ∧
    Insert 0 (ptr_plus (Ptr (Some 2) 0) 1) (Outside 9) sample3 = Ok q s3 ∧
    Insert_move 0 (ptr_plus (Ptr (Some 2) 0) 1) (Outside 9) sample3 = Ok q s4 ∧
    heap s4 = heap s3 ∧ vecs s4 = vecs s3 ∧
    vector_is s4 0 (take 1 [1; 2; 3] ++ 9 :: drop 1 [1; 2; 3])
        (capacity_after (length [1; 2; 3]) 4)
      (buffer_after sample3 (Ptr (Some 2) 0) (length [1; 2; 3]) 4)).
Proof.
  split; [exact sample3_is|].
  split; [simpl; lia|].
  apply (rvalue_overloads sample3 0 [1; 2; 3] 4 (Ptr (Some 2) 0) 1 9);
    [exact sample3_is|simpl; lia].
Defined.

Lemma iterator_range_witness :
  (vector_is sample3 0 [1; 2; 3] 4 (Ptr (Some 2) 0)) ∧
  (begin_ 0 sample3 = Ok (Ptr (Some 2) 0) sample3 ∧
  end_ 0 sample3 = Ok (ptr_plus (Ptr (Some 2) 0) (length [1; 2; 3])) sample3 ∧
  cbegin 0 sample3 = Ok (Ptr (Some 2) 0) sample3 ∧
  cend 0 sample3 = Ok (ptr_plus (Ptr (Some 2) 0) (length [1; 2; 3])) sample3 ∧
  (first ← begin_ 0; last ← end_ 0; lift (ptr_distance first last)) sample3
  = Ok (length [1; 2; 3]) sample3 ∧
  (ptr_plus (Ptr (Some 2) 0) (length [1; 2; 3]) = (Ptr (Some 2) 0) ↔ [1; 2; 3]
      = [])).
Proof.
  split; [exact sample3_is|].
  apply (iterator_range sample3 0 [1; 2; 3] 4 (Ptr (Some 2) 0));
    [exact sample3_is].
Defined.

Lemma Erase_shifts_left_witness :
  (vector_is sample3 0 [1; 2; 3] 4 (Ptr (Some 2) 0)) ∧
  (0 < length [1; 2; 3]) ∧
  (∃ s',
    Erase 0 (ptr_plus (Ptr (Some 2) 0) 0) sample3 = Ok
        (ptr_plus (Ptr (Some 2) 0) 0) s' ∧
    vector_is s' 0 (take 0 [1; 2; 3] ++ drop (S 0) [1; 2; 3]) 4
        (Ptr (Some 2) 0) ∧
    log s' = log sample3
      ++ map (λ i, EvMoveAssign (At (ptr_plus (Ptr (Some 2) 0) (0 + 1 + i)))
          (ptr_plus (Ptr (Some 2) 0) (0 + i)))
           (seq 0 (length [1; 2; 3] - 0 - 1))
      ++ [EvDestroy (At (ptr_plus (Ptr (Some 2) 0) (length [1; 2; 3] - 1)));
          EvSetSize 0 (length [1; 2; 3] - 1)]).
Proof.
  split; [exact sample3_is|].
  split; [simpl; lia|].
  apply (Erase_shifts_left sample3 0 [1; 2; 3] 4 (Ptr (Some 2) 0) 0);
    [exact sample3_is|simpl; lia].
Defined.

Lemma PushBack_own_element_witness :
  (vector_is full2 0 [1; 2] 2 (Ptr (Some 1) 0)) ∧
  ([1; 2] !! 0 = Some 1) ∧
  (∃ s',
    PushBack 0 (Inside (ptr_plus (Ptr (Some 1) 0) 0)) full2 = Ok tt s' ∧
    vector_is s' 0 ([1; 2] ++ [1]) (capacity_after (length [1; 2]) 2)
      (buffer_after full2 (Ptr (Some 1) 0) (length [1; 2]) 2) ∧
    traverse 0 s' = Ok ([1; 2] ++ [1]) s').
Proof.
  split; [exact full2_is|].
  split; [reflexivity|].
  apply (PushBack_own_element full2 0 [1; 2] 2 (Ptr (Some 1) 0) 0 1);
    [exact full2_is|reflexivity].
Defined.
